(** * The client transaction task of RAMCloud (src/ClientTransactionTask.cc)

    A shallow embedding of [ClientTransactionTask]: the commit cache, the
    participant list built by [initTask], the prepare and decision batchers,
    the handlers of the two RPC classes and the state machine of
    [performTask], followed by the properties of the specification that are
    checked against it. *)

From Stdlib Require Import ZArith Lia Sorted.
From stdpp Require Import base option list strings sorting.

Open Scope Z_scope.
Open Scope nat_scope.

(** ** Wire-level enumerations and plain data *)

(** A [uint64_t] value is a [Z] reduced modulo 2^64. *)
Definition u64 (z : Z) : Z := (z mod 2 ^ 64)%Z.

(** Status codes surfaced to the task.  Only [STATUS_OK] and
    [STATUS_UNKNOWN_TABLET] are told apart by the code; every other code is
    thrown as a [ClientException]. *)
Inductive Status :=
| STATUS_OK
| STATUS_UNKNOWN_TABLET
| STATUS_OBJECT_DOESNT_EXIST
| STATUS_OTHER (code : nat).

#[global] Instance Status_eq_dec : EqDecision Status.
Proof. solve_decision. Defined.

Module TxDecision.
(** [WireFormat::TxDecision::Decision]. *)
Inductive Decision := COMMIT | ABORT | INVALID.
#[global] Instance Decision_eq_dec : EqDecision Decision.
Proof. solve_decision. Defined.
End TxDecision.

Module TxPrepare.
(** [WireFormat::TxPrepare::Vote]: a vote is [COMMIT] or something else. *)
Inductive Vote := COMMIT | ABORT.
#[global] Instance Vote_eq_dec : EqDecision Vote.
Proof. solve_decision. Defined.
End TxPrepare.

Module CacheEntry.
(** [CacheEntry::type]; [INVALID] stands for every value that the switch of
    [PrepareRpc::appendOp] sends to its [default] branch. *)
Inductive Type_ := READ | REMOVE | WRITE | INVALID.
(** [CacheEntry::state]. *)
Inductive State := PENDING | PREPARE | DECIDE.
#[global] Instance Type_eq_dec : EqDecision Type_.
Proof. solve_decision. Defined.
#[global] Instance State_eq_dec : EqDecision State.
Proof. solve_decision. Defined.

(** Position of a state in the order PENDING, PREPARE, DECIDE. *)
Definition rank (s : State) : nat :=
  match s with PENDING => 0 | PREPARE => 1 | DECIDE => 2 end.
End CacheEntry.

(** States of the task ([ClientTransactionTask::state]). *)
Inductive TaskState := INIT | PREPARE | DECISION | DONE.

#[global] Instance TaskState_eq_dec : EqDecision TaskState.
Proof. solve_decision. Defined.

(** The part of [RpcWrapper::RpcState] that the task's code names or that a
    completed request can be in. *)
Inductive RpcState := NOT_STARTED | IN_PROGRESS | FINISHED | FAILED.

#[global] Instance RpcState_eq_dec : EqDecision RpcState.
Proof. solve_decision. Defined.

Record CacheKey := mkCacheKey { tableId : Z; keyHash : Z }.

#[global] Instance CacheKey_eq_dec : EqDecision CacheKey.
Proof. solve_decision. Defined.

(** [CacheKey::operator<]: lexicographic on (tableId, keyHash). *)
Definition CacheKey_ltb (a b : CacheKey) : bool :=
  ((tableId a <? tableId b)
   || ((tableId a =? tableId b) && (keyHash a <? keyHash b)))%Z.

Record Session := mkSession { getServiceLocator : string }.

Record Lease := mkLease { leaseId : Z; leaseTerm : Z }.

(** [WireFormat::TxParticipant]. *)
Record TxParticipant := mkTxParticipant {
  tp_tableId : Z;
  tp_keyHash : Z;
  tp_rpcId : Z
}.

(** The key and value bytes held by an [ObjectBuffer]. *)
Record ObjectBuffer := mkObjectBuffer { ob_key : string; ob_value : string }.

(** Modelled from the spec: the class [Key] is declared in a header that is
    not among the sources.  A key is a table id with the key bytes, and two
    keys are equal when both agree (the lookup compares "each entry's stored
    key"). *)
Record Key := mkKey { getTableId : Z; getStringKey : string }.

#[global] Instance Key_eq_dec : EqDecision Key.
Proof. solve_decision. Defined.

(** ** Exceptions *)

(** A computation either returns or throws a [ClientException] carrying a
    status; in both cases the mutated state is kept. *)
Inductive Outcome (A : Type) :=
| Normal (a : A)
| Thrown (e : Status) (a : A).
Arguments Normal {A} a.
Arguments Thrown {A} e a.

(** The state a computation ends in, however it ends. *)
Definition payload {A} (o : Outcome A) : A :=
  match o with Normal a | Thrown _ a => a end.

Definition bindO {A} (o : Outcome A) (k : A → Outcome A) : Outcome A :=
  match o with
  | Normal a => k a
  | Thrown e a => Thrown e a
  end.

(** ** The drain loop of the two pipelines

    [processPrepareRpcs] and [processDecisionRpcs] run the same loop over
    their [std::list]:
<<
    for (it = rpcs.begin(); it != rpcs.end(); it++) {
        if (!it->isReady()) continue;
        body(it);                   // may throw
        it = rpcs.erase(it);
    }
>>
    The iterator is a position in the list and [end()] is its length.
    [erase] leaves the iterator on the element that followed the erased one,
    and the [it++] of the loop header then steps over that element.  When
    the erased element was the last one the iterator is [end()] and the
    [it++] increments the past-the-end iterator, which C++ leaves undefined:
    on a circular list with a sentinel node (libstdc++, libc++) it lands on
    [begin()]; the flag [wrap] selects between that reading and the one in
    which the iterator stays on [end()]. *)
Section DrainLoop.
Context {R St : Type}.
Variable wrap : bool.
Variable isReady : R → bool.
Variable body : R → St → Outcome St.

(** [it++] on a list of length [n]. *)
Definition increment (n it : nat) : nat :=
  if it <? n then S it else if wrap then 0 else it.

Fixpoint drainLoop (fuel it : nat) (rpcs : list R) (s : St)
  : option (Outcome (list R * St)) :=
  match fuel with
  | O => None
  | S fuel' =>
      match rpcs !! it with
      | None => Some (Normal (rpcs, s))            (* it == end() *)
      | Some rpc =>
          if isReady rpc then
            match body rpc s with
            | Thrown e s' => Some (Thrown e (rpcs, s'))
            | Normal s' =>
                let rpcs' := delete it rpcs in      (* it = erase(it) *)
                drainLoop fuel' (increment (length rpcs') it) rpcs' s'
            end
          else drainLoop fuel' (S it) rpcs s        (* continue *)
      end
  end.

(** Number of iterations that a list of [n] requests scanned from position
    [it] cannot exceed: an iteration either erases a request or moves the
    iterator forward. *)
Definition drainFuel (n it : nat) : nat := S (n * (n + 2) + (n - it)).

Definition drain (rpcs : list R) (s : St) : Outcome (list R * St) :=
  match drainLoop (drainFuel (length rpcs) 0) 0 rpcs s with
  | Some o => o
  | None => Normal (rpcs, s)     (* not reached, see [drainLoop_total] *)
  end.
End DrainLoop.

(** ** The task, its RPCs and the client they live in *)

Section ClientTransactionTask.
(** Declared in headers that are not part of the sources: the reject rules
    of an operation (opaque to the task), the object finder with its two
    entry points, the hash of a key, and the capacity of the two RPC
    classes. *)
Context {RejectRules : Type} {ObjectFinder : Type}.
Variable defaultRejectRules : RejectRules.
Variable objectFinder_lookup : ObjectFinder → Z → Z → Session.
Variable objectFinder_flush : ObjectFinder → Z → ObjectFinder.
Variable Key_getHash : Z → string → Z.
Variable PrepareRpc_MAX_OBJECTS_PER_RPC : nat.
Variable DecisionRpc_MAX_OBJECTS_PER_RPC : nat.
(** What [it++] does on a past-the-end list iterator, see [drainLoop]. *)
Variable wrap : bool.

Record CacheEntry := mkCacheEntry {
  e_type : CacheEntry.Type_;
  e_objectBuf : option ObjectBuffer;
  e_rejectRules : RejectRules;
  e_rpcId : Z;
  e_state : CacheEntry.State
}.

(** One operation appended to a prepare request; the key and value bytes
    and the reject rules that follow it on the wire are not modelled. *)
Inductive PrepareOp :=
| ReadOp (table rpc : Z)
| RemoveOp (table rpc : Z)
| WriteOp (table rpc : Z).

(** [ClientTransactionTask::PrepareRpc].  [p_ops] holds the iterators of
    the [ops] array as positions in the commit cache; [p_lease],
    [p_participantCount], [p_opCount] and [p_ackId] are the request
    header; [p_participants] is the participant list appended to the
    request by the constructor; [p_state] is the state of the wrapper and
    [p_status], [p_vote] are the response. *)
Record PrepareRpc := mkPrepareRpc {
  p_session : option Session;
  p_ops : list nat;
  p_lease : Lease;
  p_participantCount : nat;
  p_opCount : nat;
  p_ackId : Z;
  p_participants : list TxParticipant;
  p_request : list PrepareOp;
  p_state : RpcState;
  p_status : Status;
  p_vote : TxPrepare.Vote
}.

(** [ClientTransactionTask::DecisionRpc]. *)
Record DecisionRpc := mkDecisionRpc {
  d_session : option Session;
  d_ops : list nat;
  d_decision : TxDecision.Decision;
  d_leaseId : Z;
  d_participantCount : nat;
  d_request : list TxParticipant;
  d_state : RpcState;
  d_status : Status
}.

(** [ClientTransactionTask].  The declaration of [participantCount] is in
    the header, which is not among the sources; the counter is a natural
    number here and no wrap-around is modelled for it. *)
Record Task := mkTask {
  participantCount : nat;
  participantList : list TxParticipant;
  state : TaskState;
  status : Status;
  decision : TxDecision.Decision;
  lease : Lease;
  txId : Z;
  prepareRpcs : list PrepareRpc;
  decisionRpcs : list DecisionRpc;
  (** the multimap in iteration order, that is ordered by [CacheKey] *)
  commitCache : list (CacheKey * CacheEntry);
  (** the iterator as a position; [end()] is the length of the cache *)
  nextCacheEntry : nat
}.

(** Modelled from the spec: the RPC tracker hands out the start of a
    contiguous range of ids ([newRpcIdBlock]), gives the acknowledgment
    cursor ([ackId]) and is told when a range is released
    ([rpcFinished]); [tr_finished] lists the ids released so far. *)
Record RpcTracker := mkRpcTracker {
  tr_nextRpcId : Z;
  tr_ackId : Z;
  tr_finished : list Z
}.

(** What the task reaches through its [ramcloud] pointer.  The calls that
    return nothing are kept as logs: the locators passed to
    [transportManager->flushSession] and the requests passed to
    [session->sendRequest]. *)
Record RamCloud := mkRamCloud {
  objectFinder : ObjectFinder;
  clientLease : Lease;
  rpcTracker : RpcTracker;
  flushedSessions : list string;
  sentPrepares : list PrepareRpc;
  sentDecisions : list DecisionRpc
}.

Record World := mkWorld { ramcloud : RamCloud; task : Task }.

(** *** Field updates *)

Definition set_e_state (s : CacheEntry.State) (e : CacheEntry) : CacheEntry :=
  mkCacheEntry (e_type e) (e_objectBuf e) (e_rejectRules e) (e_rpcId e) s.
Definition set_e_rpcId (r : Z) (e : CacheEntry) : CacheEntry :=
  mkCacheEntry (e_type e) (e_objectBuf e) (e_rejectRules e) r (e_state e).

Definition set_state (s : TaskState) (t : Task) : Task :=
  mkTask (participantCount t) (participantList t) s (status t) (decision t)
    (lease t) (txId t) (prepareRpcs t) (decisionRpcs t) (commitCache t)
    (nextCacheEntry t).
Definition set_status (s : Status) (t : Task) : Task :=
  mkTask (participantCount t) (participantList t) (state t) s (decision t)
    (lease t) (txId t) (prepareRpcs t) (decisionRpcs t) (commitCache t)
    (nextCacheEntry t).
Definition set_decision (d : TxDecision.Decision) (t : Task) : Task :=
  mkTask (participantCount t) (participantList t) (state t) (status t) d
    (lease t) (txId t) (prepareRpcs t) (decisionRpcs t) (commitCache t)
    (nextCacheEntry t).
Definition set_prepareRpcs (l : list PrepareRpc) (t : Task) : Task :=
  mkTask (participantCount t) (participantList t) (state t) (status t)
    (decision t) (lease t) (txId t) l (decisionRpcs t) (commitCache t)
    (nextCacheEntry t).
Definition set_decisionRpcs (l : list DecisionRpc) (t : Task) : Task :=
  mkTask (participantCount t) (participantList t) (state t) (status t)
    (decision t) (lease t) (txId t) (prepareRpcs t) l (commitCache t)
    (nextCacheEntry t).
Definition set_commitCache (c : list (CacheKey * CacheEntry)) (t : Task)
  : Task :=
  mkTask (participantCount t) (participantList t) (state t) (status t)
    (decision t) (lease t) (txId t) (prepareRpcs t) (decisionRpcs t) c
    (nextCacheEntry t).
Definition set_nextCacheEntry (n : nat) (t : Task) : Task :=
  mkTask (participantCount t) (participantList t) (state t) (status t)
    (decision t) (lease t) (txId t) (prepareRpcs t) (decisionRpcs t)
    (commitCache t) n.

Definition on_task (f : Task → Task) (w : World) : World :=
  mkWorld (ramcloud w) (f (task w)).
Definition on_ramcloud (f : RamCloud → RamCloud) (w : World) : World :=
  mkWorld (f (ramcloud w)) (task w).

(** [entry->state = s] for the entry at position [i]. *)
Definition set_entry_state (i : nat) (s : CacheEntry.State) (t : Task)
  : Task :=
  set_commitCache (alter (λ ke, (ke.1, set_e_state s ke.2)) i (commitCache t)) t.

(** *** Construction and staging *)

(** The constructor. *)
Definition newTask : Task :=
  mkTask 0 [] INIT STATUS_OK TxDecision.INVALID (mkLease 0 0) 0 [] [] [] 0.

(** Modelled from the spec: the default constructor of [CacheEntry] is
    declared in the header; a new entry has not begun any phase, so its
    state is [PENDING], and its type is chosen later by the staging
    code. *)
Definition newCacheEntry : CacheEntry :=
  mkCacheEntry CacheEntry.INVALID None defaultRejectRules 0 CacheEntry.PENDING.

(** Where [std::multimap::insert] puts a new key: behind every entry that
    is not greater. *)
Fixpoint upper_bound (k : CacheKey) (c : list (CacheKey * CacheEntry)) : nat :=
  match c with
  | [] => 0
  | (k', _) :: c' => if CacheKey_ltb k k' then 0 else S (upper_bound k c')
  end.

(** [insertCacheEntry]; the result carries the position of the new entry
    (the returned pointer). *)
Definition insertCacheEntry (table : Z) (key : string) (buf : string)
    (t : Task) : nat * Task :=
  let cacheKey := mkCacheKey table (Key_getHash table key) in
  let it := upper_bound cacheKey (commitCache t) in
  let entry :=
    mkCacheEntry (e_type newCacheEntry) (Some (mkObjectBuffer key buf))
      (e_rejectRules newCacheEntry) (e_rpcId newCacheEntry)
      (e_state newCacheEntry) in
  (it, set_commitCache
         (take it (commitCache t) ++ (cacheKey, entry) :: drop it (commitCache t))
         t).

(** Where [std::multimap::lower_bound] points: at the first entry that is
    not less than the key. *)
Fixpoint lower_bound (k : CacheKey) (c : list (CacheKey * CacheEntry)) : nat :=
  match c with
  | [] => 0
  | (k', _) :: c' => if CacheKey_ltb k' k then S (lower_bound k c') else 0
  end.

(** The [while] loop of [findCacheEntry] over the entries from the iterator
    on; [it] is the position of the first of them. *)
Fixpoint findCacheEntryLoop (key : Key) (cacheKey : CacheKey)
    (c : list (CacheKey * CacheEntry)) (it : nat) : option nat :=
  match c with
  | [] => None                                   (* it == end() *)
  | (k', entry) :: c' =>
      if CacheKey_ltb cacheKey k' then None       (* break *)
      else
        match e_objectBuf entry with
        | Some objectBuf =>
            if decide (key = mkKey (tableId k') (ob_key objectBuf))
            then Some it
            else findCacheEntryLoop key cacheKey c' (S it)
        | None => findCacheEntryLoop key cacheKey c' (S it)
        end
  end.

(** [findCacheEntry]; the result is the position of the entry found (the
    returned pointer) or [None] for [NULL]. *)
Definition findCacheEntry (key : Key) (t : Task) : option nat :=
  let cacheKey :=
    mkCacheKey (getTableId key) (Key_getHash (getTableId key) (getStringKey key)) in
  let it := lower_bound cacheKey (commitCache t) in
  findCacheEntryLoop key cacheKey (drop it (commitCache t)) it.

(** *** initTask *)

Definition newRpcIdBlock (tr : RpcTracker) (size : nat) : Z * RpcTracker :=
  (tr_nextRpcId tr,
   mkRpcTracker (u64 (tr_nextRpcId tr + Z.of_nat size)) (tr_ackId tr)
     (tr_finished tr)).

Definition rpcFinished (id : Z) (rc : RamCloud) : RamCloud :=
  mkRamCloud (objectFinder rc) (clientLease rc)
    (mkRpcTracker (tr_nextRpcId (rpcTracker rc)) (tr_ackId (rpcTracker rc))
       (tr_finished (rpcTracker rc) ++ [id]))
    (flushedSessions rc) (sentPrepares rc) (sentDecisions rc).

(** The [while] loop of [initTask]; [n] bounds the entries left to visit
    and [i] is the [uint64_t] counter. *)
Fixpoint initLoop (n : nat) (i : Z) (t : Task) : Task :=
  match n with
  | O => t
  | S n' =>
      match commitCache t !! nextCacheEntry t with
      | None => t
      | Some (key, entry) =>
          let rpcId := u64 (txId t + i) in
          initLoop n' (u64 (i + 1))
            (mkTask (S (participantCount t))
               (participantList t
                  ++ [mkTxParticipant (tableId key) (keyHash key) rpcId])
               (state t) (status t) (decision t) (lease t) (txId t)
               (prepareRpcs t) (decisionRpcs t)
               (<[nextCacheEntry t := (key, set_e_rpcId rpcId entry)]>
                  (commitCache t))
               (S (nextCacheEntry t)))
      end
  end.

Definition initTask (w : World) : World :=
  let rc := ramcloud w in
  let t := task w in
  let '(id, tr) := newRpcIdBlock (rpcTracker rc) (length (commitCache t)) in
  let rc' :=
    mkRamCloud (objectFinder rc) (clientLease rc) tr (flushedSessions rc)
      (sentPrepares rc) (sentDecisions rc) in
  let t0 :=
    mkTask (participantCount t) (participantList t) (state t) (status t)
      (decision t) (clientLease rc) id (prepareRpcs t) (decisionRpcs t)
      (commitCache t) 0 in
  mkWorld rc' (initLoop (length (commitCache t)) 0 t0).

(** *** Completed requests *)

(** Modelled from the spec: [RpcWrapper::isReady] is not among the
    sources.  A request is ready once the transport has completed it,
    with a response ([FINISHED]) or with a failure ([FAILED]); the
    handlers [handleTransportError] and [checkStatus] have run by then
    (see [deliver]). *)
Definition RpcState_isReady (s : RpcState) : bool :=
  match s with FINISHED | FAILED => true | _ => false end.

(** Body of the loop of [processPrepareRpcs] for a ready request; the only
    field of the task it touches is [decision]. *)
Definition processPrepareRpc (rpc : PrepareRpc) (d : TxDecision.Decision)
  : Outcome TxDecision.Decision :=
  if decide (p_state rpc = FAILED) then Normal d
  else if decide (p_status rpc = STATUS_OK) then
    if decide (p_vote rpc = TxPrepare.COMMIT) then Normal d
    else Normal TxDecision.ABORT
  else if decide (p_status rpc = STATUS_UNKNOWN_TABLET) then Normal d
  else Thrown (p_status rpc) d.

Definition processPrepareRpcs (t : Task) : Outcome Task :=
  match drain wrap (λ rpc, RpcState_isReady (p_state rpc)) processPrepareRpc
          (prepareRpcs t) (decision t) with
  | Normal (rpcs, d) => Normal (set_decision d (set_prepareRpcs rpcs t))
  | Thrown e (rpcs, d) => Thrown e (set_decision d (set_prepareRpcs rpcs t))
  end.

(** Body of the loop of [processDecisionRpcs]: nothing but the throw. *)
Definition processDecisionRpc (rpc : DecisionRpc) (u : unit) : Outcome unit :=
  if decide (d_state rpc = FAILED) then Normal u
  else if decide (d_status rpc = STATUS_OK) then Normal u
  else if decide (d_status rpc = STATUS_UNKNOWN_TABLET) then Normal u
  else Thrown (d_status rpc) u.

Definition processDecisionRpcs (t : Task) : Outcome Task :=
  match drain wrap (λ rpc, RpcState_isReady (d_state rpc)) processDecisionRpc
          (decisionRpcs t) () with
  | Normal (rpcs, _) => Normal (set_decisionRpcs rpcs t)
  | Thrown e (rpcs, _) => Thrown e (set_decisionRpcs rpcs t)
  end.

(** *** PrepareRpc *)

(** The constructor; the response fields are not read before the request
    is [FINISHED]. *)
Definition newPrepareRpc (session : Session) (t : Task) : PrepareRpc :=
  mkPrepareRpc (Some session) [] (lease t) (participantCount t) 0 0
    (participantList t) [] NOT_STARTED STATUS_OK TxPrepare.COMMIT.

(** [PrepareRpc::appendOp].  The assignment [ops[opCount] = opEntry] is
    the update of the filled prefix of the array. *)
Definition PrepareRpc_appendOp (opEntry : nat) (rpc : PrepareRpc) (t : Task)
  : PrepareRpc * Task :=
  match commitCache t !! opEntry with
  | None => (rpc, t)
  | Some (key, entry) =>
      let op :=
        match e_type entry with
        | CacheEntry.READ => Some (ReadOp (tableId key) (e_rpcId entry))
        | CacheEntry.REMOVE => Some (RemoveOp (tableId key) (e_rpcId entry))
        | CacheEntry.WRITE => Some (WriteOp (tableId key) (e_rpcId entry))
        | CacheEntry.INVALID => None
        end in
      match op with
      | None => (rpc, t)          (* "Unknown transaction op type." *)
      | Some o =>
          (mkPrepareRpc (p_session rpc)
             (take (p_opCount rpc) (p_ops rpc) ++ [opEntry])
             (p_lease rpc) (p_participantCount rpc) (S (p_opCount rpc))
             (p_ackId rpc) (p_participants rpc) (p_request rpc ++ [o])
             (p_state rpc) (p_status rpc) (p_vote rpc),
           set_entry_state opEntry CacheEntry.PREPARE t)
      end
  end.

(** [PrepareRpc::send]. *)
Definition PrepareRpc_send (rc : RamCloud) (rpc : PrepareRpc) : PrepareRpc :=
  mkPrepareRpc (p_session rpc) (p_ops rpc) (p_lease rpc)
    (p_participantCount rpc) (p_opCount rpc) (tr_ackId (rpcTracker rc))
    (p_participants rpc) (p_request rpc) IN_PROGRESS (p_status rpc)
    (p_vote rpc).

(** The loop of both [retryRequest] methods over [ops[0..count)]. *)
Fixpoint retryLoop (ops : list nat) (w : World) : World :=
  match ops with
  | [] => w
  | op :: ops' =>
      match commitCache (task w) !! op with
      | None => retryLoop ops' w
      | Some (key, _) =>
          let rc := ramcloud w in
          retryLoop ops'
            (mkWorld
               (mkRamCloud (objectFinder_flush (objectFinder rc) (tableId key))
                  (clientLease rc) (rpcTracker rc) (flushedSessions rc)
                  (sentPrepares rc) (sentDecisions rc))
               (set_entry_state op CacheEntry.PENDING (task w)))
      end
  end.

(** [PrepareRpc::retryRequest]. *)
Definition PrepareRpc_retryRequest (rpc : PrepareRpc) (w : World) : World :=
  on_task (set_nextCacheEntry 0)
    (retryLoop (take (p_opCount rpc) (p_ops rpc)) w).

(** [PrepareRpc::checkStatus]. *)
Definition PrepareRpc_checkStatus (rpc : PrepareRpc) (w : World) : World :=
  if decide (p_status rpc = STATUS_UNKNOWN_TABLET)
  then PrepareRpc_retryRequest rpc w else w.

Definition flushSession (locator : string) (rc : RamCloud) : RamCloud :=
  mkRamCloud (objectFinder rc) (clientLease rc) (rpcTracker rc)
    (flushedSessions rc ++ [locator]) (sentPrepares rc) (sentDecisions rc).

Definition PrepareRpc_dropSession (rpc : PrepareRpc) : PrepareRpc :=
  mkPrepareRpc None (p_ops rpc) (p_lease rpc) (p_participantCount rpc)
    (p_opCount rpc) (p_ackId rpc) (p_participants rpc) (p_request rpc)
    (p_state rpc) (p_status rpc) (p_vote rpc).

(** [PrepareRpc::handleTransportError] of the request at position [j] of
    the pipeline. *)
Definition PrepareRpc_handleTransportError (j : nat) (w : World) : World :=
  match prepareRpcs (task w) !! j with
  | None => w
  | Some rpc =>
      let w1 :=
        match p_session rpc with
        | Some session =>
            mkWorld (flushSession (getServiceLocator session) (ramcloud w))
              (set_prepareRpcs
                 (<[j := PrepareRpc_dropSession rpc]> (prepareRpcs (task w)))
                 (task w))
        | None => w
        end in
      PrepareRpc_retryRequest rpc w1
  end.

(** *** DecisionRpc *)

Definition newDecisionRpc (session : Session) (t : Task) : DecisionRpc :=
  mkDecisionRpc (Some session) [] (decision t) (leaseId (lease t)) 0 []
    NOT_STARTED STATUS_OK.

(** [DecisionRpc::appendOp]. *)
Definition DecisionRpc_appendOp (opEntry : nat) (rpc : DecisionRpc) (t : Task)
  : DecisionRpc * Task :=
  match commitCache t !! opEntry with
  | None => (rpc, t)
  | Some (key, entry) =>
      (mkDecisionRpc (d_session rpc)
         (take (d_participantCount rpc) (d_ops rpc) ++ [opEntry])
         (d_decision rpc) (d_leaseId rpc) (S (d_participantCount rpc))
         (d_request rpc
            ++ [mkTxParticipant (tableId key) (keyHash key) (e_rpcId entry)])
         (d_state rpc) (d_status rpc),
       set_entry_state opEntry CacheEntry.DECIDE t)
  end.

(** [DecisionRpc::send]. *)
Definition DecisionRpc_send (rpc : DecisionRpc) : DecisionRpc :=
  mkDecisionRpc (d_session rpc) (d_ops rpc) (d_decision rpc) (d_leaseId rpc)
    (d_participantCount rpc) (d_request rpc) IN_PROGRESS (d_status rpc).

(** [DecisionRpc::retryRequest]. *)
Definition DecisionRpc_retryRequest (rpc : DecisionRpc) (w : World) : World :=
  on_task (set_nextCacheEntry 0)
    (retryLoop (take (d_participantCount rpc) (d_ops rpc)) w).

(** [DecisionRpc::checkStatus]. *)
Definition DecisionRpc_checkStatus (rpc : DecisionRpc) (w : World) : World :=
  if decide (d_status rpc = STATUS_UNKNOWN_TABLET)
  then DecisionRpc_retryRequest rpc w else w.

Definition DecisionRpc_dropSession (rpc : DecisionRpc) : DecisionRpc :=
  mkDecisionRpc None (d_ops rpc) (d_decision rpc) (d_leaseId rpc)
    (d_participantCount rpc) (d_request rpc) (d_state rpc) (d_status rpc).

(** [DecisionRpc::handleTransportError] of the request at position [j]. *)
Definition DecisionRpc_handleTransportError (j : nat) (w : World) : World :=
  match decisionRpcs (task w) !! j with
  | None => w
  | Some rpc =>
      let w1 :=
        match d_session rpc with
        | Some session =>
            mkWorld (flushSession (getServiceLocator session) (ramcloud w))
              (set_decisionRpcs
                 (<[j := DecisionRpc_dropSession rpc]> (decisionRpcs (task w)))
                 (task w))
        | None => w
        end in
      DecisionRpc_retryRequest rpc w1
  end.

(** *** The batchers *)

Definition advance (t : Task) : Task :=
  set_nextCacheEntry (S (nextCacheEntry t)) t.

Definition sameLocator (a b : Session) : bool :=
  bool_decide (getServiceLocator a = getServiceLocator b).

(** The [for] loop of [sendPrepareRpc].  [n] bounds the entries left to
    visit; [cur] is [None] while [nextRpc == NULL] and otherwise holds
    [rpcSession] and the request that [nextRpc] points to (the last
    element of [prepareRpcs], written back by [sendPrepareRpc]). *)
Fixpoint sendPrepareLoop (n : nat) (finder : ObjectFinder) (t : Task)
    (cur : option (Session * PrepareRpc))
  : Task * option (Session * PrepareRpc) :=
  match n with
  | O => (t, cur)
  | S n' =>
      match commitCache t !! nextCacheEntry t with
      | None => (t, cur)                     (* nextCacheEntry == end() *)
      | Some (key, entry) =>
          if decide (e_state entry = CacheEntry.PREPARE) then
            sendPrepareLoop n' finder (advance t) cur
          else
            let '(rpcSession, nextRpc) :=
              match cur with
              | Some c => c
              | None =>
                  let s := objectFinder_lookup finder (tableId key) (keyHash key) in
                  (s, newPrepareRpc s t)
              end in
            let session :=
              objectFinder_lookup finder (tableId key) (keyHash key) in
            if sameLocator session rpcSession
               && (p_opCount nextRpc <? PrepareRpc_MAX_OBJECTS_PER_RPC)
            then
              let '(rpc', t') :=
                PrepareRpc_appendOp (nextCacheEntry t) nextRpc t in
              sendPrepareLoop n' finder (advance t') (Some (rpcSession, rpc'))
            else (t, Some (rpcSession, nextRpc))      (* break *)
      end
  end.

(** [sendPrepareRpc]. *)
Definition sendPrepareRpc (w : World) : World :=
  let rc := ramcloud w in
  let t := task w in
  match sendPrepareLoop (length (commitCache t) - nextCacheEntry t)
          (objectFinder rc) t None with
  | (t', None) => mkWorld rc t'
  | (t', Some (_, nextRpc)) =>
      let sent := PrepareRpc_send rc nextRpc in
      mkWorld
        (mkRamCloud (objectFinder rc) (clientLease rc) (rpcTracker rc)
           (flushedSessions rc) (sentPrepares rc ++ [sent]) (sentDecisions rc))
        (set_prepareRpcs (prepareRpcs t' ++ [sent]) t')
  end.

(** The [for] loop of [sendDecisionRpc]. *)
Fixpoint sendDecisionLoop (n : nat) (finder : ObjectFinder) (t : Task)
    (cur : option (Session * DecisionRpc))
  : Task * option (Session * DecisionRpc) :=
  match n with
  | O => (t, cur)
  | S n' =>
      match commitCache t !! nextCacheEntry t with
      | None => (t, cur)
      | Some (key, entry) =>
          if decide (e_state entry = CacheEntry.DECIDE) then
            sendDecisionLoop n' finder (advance t) cur
          else
            let '(rpcSession, nextRpc) :=
              match cur with
              | Some c => c
              | None =>
                  let s := objectFinder_lookup finder (tableId key) (keyHash key) in
                  (s, newDecisionRpc s t)
              end in
            let session :=
              objectFinder_lookup finder (tableId key) (keyHash key) in
            if sameLocator session rpcSession
               && (d_participantCount nextRpc <? DecisionRpc_MAX_OBJECTS_PER_RPC)
            then
              let '(rpc', t') :=
                DecisionRpc_appendOp (nextCacheEntry t) nextRpc t in
              sendDecisionLoop n' finder (advance t') (Some (rpcSession, rpc'))
            else (t, Some (rpcSession, nextRpc))
      end
  end.

(** [sendDecisionRpc]. *)
Definition sendDecisionRpc (w : World) : World :=
  let rc := ramcloud w in
  let t := task w in
  match sendDecisionLoop (length (commitCache t) - nextCacheEntry t)
          (objectFinder rc) t None with
  | (t', None) => mkWorld rc t'
  | (t', Some (_, nextRpc)) =>
      let sent := DecisionRpc_send nextRpc in
      mkWorld
        (mkRamCloud (objectFinder rc) (clientLease rc) (rpcTracker rc)
           (flushedSessions rc) (sentPrepares rc) (sentDecisions rc ++ [sent]))
        (set_decisionRpcs (decisionRpcs t' ++ [sent]) t')
  end.

(** *** performTask *)

(** [nextCacheEntry == commitCache.end()]. *)
Definition atEnd (t : Task) : bool :=
  nextCacheEntry t =? length (commitCache t).

Definition isEmpty {A} (l : list A) : bool :=
  match l with [] => true | _ => false end.

(** The block [if (state == INIT)]. *)
Definition initBlock (w : World) : World :=
  if decide (state (task w) = INIT) then
    on_task (λ t, set_state PREPARE (set_nextCacheEntry 0 t)) (initTask w)
  else w.

(** What the block [if (state == PREPARE)] does once the pipeline is empty
    and the cursor is at the end. *)
Definition enterDecision (t : Task) : Task :=
  set_state DECISION
    (set_decision
       (if decide (decision t = TxDecision.ABORT) then TxDecision.ABORT
        else TxDecision.COMMIT)
       (set_nextCacheEntry 0 t)).

(** The block [if (state == PREPARE)]. *)
Definition prepareBlock (w : World) : Outcome World :=
  if decide (state (task w) = PREPARE) then
    match processPrepareRpcs (task w) with
    | Thrown e t' => Thrown e (mkWorld (ramcloud w) t')
    | Normal t1 =>
        let w2 := sendPrepareRpc (mkWorld (ramcloud w) t1) in
        if isEmpty (prepareRpcs (task w2)) && atEnd (task w2)
        then Normal (on_task enterDecision w2)
        else Normal w2
    end
  else Normal w.

(** The block [if (state == DECISION)]. *)
Definition decisionBlock (w : World) : Outcome World :=
  if decide (state (task w) = DECISION) then
    match processDecisionRpcs (task w) with
    | Thrown e t' => Thrown e (mkWorld (ramcloud w) t')
    | Normal t1 =>
        let w2 := sendDecisionRpc (mkWorld (ramcloud w) t1) in
        if isEmpty (decisionRpcs (task w2)) && atEnd (task w2)
        then Normal (mkWorld (rpcFinished (txId (task w2)) (ramcloud w2))
                       (set_state DONE (task w2)))
        else Normal w2
    end
  else Normal w.

(** The [catch] clause. *)
Definition catchClientException (e : Status) (w : World) : World :=
  let t := set_status e (set_decisionRpcs [] (set_prepareRpcs [] (task w))) in
  mkWorld (rpcFinished (txId t) (ramcloud w)) (set_state DONE t).

(** The [try] block. *)
Definition tryBlock (w : World) : Outcome World :=
  bindO (prepareBlock (initBlock w)) decisionBlock.

Definition performTask (w : World) : World :=
  match tryBlock w with
  | Normal w' => w'
  | Thrown e w' => catchClientException e w'
  end.

(** *** The transport *)

(** Modelled from the spec: the transport and [RpcWrapper] are not among
    the sources.  Between two calls of [performTask] the transport
    completes requests that are in progress: with a failure, and then it
    has invoked [handleTransportError]; or with a response, and then
    [checkStatus] has seen its status. *)
Inductive Event :=
| PrepareFailed (j : nat)
| PrepareResponse (j : nat) (st : Status) (v : TxPrepare.Vote)
| DecisionFailed (j : nat)
| DecisionResponse (j : nat) (st : Status).

Definition PrepareRpc_complete (s : RpcState) (st : Status)
    (v : TxPrepare.Vote) (rpc : PrepareRpc) : PrepareRpc :=
  mkPrepareRpc (p_session rpc) (p_ops rpc) (p_lease rpc)
    (p_participantCount rpc) (p_opCount rpc) (p_ackId rpc)
    (p_participants rpc) (p_request rpc) s st v.

Definition DecisionRpc_complete (s : RpcState) (st : Status)
    (rpc : DecisionRpc) : DecisionRpc :=
  mkDecisionRpc (d_session rpc) (d_ops rpc) (d_decision rpc) (d_leaseId rpc)
    (d_participantCount rpc) (d_request rpc) s st.

Definition deliver (ev : Event) (w : World) : option World :=
  match ev with
  | PrepareFailed j =>
      rpc ← prepareRpcs (task w) !! j;
      if decide (p_state rpc = IN_PROGRESS) then
        let rpc' := PrepareRpc_complete FAILED (p_status rpc) (p_vote rpc) rpc in
        Some (PrepareRpc_handleTransportError j
                (on_task (λ t, set_prepareRpcs (<[j := rpc']> (prepareRpcs t)) t) w))
      else None
  | PrepareResponse j st v =>
      rpc ← prepareRpcs (task w) !! j;
      if decide (p_state rpc = IN_PROGRESS) then
        let rpc' := PrepareRpc_complete FINISHED st v rpc in
        Some (PrepareRpc_checkStatus rpc'
                (on_task (λ t, set_prepareRpcs (<[j := rpc']> (prepareRpcs t)) t) w))
      else None
  | DecisionFailed j =>
      rpc ← decisionRpcs (task w) !! j;
      if decide (d_state rpc = IN_PROGRESS) then
        let rpc' := DecisionRpc_complete FAILED (d_status rpc) rpc in
        Some (DecisionRpc_handleTransportError j
                (on_task (λ t, set_decisionRpcs (<[j := rpc']> (decisionRpcs t)) t) w))
      else None
  | DecisionResponse j st =>
      rpc ← decisionRpcs (task w) !! j;
      if decide (d_state rpc = IN_PROGRESS) then
        let rpc' := DecisionRpc_complete FINISHED st rpc in
        Some (DecisionRpc_checkStatus rpc'
                (on_task (λ t, set_decisionRpcs (<[j := rpc']> (decisionRpcs t)) t) w))
      else None
  end.

(** What can happen to a task that is committing: the manager calls
    [performTask], or the transport completes a request. *)
Inductive Action := PerformTask | Deliver (ev : Event).

Definition exec (a : Action) (w : World) : option World :=
  match a with
  | PerformTask => Some (performTask w)
  | Deliver ev => deliver ev w
  end.

(** A task as the staging code leaves it: untouched by the constructor's
    values except for the commit cache, whose entries are [PENDING]. *)
Definition Fresh (t : Task) : Prop :=
  participantCount t = 0 ∧ participantList t = [] ∧ state t = INIT
  ∧ status t = STATUS_OK ∧ decision t = TxDecision.INVALID
  ∧ prepareRpcs t = [] ∧ decisionRpcs t = []
  ∧ Forall (λ ke, e_state ke.2 = CacheEntry.PENDING) (commitCache t).

(** The client at the moment the commit of a task starts: nothing has
    been released or sent on behalf of the task. *)
Definition Initial (w : World) : Prop :=
  Fresh (task w) ∧ tr_finished (rpcTracker (ramcloud w)) = []
  ∧ sentPrepares (ramcloud w) = [] ∧ sentDecisions (ramcloud w) = [].

Inductive Reachable : World → Prop :=
| Reachable_init w : Initial w → Reachable w
| Reachable_step w a w' : Reachable w → exec a w = Some w' → Reachable w'.

(** A run: the worlds visited by a list of actions. *)
Fixpoint run (acts : list Action) (w : World) : option World :=
  match acts with
  | [] => Some w
  | a :: acts' => w' ← exec a w; run acts' w'
  end.

End ClientTransactionTask.

(** ** Vocabulary of the properties *)

Section Vocabulary.
Context {RejectRules : Type} {ObjectFinder : Type}.
Abbreviation CacheEntry := (CacheEntry (RejectRules:=RejectRules)).
Abbreviation Task := (Task (RejectRules:=RejectRules)).
Abbreviation World :=
  (World (RejectRules:=RejectRules) (ObjectFinder:=ObjectFinder)).

(** Two caches hold the same keys at the same positions and their entries
    are related by [R]. *)
Definition CacheRel (R : CacheEntry → CacheEntry → Prop)
    (c c' : list (CacheKey * CacheEntry)) : Prop :=
  Forall2 (λ x y, x.1 = y.1 ∧ R x.2 y.2) c c'.

(** An entry changed in nothing but its state, and its state as [S]
    allows. *)
Definition EntryStep (S : CacheEntry.State → CacheEntry.State → Prop)
    (e e' : CacheEntry) : Prop :=
  e' = set_e_state (e_state e') e ∧ S (e_state e) (e_state e').

(** The state changes of the three writers of [CacheEntry::state]. *)
Definition byPrepare (s s' : CacheEntry.State) : Prop :=
  s' = s ∨ (s ≠ CacheEntry.PREPARE ∧ s' = CacheEntry.PREPARE).
Definition byDecision (s s' : CacheEntry.State) : Prop :=
  s' = s ∨ (s ≠ CacheEntry.DECIDE ∧ s' = CacheEntry.DECIDE).
Definition byRetry (s s' : CacheEntry.State) : Prop :=
  s' = s ∨ s' = CacheEntry.PENDING.

(** The state of an entry did not move backwards. *)
Definition Forward (e e' : CacheEntry) : Prop :=
  CacheEntry.rank (e_state e) ≤ CacheEntry.rank (e_state e').

(** [t'] differs from [t] in the commit cache and the cursor at most. *)
Definition sameControl (t t' : Task) : Prop :=
  set_nextCacheEntry (nextCacheEntry t) (set_commitCache (commitCache t) t') = t.

(** No entry of the cache has reached [DECIDE]. *)
Definition NoDecide (t : Task) : Prop :=
  Forall (λ ke : CacheKey * CacheEntry, e_state ke.2 ≠ CacheEntry.DECIDE)
    (commitCache t).

Definition isDecided (d : TxDecision.Decision) : Prop :=
  d = TxDecision.COMMIT ∨ d = TxDecision.ABORT.

(** What a retry of the operations [ops] does to the entry at position
    [k]. *)
Definition retried (ops : list nat) (k : nat) (ke : CacheKey * CacheEntry)
  : CacheKey * CacheEntry :=
  if decide (k ∈ ops) then (ke.1, set_e_state CacheEntry.PENDING ke.2) else ke.

(** The participant record of a cache entry. *)
Definition participantOf (ke : CacheKey * CacheEntry) : TxParticipant :=
  mkTxParticipant (tableId ke.1) (keyHash ke.1) (e_rpcId ke.2).

(** The entries of [c] stamped with the ids [id + i], [id + i + 1], ... in
    [uint64_t] arithmetic. *)
Fixpoint stamp (id i : Z) (c : list (CacheKey * CacheEntry))
  : list (CacheKey * CacheEntry) :=
  match c with
  | [] => []
  | ke :: c' =>
      (ke.1, set_e_rpcId (u64 (id + i)) ke.2) :: stamp id (u64 (i + 1)) c'
  end.

(** A request that respects the capacity [max] and whose operations are
    entries of the cache that the object finder places on the session the
    request was opened on; [keys] are the keys of the commit cache. *)
Definition BatchOk (lookup : ObjectFinder → Z → Z → Session)
    (finder : ObjectFinder) (keys : list CacheKey) (max : nat)
    (session : option Session) (count : nat) (ops : list nat) : Prop :=
  count ≤ max ∧ length ops = count
  ∧ ∃ s, session = Some s
         ∧ Forall (λ op, ∃ key, keys !! op = Some key
                          ∧ getServiceLocator
                              (lookup finder (tableId key) (keyHash key))
                            = getServiceLocator s) ops.

(** [a] is not behind [b] in the order of the cache keys. *)
Definition CacheKey_le (a b : CacheKey) : Prop := CacheKey_ltb b a = false.

(** The cache is in [CacheKey] order, as the iteration of the multimap is. *)
Definition InKeyOrder (c : list (CacheKey * CacheEntry)) : Prop :=
  StronglySorted CacheKey_le c.*1.

(** The ids released to the tracker. *)
Definition finishedIds (w : World) : list Z :=
  tr_finished (rpcTracker (ramcloud w)).

(** Until the decision phase begins no entry has reached [DECIDE]. *)
Definition PrepareInv (w : World) : Prop :=
  state (task w) = INIT ∨ state (task w) = PREPARE → NoDecide (task w).

(** From the decision phase on the decision is made; a task that is done
    without an error went through the decision phase. *)
Definition DecisionInv (w : World) : Prop :=
  (state (task w) = DECISION → isDecided (decision (task w)))
  ∧ (state (task w) = DONE → status (task w) = STATUS_OK →
     isDecided (decision (task w))).

(** The id of the task is released when and only when the task is done. *)
Definition TrackerInv (w : World) : Prop :=
  (state (task w) = DONE → finishedIds w = [txId (task w)])
  ∧ (state (task w) ≠ DONE → finishedIds w = []).
(** The operations [ops] of a request built by one call of a batcher that
    moved the cursor from [lo] to [hi] and the cache from [c0] to [c']:
    positions of the cache in increasing order, within the entries the
    cursor passed, each of an entry that was not in the state [target]
    before the call and is in it afterwards, otherwise unchanged. *)
Definition OpsBuilt (target : CacheEntry.State)
    (c0 c' : list (CacheKey * CacheEntry)) (lo hi : nat) (ops : list nat)
  : Prop :=
  StronglySorted lt ops
  ∧ Forall (λ op, lo ≤ op < hi
                  ∧ ∃ key e, c0 !! op = Some (key, e)
                             ∧ e_state e ≠ target
                             ∧ c' !! op = Some (key, set_e_state target e))
      ops.

(** The operation that [PrepareRpc::appendOp] puts on the wire for an
    entry; none for an unknown type. *)
Definition prepareOpOf (ke : CacheKey * CacheEntry) : option PrepareOp :=
  match e_type ke.2 with
  | CacheEntry.READ => Some (ReadOp (tableId ke.1) (e_rpcId ke.2))
  | CacheEntry.REMOVE => Some (RemoveOp (tableId ke.1) (e_rpcId ke.2))
  | CacheEntry.WRITE => Some (WriteOp (tableId ke.1) (e_rpcId ke.2))
  | CacheEntry.INVALID => None
  end.

(** What one call of [sendPrepareRpc] on the task [t0] has put into the
    request [rpc] when the task has become [t]. *)
Definition PrepareBuilt (t0 t : Task) (rpc : PrepareRpc) : Prop :=
  p_participants rpc = participantList t0
  ∧ p_participantCount rpc = participantCount t0
  ∧ p_lease rpc = lease t0
  ∧ p_state rpc = NOT_STARTED
  ∧ length (p_ops rpc) = p_opCount rpc
  ∧ OpsBuilt CacheEntry.PREPARE (commitCache t0) (commitCache t)
      (nextCacheEntry t0) (nextCacheEntry t) (p_ops rpc)
  ∧ Forall2 (λ op o, ∃ ke, commitCache t0 !! op = Some ke
                           ∧ prepareOpOf ke = Some o)
      (p_ops rpc) (p_request rpc).

(** The same for [sendDecisionRpc]. *)
Definition DecisionBuilt (t0 t : Task) (rpc : DecisionRpc) : Prop :=
  d_decision rpc = decision t0
  ∧ d_leaseId rpc = leaseId (lease t0)
  ∧ d_state rpc = NOT_STARTED
  ∧ length (d_ops rpc) = d_participantCount rpc
  ∧ OpsBuilt CacheEntry.DECIDE (commitCache t0) (commitCache t)
      (nextCacheEntry t0) (nextCacheEntry t) (d_ops rpc)
  ∧ Forall2 (λ op p, ∃ ke, commitCache t0 !! op = Some ke
                           ∧ participantOf ke = p)
      (d_ops rpc) (d_request rpc).

(** The statuses that end a task with an error: those that the bodies of
    [processPrepareRpcs] and [processDecisionRpcs] throw. *)
Definition fatal (st : Status) : Prop :=
  st ≠ STATUS_OK ∧ st ≠ STATUS_UNKNOWN_TABLET.

(** The states of the task in the order in which [performTask] goes
    through them. *)
Definition taskRank (s : TaskState) : nat :=
  match s with INIT => 0 | PREPARE => 1 | DECISION => 2 | DONE => 3 end.

(** What the state of the task says about its pipelines, about the
    requests sent so far and about its status. *)
Definition PhaseInv (w : World) : Prop :=
  (state (task w) = INIT →
   prepareRpcs (task w) = [] ∧ decisionRpcs (task w) = []
   ∧ sentPrepares (ramcloud w) = [] ∧ sentDecisions (ramcloud w) = []
   ∧ participantList (task w) = [] ∧ participantCount (task w) = 0)
  ∧ (state (task w) = PREPARE →
     decisionRpcs (task w) = [] ∧ sentDecisions (ramcloud w) = [])
  ∧ (state (task w) = DECISION → prepareRpcs (task w) = [])
  ∧ (state (task w) = DONE →
     prepareRpcs (task w) = [] ∧ decisionRpcs (task w) = [])
  ∧ (state (task w) ≠ DONE → status (task w) = STATUS_OK)
  ∧ status (task w) ≠ STATUS_UNKNOWN_TABLET.

(** How far the batchers have come: the cursor is within the cache, the
    entries behind it have been put into requests of the current phase,
    and a task that is done without an error has put every entry into a
    decision request. *)
Definition CursorInv (w : World) : Prop :=
  (state (task w) ≠ INIT →
   nextCacheEntry (task w) ≤ length (commitCache (task w)))
  ∧ (state (task w) = PREPARE →
     ∀ i key e, i < nextCacheEntry (task w) →
                commitCache (task w) !! i = Some (key, e) →
                e_type e ≠ CacheEntry.INVALID →
                e_state e = CacheEntry.PREPARE)
  ∧ (state (task w) = DECISION →
     ∀ i key e, i < nextCacheEntry (task w) →
                commitCache (task w) !! i = Some (key, e) →
                e_state e = CacheEntry.DECIDE)
  ∧ (state (task w) = DONE → status (task w) = STATUS_OK →
     ∀ i key e, commitCache (task w) !! i = Some (key, e) →
                e_state e = CacheEntry.DECIDE).

(** Two entries with the same operation: type, object and reject rules. *)
Definition sameData (e e' : CacheEntry) : Prop :=
  e_type e' = e_type e ∧ e_objectBuf e' = e_objectBuf e
  ∧ e_rejectRules e' = e_rejectRules e.

(** A prepare request as the task with participant list [pl], participant
    count [pc], lease [l] and commit cache [c] sends it. *)
Definition PrepareSent (pl : list TxParticipant) (pc : nat) (l : Lease)
    (c : list (CacheKey * CacheEntry)) (rpc : PrepareRpc) : Prop :=
  p_participants rpc = pl ∧ p_participantCount rpc = pc ∧ p_lease rpc = l
  ∧ p_state rpc = IN_PROGRESS
  ∧ length (p_ops rpc) = p_opCount rpc
  ∧ Forall2 (λ op o, ∃ ke, c !! op = Some ke ∧ prepareOpOf ke = Some o)
      (p_ops rpc) (p_request rpc).

(** A decision request as the task with decision [d], lease [l] and
    commit cache [c] sends it. *)
Definition DecisionSent (d : TxDecision.Decision) (l : Lease)
    (c : list (CacheKey * CacheEntry)) (rpc : DecisionRpc) : Prop :=
  d_decision rpc = d ∧ isDecided d ∧ d_leaseId rpc = leaseId l
  ∧ d_state rpc = IN_PROGRESS
  ∧ length (d_ops rpc) = d_participantCount rpc
  ∧ Forall2 (λ op p, ∃ ke, c !! op = Some ke ∧ participantOf ke = p)
      (d_ops rpc) (d_request rpc).

(** After [initTask] the participant list is the list of the entries of
    the commit cache; every request ever sent agrees with the task. *)
Definition SentInv (w : World) : Prop :=
  (state (task w) ≠ INIT →
   participantList (task w) = participantOf <$> commitCache (task w)
   ∧ participantCount (task w) = length (commitCache (task w)))
  ∧ (state (task w) = DECISION → isDecided (decision (task w)))
  ∧ Forall (PrepareSent (participantList (task w)) (participantCount (task w))
              (lease (task w)) (commitCache (task w)))
      (sentPrepares (ramcloud w))
  ∧ Forall (DecisionSent (decision (task w)) (lease (task w))
              (commitCache (task w)))
      (sentDecisions (ramcloud w)).

(** A server has voted to abort and the vote has not been lost: the
    decision is [ABORT], or the response with the vote is still in the
    pipeline, or the task has ended with an error. *)
Definition AbortSeen (w : World) : Prop :=
  decision (task w) = TxDecision.ABORT
  ∨ (∃ rpc, rpc ∈ prepareRpcs (task w) ∧ p_state rpc = FINISHED
            ∧ p_status rpc = STATUS_OK ∧ p_vote rpc = TxPrepare.ABORT)
  ∨ (state (task w) = DONE ∧ status (task w) ≠ STATUS_OK).

(** Every entry that a phase has dealt with is an operation of a request
    of that phase that has been sent. *)
Definition CoverInv (w : World) : Prop :=
  (state (task w) = INIT ∨ state (task w) = PREPARE →
   ∀ i key e, commitCache (task w) !! i = Some (key, e) →
              e_state e = CacheEntry.PREPARE →
              Exists (λ rpc, i ∈ p_ops rpc) (sentPrepares (ramcloud w)))
  ∧ (state (task w) = DECISION
     ∨ (state (task w) = DONE ∧ status (task w) = STATUS_OK) →
     ∀ i key e, commitCache (task w) !! i = Some (key, e) →
                e_type e ≠ CacheEntry.INVALID →
                Exists (λ rpc, i ∈ p_ops rpc) (sentPrepares (ramcloud w)))
  ∧ (∀ i key e, commitCache (task w) !! i = Some (key, e) →
                e_state e = CacheEntry.DECIDE →
                Exists (λ rpc, i ∈ d_ops rpc) (sentDecisions (ramcloud w))).

(** The entry holds the object with the key [key]: what [findCacheEntry]
    compares. *)
Definition storesKey (key : Key) (ke : CacheKey * CacheEntry) : Prop :=
  ∃ buf, e_objectBuf ke.2 = Some buf ∧ key = mkKey (tableId ke.1) (ob_key buf).

(** Every entry that holds an object is filed under the hash of the key
    of its object, as [insertCacheEntry] files it. *)
Definition Hashed (hash : Z → string → Z)
    (c : list (CacheKey * CacheEntry)) : Prop :=
  Forall (λ ke, ∀ buf, e_objectBuf ke.2 = Some buf →
                       keyHash ke.1 = hash (tableId ke.1) (ob_key buf)) c.

(** [i] is the position of the first entry of [c] that holds [key]. *)
Definition firstStoring (key : Key) (c : list (CacheKey * CacheEntry))
    (i : nat) : Prop :=
  (∃ ke, c !! i = Some ke ∧ storesKey key ke)
  ∧ ∀ j ke, j < i → c !! j = Some ke → ¬ storesKey key ke.

End Vocabulary.

(** ** A client with two masters

    The concrete client used for the examples: table 1 lives on the master
    [m1], every other table on [m2], a request carries two objects at most,
    and a flush leaves the routes as they are. *)
Module Demo.
Definition lookup (_ : unit) (table keyHash : Z) : Session :=
  mkSession (if (table =? 1)%Z then "tcp:host=m1" else "tcp:host=m2").
Definition flush (f : unit) (_ : Z) : unit := f.
Definition MAX_OBJECTS_PER_RPC : nat := 2.

Definition client : RamCloud (ObjectFinder:=unit) :=
  mkRamCloud () (mkLease 7 100) (mkRpcTracker 40 0 []) [] [] [].

Definition entry (ty : CacheEntry.Type_) : CacheEntry (RejectRules:=unit) :=
  mkCacheEntry ty (Some (mkObjectBuffer "a" "x")) () 0 CacheEntry.PENDING.

(** The client with a task staged on the given cache. *)
Definition staged (c : list (CacheKey * CacheEntry (RejectRules:=unit)))
  : World (RejectRules:=unit) (ObjectFinder:=unit) :=
  mkWorld client (set_commitCache c newTask).

(** [it++] on the past-the-end iterator lands on [begin()], as it does
    with libstdc++; the examples that depend on it say so. *)
Definition wrap : bool := true.

Definition performTask :=
  performTask (RejectRules:=unit) lookup MAX_OBJECTS_PER_RPC
    MAX_OBJECTS_PER_RPC wrap.
Definition exec :=
  exec (RejectRules:=unit) lookup flush MAX_OBJECTS_PER_RPC
    MAX_OBJECTS_PER_RPC wrap.
Definition run :=
  run (RejectRules:=unit) lookup flush MAX_OBJECTS_PER_RPC
    MAX_OBJECTS_PER_RPC wrap.
Definition Reachable :=
  Reachable (RejectRules:=unit) lookup flush MAX_OBJECTS_PER_RPC
    MAX_OBJECTS_PER_RPC wrap.

(** The world that a run ends in. *)
Definition after (acts : list Action) (w : World) : World :=
  default w (run acts w).

(** One write on table 1. *)
Definition oneWrite := staged [(mkCacheKey 1 5, entry CacheEntry.WRITE)].

(** A write on table 1 and a write and a read on table 2. *)
Definition threeOps :=
  staged [(mkCacheKey 1 5, entry CacheEntry.WRITE);
          (mkCacheKey 2 5, entry CacheEntry.WRITE);
          (mkCacheKey 2 6, entry CacheEntry.READ)].

(** The prepare request of [oneWrite] is in flight. *)
Definition preparing : list Action := [PerformTask].

(** The master has voted [v] on it. *)
Definition voted (v : TxPrepare.Vote) : list Action :=
  preparing ++ [Deliver (PrepareResponse 0 STATUS_OK v)].

(** The decision request of [oneWrite] is in flight. *)
Definition deciding : list Action :=
  voted TxPrepare.COMMIT ++ [PerformTask].

(** The commit of [oneWrite] from start to end. *)
Definition committing : list Action :=
  deciding ++ [Deliver (DecisionResponse 0 STATUS_OK); PerformTask].

(** The decision request of [oneWrite] is answered with an error. *)
Definition failingDecision : list Action :=
  deciding
  ++ [Deliver (DecisionResponse 0 STATUS_OBJECT_DOESNT_EXIST); PerformTask].

(** Both prepare requests of [threeOps] are in flight and both have been
    answered before the next call of [performTask]. *)
Definition twoVotes : list Action :=
  [PerformTask; PerformTask;
   Deliver (PrepareResponse 0 STATUS_OK TxPrepare.COMMIT);
   Deliver (PrepareResponse 1 STATUS_OK TxPrepare.COMMIT)].

(** Both decision requests of [threeOps] are in flight and both have been
    answered before the next call of [performTask]. *)
Definition twoAcks : list Action :=
  twoVotes
  ++ [PerformTask; PerformTask; PerformTask;
      Deliver (DecisionResponse 0 STATUS_OK);
      Deliver (DecisionResponse 1 STATUS_OK)].
(** The prepare request of [oneWrite] has been answered with the vote
    [v]. *)
Definition answered (v : TxPrepare.Vote) := after (voted v) oneWrite.

(** The decision request of [oneWrite] is in flight, and then has been
    answered. *)
Definition decisionInFlight := after deciding oneWrite.
Definition acked :=
  after (deciding ++ [Deliver (DecisionResponse 0 STATUS_OK)]) oneWrite.

(** [oneWrite] after its commit. *)
Definition committed := after committing oneWrite.

(** A hash for the keys of the examples: the length of the key. *)
Definition hash (table : Z) (key : string) : Z :=
  Z.of_nat (String.length key).

(** A task staged by [insertCacheEntry]: the keys "a" and "b" of table 1
    have the same hash. *)
Definition inserted : Task (RejectRules:=unit) :=
  (insertCacheEntry () hash 1 "b" "y"
     (insertCacheEntry () hash 1 "a" "x" newTask).2).2.
(** The prepare request and the decision request of [oneWrite] as they
    are sent. *)
Definition sentPrepare : PrepareRpc :=
  mkPrepareRpc (Some (mkSession "tcp:host=m1")) [0] (mkLease 7 100) 1 1 0
    [mkTxParticipant 1 5 40] [WriteOp 1 40] IN_PROGRESS STATUS_OK
    TxPrepare.COMMIT.
Definition sentDecision : DecisionRpc :=
  mkDecisionRpc (Some (mkSession "tcp:host=m1")) [0] TxDecision.COMMIT 7 1
    [mkTxParticipant 1 5 40] IN_PROGRESS STATUS_OK.

(** The entry of [oneWrite] once [initTask] has given it an id. *)
Definition written (s : CacheEntry.State) : CacheEntry (RejectRules:=unit) :=
  mkCacheEntry CacheEntry.WRITE (Some (mkObjectBuffer "a" "x")) () 40 s.

(** What follows a vote to abort: the decision is sent and acknowledged. *)
Definition aborting : list Action :=
  [PerformTask; Deliver (DecisionResponse 0 STATUS_OK); PerformTask].
(** Four writes on table 1, all on one master; with
    [MAX_OBJECTS_PER_RPC = 2] they go out in two requests. *)
Definition fourWrites :=
  staged [(mkCacheKey 1 5, entry CacheEntry.WRITE);
          (mkCacheKey 1 6, entry CacheEntry.WRITE);
          (mkCacheKey 1 7, entry CacheEntry.WRITE);
          (mkCacheKey 1 8, entry CacheEntry.WRITE)].

(** Both prepare requests of [fourWrites] are in flight. *)
Definition bothPrepared := after [PerformTask; PerformTask] fourWrites.

(** Both have been answered with the vote [COMMIT], one after the other,
    and both decision requests of [fourWrites] are in flight. *)
Definition bothDecided :=
  after [PerformTask; PerformTask;
         Deliver (PrepareResponse 0 STATUS_OK TxPrepare.COMMIT); PerformTask;
         Deliver (PrepareResponse 0 STATUS_OK TxPrepare.COMMIT); PerformTask;
         PerformTask]
    fourWrites.

(** The first prepare request and the first decision request of
    [fourWrites], with the operations 0 and 1. *)
Definition firstPrepare : PrepareRpc :=
  mkPrepareRpc (Some (mkSession "tcp:host=m1")) [0; 1] (mkLease 7 100) 4 2 0
    [mkTxParticipant 1 5 40; mkTxParticipant 1 6 41;
     mkTxParticipant 1 7 42; mkTxParticipant 1 8 43]
    [WriteOp 1 40; WriteOp 1 41] IN_PROGRESS STATUS_OK TxPrepare.COMMIT.
Definition firstDecision : DecisionRpc :=
  mkDecisionRpc (Some (mkSession "tcp:host=m1")) [0; 1] TxDecision.COMMIT 7 2
    [mkTxParticipant 1 5 40; mkTxParticipant 1 6 41] IN_PROGRESS STATUS_OK.

(** The entries of [fourWrites] once [initTask] has given them ids. *)
Definition writtenAs (id : Z) (s : CacheEntry.State)
  : CacheEntry (RejectRules:=unit) :=
  mkCacheEntry CacheEntry.WRITE (Some (mkObjectBuffer "a" "x")) () id s.



End Demo.

(** * Properties *)

(** ** The drain loop *)

Section DrainFacts.
Context {R St : Type}.
Variable wrap : bool.
Variable isReady : R → bool.
Variable body : R → St → Outcome St.

Lemma increment_le n it : it ≤ n → increment wrap n it ≤ n.
Proof.
  unfold increment. intros Hit.
  destruct (it <? n) eqn:E.
  - apply Nat.ltb_lt in E. lia.
  - destruct wrap; lia.
Qed.

(** The loop ends within [drainFuel] iterations. *)
Lemma drainLoop_total fuel it rpcs s :
  drainFuel (length rpcs) it ≤ fuel →
  is_Some (drainLoop wrap isReady body fuel it rpcs s).
Proof.
  revert it rpcs s. induction fuel as [|fuel IH]; intros it rpcs s Hf.
  - unfold drainFuel in Hf. lia.
  - simpl. destruct (rpcs !! it) as [rpc|] eqn:Hl; [|eauto].
    pose proof (lookup_lt_Some _ _ _ Hl) as Hlt.
    destruct (isReady rpc).
    + destruct (body rpc s) as [s'|e s']; [|eauto].
      apply IH. rewrite length_delete by eauto.
      unfold drainFuel in *.
      destruct (length rpcs) as [|n]; [lia|].
      replace (S n - 1) with n by lia. nia.
    + apply IH. unfold drainFuel in *. lia.
Qed.

Lemma drain_eq rpcs s :
  drainLoop wrap isReady body (drainFuel (length rpcs) 0) 0 rpcs s
  = Some (drain wrap isReady body rpcs s).
Proof.
  unfold drain.
  destruct (drainLoop_total (drainFuel (length rpcs) 0) 0 rpcs s) as [o Ho];
    [done|].
  by rewrite Ho.
Qed.

(** A property of the threaded state that every body keeps is kept by the
    loop, whether it returns or throws. *)
Lemma drainLoop_state_inv (P : St → Prop) :
  (∀ rpc s, P s → P (payload (body rpc s))) →
  ∀ fuel it rpcs s o,
    drainLoop wrap isReady body fuel it rpcs s = Some o →
    P s → P (payload o).2.
Proof.
  intros Hbody. induction fuel as [|fuel IH]; intros it rpcs s o Hrun Hs;
    [discriminate|].
  simpl in Hrun. destruct (rpcs !! it) as [rpc|].
  - destruct (isReady rpc).
    + specialize (Hbody rpc s Hs).
      destruct (body rpc s) as [s'|e s']; simpl in Hbody.
      * eapply IH; eauto.
      * by inversion Hrun.
    + eapply IH; eauto.
  - by inversion Hrun.
Qed.

Lemma drain_state_inv (P : St → Prop) rpcs s :
  (∀ rpc s, P s → P (payload (body rpc s))) →
  P s → P (payload (drain wrap isReady body rpcs s)).2.
Proof.
  intros Hbody Hs.
  eapply drainLoop_state_inv; [exact Hbody|apply drain_eq|exact Hs].
Qed.

(** A status thrown by the loop was thrown by the body on a ready
    request of the list. *)
Lemma drainLoop_thrown fuel it rpcs s e x :
  drainLoop wrap isReady body fuel it rpcs s = Some (Thrown e x) →
  ∃ rpc s0 s1, rpc ∈ rpcs ∧ isReady rpc = true ∧ body rpc s0 = Thrown e s1.
Proof.
  revert it rpcs s. induction fuel as [|fuel IH]; intros it rpcs s Hrun;
    [discriminate|].
  simpl in Hrun. destruct (rpcs !! it) as [rpc|] eqn:Hl; [|discriminate].
  destruct (isReady rpc) eqn:Hr.
  - destruct (body rpc s) as [s'|e' s'] eqn:Hb.
    + destruct (IH _ _ _ Hrun) as (rpc' & s0 & s1 & Hin & Hr' & Hb').
      exists rpc', s0, s1. split; [|done].
      eapply elem_of_submseteq; [exact Hin|apply sublist_submseteq, sublist_delete].
    + inversion Hrun; subst. exists rpc, s, s'.
      split; [by eapply list_elem_of_lookup_2|done].
  - eauto.
Qed.

Lemma drain_thrown rpcs s e x :
  drain wrap isReady body rpcs s = Thrown e x →
  ∃ rpc s0 s1, rpc ∈ rpcs ∧ isReady rpc = true ∧ body rpc s0 = Thrown e s1.
Proof.
  intros Hd. eapply drainLoop_thrown. rewrite drain_eq, Hd. done.
Qed.

(** What is left in the list was in it, in the same order. *)
Lemma drainLoop_sublist fuel it rpcs s o :
  drainLoop wrap isReady body fuel it rpcs s = Some o →
  sublist (payload o).1 rpcs.
Proof.
  revert it rpcs s. induction fuel as [|fuel IH]; intros it rpcs s Hrun;
    [discriminate|].
  simpl in Hrun. destruct (rpcs !! it) as [rpc|] eqn:Hl.
  - destruct (isReady rpc).
    + destruct (body rpc s) as [s'|e' s'].
      * etrans; [eapply IH; eauto|apply sublist_delete].
      * by inversion Hrun.
    + eauto.
  - by inversion Hrun.
Qed.
End DrainFacts.

(** ** The commit cache under the batchers and the retry path *)

Section Properties.
Context {RejectRules : Type} {ObjectFinder : Type}.
Variable objectFinder_lookup : ObjectFinder → Z → Z → Session.
Variable objectFinder_flush : ObjectFinder → Z → ObjectFinder.
Variable PrepareRpc_MAX_OBJECTS_PER_RPC : nat.
Variable DecisionRpc_MAX_OBJECTS_PER_RPC : nat.
Variable wrap : bool.
Abbreviation CacheEntry := (CacheEntry (RejectRules:=RejectRules)).
Abbreviation Task := (Task (RejectRules:=RejectRules)).
Abbreviation World :=
  (World (RejectRules:=RejectRules) (ObjectFinder:=ObjectFinder)).
Implicit Types (t : Task) (w : World) (e : CacheEntry)
  (c : list (CacheKey * CacheEntry)).

(** Unfolds the field updates of the task and of the world. *)
Ltac unfold_updates :=
  unfold enterDecision, set_entry_state, advance, set_state, set_status,
    set_decision, set_prepareRpcs, set_decisionRpcs, set_commitCache,
    set_nextCacheEntry, on_task, on_ramcloud in *;
  simpl in *.

Lemma set_e_state_same e : set_e_state (e_state e) e = e.
Proof. by destruct e. Qed.

Lemma CacheRel_refl (R : CacheEntry → CacheEntry → Prop) c :
  (∀ e, R e e) → CacheRel R c c.
Proof.
  intros HR. apply Forall2_same_length_lookup_2; [done|].
  intros i x y Hx Hy. simplify_eq. eauto.
Qed.

Lemma CacheRel_trans (R1 R2 R3 : CacheEntry → CacheEntry → Prop) c1 c2 c3 :
  (∀ e1 e2 e3, R1 e1 e2 → R2 e2 e3 → R3 e1 e3) →
  CacheRel R1 c1 c2 → CacheRel R2 c2 c3 → CacheRel R3 c1 c3.
Proof.
  intros HR H12. revert c3.
  induction H12 as [|x y c1 c2 [Hk Hxy] _ IH]; intros c3 H23;
    inversion H23 as [|? z ? c3' [Hk' Hyz] H23']; subst.
  - constructor.
  - constructor; [|by apply IH]. split; [congruence|eauto].
Qed.

Lemma CacheRel_impl (R1 R2 : CacheEntry → CacheEntry → Prop) c c' :
  (∀ e e', R1 e e' → R2 e e') → CacheRel R1 c c' → CacheRel R2 c c'.
Proof.
  intros HR H. eapply Forall2_impl; [exact H|]. intros x y [? ?]. eauto.
Qed.

Lemma CacheRel_length (R : CacheEntry → CacheEntry → Prop) c c' :
  CacheRel R c c' → length c' = length c.
Proof. intros H. symmetry. by eapply Forall2_length. Qed.

Lemma CacheRel_lookup (R : CacheEntry → CacheEntry → Prop) c c' i key e :
  CacheRel R c c' → c !! i = Some (key, e) →
  ∃ e', c' !! i = Some (key, e') ∧ R e e'.
Proof.
  intros H Hl. destruct (Forall2_lookup_l _ _ _ _ _ H Hl) as ([k' e'] & Hl' & Hk & HR).
  simpl in *. subst. eauto.
Qed.

Lemma CacheRel_keys (R : CacheEntry → CacheEntry → Prop) c c' :
  CacheRel R c c' → c'.*1 = c.*1.
Proof.
  induction 1 as [|x y ? ? [Hk _] _ IH]; [done|]. simpl. f_equal; done.
Qed.

(** Writing the state of one entry. *)
Lemma CacheRel_set_entry_state (S : CacheEntry.State → CacheEntry.State → Prop)
    i s t :
  (∀ s0, S s0 s0) →
  (∀ key e, commitCache t !! i = Some (key, e) → S (e_state e) s) →
  CacheRel (EntryStep S) (commitCache t) (commitCache (set_entry_state i s t)).
Proof.
  intros Hrefl Hi. simpl.
  apply Forall2_same_length_lookup_2; [by rewrite length_alter|].
  intros j [k e] [k' e'] Hx Hy. simpl.
  destruct (decide (i = j)) as [->|Hne].
  - rewrite list_lookup_alter_eq, Hx in Hy. simpl in Hy. simplify_eq.
    split; [done|]. split; [done|]. simpl. eauto.
  - rewrite list_lookup_alter_ne, Hx in Hy by done. simplify_eq.
    split; [done|]. split; [by rewrite set_e_state_same|apply Hrefl].
Qed.

Lemma sameControl_refl t : sameControl t t.
Proof. by destruct t. Qed.

Lemma sameControl_trans t1 t2 t3 :
  sameControl t1 t2 → sameControl t2 t3 → sameControl t1 t3.
Proof.
  unfold sameControl. destruct t1, t2, t3. intros H1 H2.
  unfold_updates. congruence.
Qed.

Lemma sameControl_set_entry_state i s t : sameControl t (set_entry_state i s t).
Proof. by destruct t. Qed.

Lemma sameControl_advance t : sameControl t (advance t).
Proof. by destruct t. Qed.

Lemma sameControl_fields t t' :
  sameControl t t' →
  state t' = state t ∧ status t' = status t ∧ decision t' = decision t
  ∧ txId t' = txId t ∧ lease t' = lease t
  ∧ prepareRpcs t' = prepareRpcs t ∧ decisionRpcs t' = decisionRpcs t
  ∧ participantCount t' = participantCount t
  ∧ participantList t' = participantList t.
Proof.
  unfold sameControl. destruct t, t'. intros H. unfold_updates.
  repeat split; congruence.
Qed.

Lemma EntryStep_refl (S : CacheEntry.State → CacheEntry.State → Prop) e :
  (∀ s, S s s) → EntryStep S e e.
Proof. intros H. split; [by rewrite set_e_state_same|apply H]. Qed.

Lemma EntryStep_trans (S : CacheEntry.State → CacheEntry.State → Prop) e1 e2 e3 :
  (∀ s1 s2 s3, S s1 s2 → S s2 s3 → S s1 s3) →
  EntryStep S e1 e2 → EntryStep S e2 e3 → EntryStep S e1 e3.
Proof.
  intros HS [H12 S12] [H23 S23]. split; [|eauto].
  rewrite H23, H12. by destruct e1.
Qed.

Lemma byPrepare_trans s1 s2 s3 :
  byPrepare s1 s2 → byPrepare s2 s3 → byPrepare s1 s3.
Proof. unfold byPrepare. intros [-> | [? ->]] [-> | [? ->]]; auto. Qed.

Lemma byDecision_trans s1 s2 s3 :
  byDecision s1 s2 → byDecision s2 s3 → byDecision s1 s3.
Proof. unfold byDecision. intros [-> | [? ->]] [-> | [? ->]]; auto. Qed.

Lemma byRetry_trans s1 s2 s3 : byRetry s1 s2 → byRetry s2 s3 → byRetry s1 s3.
Proof. unfold byRetry. intros [-> | ->] [-> | ->]; auto. Qed.

(** [PrepareRpc::appendOp] writes [PREPARE] into the entry or, for an
    unknown type, nothing. *)
Lemma PrepareRpc_appendOp_task i rpc t key e :
  commitCache t !! i = Some (key, e) →
  (PrepareRpc_appendOp i rpc t).2 = t
  ∨ (PrepareRpc_appendOp i rpc t).2 = set_entry_state i CacheEntry.PREPARE t.
Proof.
  intros Hl. unfold PrepareRpc_appendOp. rewrite Hl.
  destruct (e_type e); simpl; auto.
Qed.

Lemma DecisionRpc_appendOp_task i rpc t key e :
  commitCache t !! i = Some (key, e) →
  (DecisionRpc_appendOp i rpc t).2 = set_entry_state i CacheEntry.DECIDE t.
Proof. intros Hl. unfold DecisionRpc_appendOp. by rewrite Hl. Qed.

(** The loop of [sendPrepareRpc] touches the cache and the cursor only, and
    in the cache it moves entries that are not [PREPARE] to [PREPARE]. *)
Lemma sendPrepareLoop_task n finder t cur :
  let t' := (sendPrepareLoop objectFinder_lookup PrepareRpc_MAX_OBJECTS_PER_RPC
               n finder t cur).1 in
  sameControl t t'
  ∧ CacheRel (EntryStep byPrepare) (commitCache t) (commitCache t').
Proof.
  revert t cur. induction n as [|n IH]; intros t cur; simpl.
  { split; [apply sameControl_refl|].
    apply CacheRel_refl. intros e. apply EntryStep_refl. by left. }
  destruct (commitCache t !! nextCacheEntry t) as [[key e]|] eqn:Hl; simpl.
  2:{ split; [apply sameControl_refl|].
      apply CacheRel_refl. intros e. apply EntryStep_refl. by left. }
  destruct (decide (e_state e = CacheEntry.PREPARE)) as [Hp|Hp].
  { destruct (IH (advance t) cur) as [Hc Hr]. split; [|exact Hr].
    eapply sameControl_trans; [apply sameControl_advance|exact Hc]. }
  set (c := match cur with Some c => c | None => _ end).
  destruct c as [rpcSession nextRpc].
  destruct (sameLocator _ rpcSession && _); simpl.
  2:{ split; [apply sameControl_refl|].
      apply CacheRel_refl. intros e0. apply EntryStep_refl. by left. }
  destruct (PrepareRpc_appendOp (nextCacheEntry t) nextRpc t) as [rpc' t'] eqn:Ha.
  pose proof (PrepareRpc_appendOp_task (nextCacheEntry t) nextRpc t key e Hl) as Ht.
  rewrite Ha in Ht. simpl in Ht.
  destruct (IH (advance t') (Some (rpcSession, rpc'))) as [Hc Hr].
  assert (sameControl t t' ∧ CacheRel (EntryStep byPrepare) (commitCache t)
            (commitCache t')) as [Hc0 Hr0].
  { destruct Ht as [-> | ->].
    - split; [apply sameControl_refl|].
      apply CacheRel_refl. intros e0. apply EntryStep_refl. by left.
    - split; [apply sameControl_set_entry_state|].
      apply CacheRel_set_entry_state; [by left|].
      intros key0 e0 Hl0. rewrite Hl in Hl0. simplify_eq. by right. }
  split.
  - eapply sameControl_trans; [exact Hc0|].
    eapply sameControl_trans; [apply sameControl_advance|exact Hc].
  - eapply CacheRel_trans; [|exact Hr0|exact Hr].
    intros e1 e2 e3. apply EntryStep_trans, byPrepare_trans.
Qed.

(** The loop of [sendDecisionRpc] likewise moves entries to [DECIDE]. *)
Lemma sendDecisionLoop_task n finder t cur :
  let t' := (sendDecisionLoop objectFinder_lookup
               DecisionRpc_MAX_OBJECTS_PER_RPC n finder t cur).1 in
  sameControl t t'
  ∧ CacheRel (EntryStep byDecision) (commitCache t) (commitCache t').
Proof.
  revert t cur. induction n as [|n IH]; intros t cur; simpl.
  { split; [apply sameControl_refl|].
    apply CacheRel_refl. intros e. apply EntryStep_refl. by left. }
  destruct (commitCache t !! nextCacheEntry t) as [[key e]|] eqn:Hl; simpl.
  2:{ split; [apply sameControl_refl|].
      apply CacheRel_refl. intros e. apply EntryStep_refl. by left. }
  destruct (decide (e_state e = CacheEntry.DECIDE)) as [Hp|Hp].
  { destruct (IH (advance t) cur) as [Hc Hr]. split; [|exact Hr].
    eapply sameControl_trans; [apply sameControl_advance|exact Hc]. }
  set (c := match cur with Some c => c | None => _ end).
  destruct c as [rpcSession nextRpc].
  destruct (sameLocator _ rpcSession && _); simpl.
  2:{ split; [apply sameControl_refl|].
      apply CacheRel_refl. intros e0. apply EntryStep_refl. by left. }
  destruct (DecisionRpc_appendOp (nextCacheEntry t) nextRpc t) as [rpc' t'] eqn:Ha.
  pose proof (DecisionRpc_appendOp_task (nextCacheEntry t) nextRpc t key e Hl) as Ht.
  rewrite Ha in Ht. simpl in Ht. subst t'.
  destruct (IH (advance (set_entry_state (nextCacheEntry t) CacheEntry.DECIDE t))
              (Some (rpcSession, rpc'))) as [Hc Hr].
  split.
  - eapply sameControl_trans; [apply sameControl_set_entry_state|].
    eapply sameControl_trans; [apply sameControl_advance|exact Hc].
  - eapply CacheRel_trans; [| |exact Hr].
    + intros e1 e2 e3. apply EntryStep_trans, byDecision_trans.
    + apply CacheRel_set_entry_state; [by left|].
      intros key0 e0 Hl0. rewrite Hl in Hl0. simplify_eq. by right.
Qed.

(** The keys of the cache do not move when the state of an entry is
    written. *)
Lemma set_entry_state_keys i s t :
  (commitCache (set_entry_state i s t)).*1 = (commitCache t).*1.
Proof.
  simpl. apply list_eq. intros j. rewrite !list_lookup_fmap.
  destruct (decide (i = j)) as [->|Hne].
  - rewrite list_lookup_alter_eq. by destruct (commitCache t !! j).
  - by rewrite list_lookup_alter_ne.
Qed.

(** The tables flushed by a retry of the operations [ops]. *)
Definition retriedTables (c : list (CacheKey * CacheEntry)) (ops : list nat)
  : list Z :=
  omap (λ op, tableId <$> c.*1 !! op) ops.

Lemma retried_in ops k (ke : CacheKey * CacheEntry) :
  k ∈ ops → retried ops k ke = (ke.1, set_e_state CacheEntry.PENDING ke.2).
Proof. intros H. unfold retried. by rewrite decide_True. Qed.

Lemma retried_not_in ops k (ke : CacheKey * CacheEntry) :
  k ∉ ops → retried ops k ke = ke.
Proof. intros H. unfold retried. by rewrite decide_False. Qed.

Lemma retried_cons op ops k (ke : CacheKey * CacheEntry) :
  retried (op :: ops) k ke
  = if decide (op = k) then (ke.1, set_e_state CacheEntry.PENDING ke.2)
    else retried ops k ke.
Proof.
  destruct (decide (op = k)) as [->|Hne].
  - apply retried_in. by left.
  - destruct (decide (k ∈ ops)) as [Hin|Hin].
    + rewrite !retried_in; [done..|]. by right.
    + rewrite !retried_not_in; [done..|].
      intros [?|?]%elem_of_cons; congruence.
Qed.

Lemma retried_pending ops k (ke : CacheKey * CacheEntry) :
  retried ops k (ke.1, set_e_state CacheEntry.PENDING ke.2)
  = (ke.1, set_e_state CacheEntry.PENDING ke.2).
Proof. unfold retried. by destruct (decide (k ∈ ops)). Qed.

(** The loop of [retryRequest]: the entries listed in [ops] are set to
    [PENDING], their tables are flushed in turn, and nothing else changes. *)
Lemma retryLoop_spec ops w :
  let w' := retryLoop objectFinder_flush ops w in
  task w' = set_commitCache (commitCache (task w')) (task w)
  ∧ (∀ k, commitCache (task w') !! k
          = retried ops k <$> commitCache (task w) !! k)
  ∧ objectFinder (ramcloud w')
    = foldl objectFinder_flush (objectFinder (ramcloud w))
        (retriedTables (commitCache (task w)) ops)
  ∧ clientLease (ramcloud w') = clientLease (ramcloud w)
  ∧ rpcTracker (ramcloud w') = rpcTracker (ramcloud w)
  ∧ flushedSessions (ramcloud w') = flushedSessions (ramcloud w)
  ∧ sentPrepares (ramcloud w') = sentPrepares (ramcloud w)
  ∧ sentDecisions (ramcloud w') = sentDecisions (ramcloud w).
Proof.
  revert w. induction ops as [|op ops IH]; intros w.
  { simpl. split; [by destruct w as [? []]|]. split; [|done].
    intros k. by destruct (commitCache (task w) !! k) as [ke|]. }
  cbn [retryLoop]. unfold retriedTables. cbn [omap list_omap].
  rewrite list_lookup_fmap.
  destruct (commitCache (task w) !! op) as [[key e]|] eqn:Hl.
  - match goal with |- context [retryLoop _ ops ?w1] => set (w1' := w1) end.
    destruct (IH w1') as (Ht & Hc & Hf & H1 & H2 & H3 & H4 & H5).
    assert (Hkeys : (commitCache (task w1')).*1 = (commitCache (task w)).*1)
      by apply set_entry_state_keys.
    split; [|split; [|split]].
    + rewrite Ht. by destruct w as [? []].
    + intros k. rewrite Hc. subst w1'. unfold_updates.
      destruct (decide (op = k)) as [->|Hne].
      * rewrite list_lookup_alter_eq, Hl. simpl.
        rewrite retried_cons, decide_True by done.
        f_equal. apply (retried_pending ops k (key, e)).
      * rewrite list_lookup_alter_ne by done.
        destruct (commitCache (task w) !! k) as [ke|]; [|done]. simpl.
        by rewrite retried_cons, decide_False.
    + rewrite Hf. unfold retriedTables. rewrite Hkeys. by subst w1'.
    + subst w1'. simpl in *. by rewrite H1, H2, H3, H4, H5.
  - destruct (IH w) as (Ht & Hc & Hf & Hrest).
    split; [done|]. split; [|split; [|done]].
    + intros k. rewrite Hc.
      destruct (commitCache (task w) !! k) as [ke|] eqn:Hk; [|done]. simpl.
      rewrite retried_cons, decide_False; [done|]. congruence.
    + by rewrite Hf.
Qed.

(** ** initTask *)

Lemma u64_add_u64 (x y z : Z) : u64 (x + (u64 y + z)) = u64 (x + (y + z)).
Proof.
  unfold u64.
  replace (x + (y mod 2 ^ 64 + z))%Z with (y mod 2 ^ 64 + (x + z))%Z by lia.
  rewrite Z.add_mod_idemp_l by lia. f_equal. lia.
Qed.

Lemma stamp_length id i c : length (stamp id i c) = length c.
Proof. revert i. induction c as [|ke c IH]; intros i; simpl; [done|]. by rewrite IH. Qed.

Lemma stamp_lookup id i c k :
  stamp id i c !! k
  = (λ ke, (ke.1, set_e_rpcId (u64 (id + (i + Z.of_nat k))) ke.2)) <$> c !! k.
Proof.
  revert i k. induction c as [|ke c IH]; intros i k; [done|].
  destruct k as [|k]; simpl.
  - by rewrite Z.add_0_r.
  - rewrite IH. destruct (c !! k) as [ke'|]; [|done]. simpl.
    rewrite u64_add_u64. do 4 f_equal. lia.
Qed.

(** The loop of [initTask] in closed form: the [n] entries from the cursor
    on are stamped and listed, the rest is left alone. *)
Lemma initLoop_spec n i t :
  let c := nextCacheEntry t in
  let S := take n (drop c (commitCache t)) in
  initLoop n i t
  = mkTask (participantCount t + length S)
      (participantList t ++ (participantOf <$> stamp (txId t) i S))
      (state t) (status t) (decision t) (lease t) (txId t) (prepareRpcs t)
      (decisionRpcs t)
      (take c (commitCache t) ++ stamp (txId t) i S
         ++ drop (c + length S) (commitCache t))
      (c + length S).
Proof.
  revert i t. induction n as [|n IH]; intros i t; simpl.
  { rewrite !Nat.add_0_r, app_nil_r, take_drop. by destruct t. }
  destruct (commitCache t !! nextCacheEntry t) as [[key e]|] eqn:Hl.
  - rewrite IH. simpl.
    pose proof (lookup_lt_Some _ _ _ Hl) as Hlt.
    rewrite (drop_S _ _ _ Hl). simpl.
    rewrite drop_insert_lt by lia.
    rewrite (take_S_r _ _ (key, set_e_rpcId (u64 (txId t + i)) e))
      by (by apply list_lookup_insert_eq).
    rewrite take_insert_ge by lia.
    rewrite drop_insert_lt by lia.
    rewrite <- !app_assoc. simpl.
    rewrite <- !Nat.add_succ_comm. done.
  - apply lookup_ge_None_1 in Hl.
    rewrite (drop_ge _ _ Hl). simpl.
    rewrite !Nat.add_0_r, app_nil_r, take_drop. by destruct t.
Qed.

(** [initTask] in closed form. *)
Lemma initTask_spec w :
  let rc := ramcloud w in
  let t := task w in
  let id := tr_nextRpcId (rpcTracker rc) in
  let n := length (commitCache t) in
  initTask w
  = mkWorld
      (mkRamCloud (objectFinder rc) (clientLease rc)
         (mkRpcTracker (u64 (id + Z.of_nat n)) (tr_ackId (rpcTracker rc))
            (tr_finished (rpcTracker rc)))
         (flushedSessions rc) (sentPrepares rc) (sentDecisions rc))
      (mkTask (participantCount t + n)
         (participantList t ++ (participantOf <$> stamp id 0 (commitCache t)))
         (state t) (status t) (decision t) (clientLease rc) id (prepareRpcs t)
         (decisionRpcs t) (stamp id 0 (commitCache t)) n).
Proof.
  unfold initTask. simpl. rewrite initLoop_spec. simpl.
  rewrite drop_0, take_ge by done.
  rewrite drop_all, app_nil_r. done.
Qed.

Lemma u64_offset_inj (id x y : Z) :
  (0 ≤ x < 2 ^ 64)%Z → (0 ≤ y < 2 ^ 64)%Z →
  u64 (id + x) = u64 (id + y) → x = y.
Proof.
  unfold u64. intros Hx Hy Heq.
  assert (((id + x) - (id + y)) mod 2 ^ 64 = 0)%Z as Hm.
  { rewrite Zminus_mod, Heq, Z.sub_diag. done. }
  apply Z.mod_divide in Hm; [|lia]. destruct Hm as [q Hq]. nia.
Qed.

Lemma u64_small (x : Z) : (0 ≤ x < 2 ^ 64)%Z → u64 x = x.
Proof. intros H. unfold u64. by apply Z.mod_small. Qed.

(** C8: after [initTask] on the cache of a freshly staged task, the entry at
    position [i] of the cache (the cache is kept in [CacheKey] order) has
    [rpcId = txId + i] in [uint64_t] arithmetic, the participant list holds
    the record (tableId, keyHash, rpcId) of every entry in the same order,
    [participantCount] is the number of entries, and the ids are pairwise
    distinct; when the range does not wrap around, [rpcId] is [txId + i]
    as an integer. *)
Theorem initTask_assigns_rpcIds w :
  Fresh (task w) →
  (Z.of_nat (length (commitCache (task w))) ≤ 2 ^ 64)%Z →
  let t' := task (initTask w) in
  let n := length (commitCache (task w)) in
  txId t' = tr_nextRpcId (rpcTracker (ramcloud w))
  ∧ length (commitCache t') = n
  ∧ (∀ i key e,
       commitCache (task w) !! i = Some (key, e) →
       commitCache t' !! i
       = Some (key, set_e_rpcId (u64 (txId t' + Z.of_nat i)) e))
  ∧ participantList t' = participantOf <$> commitCache t'
  ∧ length (participantList t') = n
  ∧ participantCount t' = n
  ∧ NoDup ((λ ke, e_rpcId ke.2) <$> commitCache t')
  ∧ ((0 ≤ txId t')%Z → (txId t' + Z.of_nat n ≤ 2 ^ 64)%Z →
     ∀ i key e, commitCache t' !! i = Some (key, e) →
                e_rpcId e = (txId t' + Z.of_nat i)%Z).
Proof.
  intros (Hpc & Hpl & _) Hn. rewrite initTask_spec. simpl.
  rewrite Hpc, Hpl. simpl.
  set (id := tr_nextRpcId (rpcTracker (ramcloud w))).
  set (c := commitCache (task w)) in *.
  assert (Hlook : ∀ i, stamp id 0 c !! i
                       = (λ ke, (ke.1, set_e_rpcId (u64 (id + Z.of_nat i)) ke.2))
                           <$> c !! i).
  { intros i. rewrite stamp_lookup. by rewrite Z.add_0_l. }
  repeat split.
  - apply stamp_length.
  - intros i key e Hl. by rewrite Hlook, Hl.
  - by rewrite length_fmap, stamp_length.
  - apply NoDup_alt. intros i j x. rewrite !list_lookup_fmap, !Hlook.
    destruct (c !! i) as [ke1|] eqn:H1; [|done].
    destruct (c !! j) as [ke2|] eqn:H2; [|done]. simpl.
    intros ? ?. simplify_eq.
    apply lookup_lt_Some in H1, H2.
    assert (Z.of_nat i = Z.of_nat j); [|lia].
    eapply (u64_offset_inj id); [lia..|congruence].
  - intros Hid Hfit i key e. rewrite Hlook.
    destruct (c !! i) as [ke|] eqn:H1; [|done]. simpl. intros ?. simplify_eq.
    apply lookup_lt_Some in H1. simpl. apply u64_small. lia.
Qed.

(** ** The pipelines under processPrepareRpcs and processDecisionRpcs *)

Lemma processPrepareRpc_decision rpc d :
  payload (processPrepareRpc rpc d) = d
  ∨ payload (processPrepareRpc rpc d) = TxDecision.ABORT.
Proof. unfold processPrepareRpc. repeat case_decide; simpl; auto. Qed.

Lemma processPrepareRpc_thrown rpc d (st : Status) d' :
  processPrepareRpc rpc d = Thrown st d' →
  st = p_status rpc ∧ st ≠ STATUS_OK ∧ st ≠ STATUS_UNKNOWN_TABLET.
Proof.
  unfold processPrepareRpc. repeat case_decide; intros Heq; by simplify_eq.
Qed.

Lemma processDecisionRpc_thrown rpc u (st : Status) u' :
  processDecisionRpc rpc u = Thrown st u' →
  st = d_status rpc ∧ st ≠ STATUS_OK ∧ st ≠ STATUS_UNKNOWN_TABLET.
Proof.
  unfold processDecisionRpc. repeat case_decide; intros Heq; by simplify_eq.
Qed.

(** [processPrepareRpcs] changes the pipeline and the decision only: what
    stays in the pipeline was in it, and the decision is kept or becomes
    [ABORT]. *)
Lemma processPrepareRpcs_payload t :
  ∃ rpcs d,
    payload (processPrepareRpcs wrap t) = set_decision d (set_prepareRpcs rpcs t)
    ∧ sublist rpcs (prepareRpcs t)
    ∧ (d = decision t ∨ d = TxDecision.ABORT).
Proof.
  unfold processPrepareRpcs.
  pose proof (drain_eq wrap (λ rpc, RpcState_isReady (p_state rpc))
                processPrepareRpc (prepareRpcs t) (decision t)) as Heq.
  pose proof (drainLoop_sublist _ _ _ _ _ _ _ _ Heq) as Hsub.
  pose proof (drain_state_inv wrap (λ rpc, RpcState_isReady (p_state rpc))
                processPrepareRpc
                (λ d, d = decision t ∨ d = TxDecision.ABORT)
                (prepareRpcs t) (decision t)) as Hd.
  destruct (drain _ _ _ _ _) as [[rpcs d]|e [rpcs d]]; simpl in *;
    exists rpcs, d; (split; [done|]); (split; [done|]); apply Hd; auto;
    intros rpc s Hs;
    destruct (processPrepareRpc_decision rpc s) as [-> | ->]; auto.
Qed.

Lemma processPrepareRpcs_thrown t (st : Status) t' :
  processPrepareRpcs wrap t = Thrown st t' → st ≠ STATUS_OK.
Proof.
  unfold processPrepareRpcs.
  destruct (drain _ _ _ _ _) as [[rpcs d]|e0 [rpcs d]] eqn:Hd; [done|].
  intros ?; simplify_eq.
  destruct (drain_thrown _ _ _ _ _ _ _ Hd) as (rpc & s0 & s1 & _ & _ & Hb).
  by apply processPrepareRpc_thrown in Hb as (_ & ? & _).
Qed.

Lemma processDecisionRpcs_payload t :
  ∃ rpcs,
    payload (processDecisionRpcs wrap t) = set_decisionRpcs rpcs t
    ∧ sublist rpcs (decisionRpcs t).
Proof.
  unfold processDecisionRpcs.
  pose proof (drain_eq wrap (λ rpc, RpcState_isReady (d_state rpc))
                processDecisionRpc (decisionRpcs t) ()) as Heq.
  pose proof (drainLoop_sublist _ _ _ _ _ _ _ _ Heq) as Hsub.
  destruct (drain _ _ _ _ _) as [[rpcs d]|e [rpcs d]]; simpl in *;
    by exists rpcs.
Qed.

Lemma processDecisionRpcs_thrown t (st : Status) t' :
  processDecisionRpcs wrap t = Thrown st t' → st ≠ STATUS_OK.
Proof.
  unfold processDecisionRpcs.
  destruct (drain _ _ _ _ _) as [[rpcs d]|e0 [rpcs d]] eqn:Hd; [done|].
  intros ?; simplify_eq.
  destruct (drain_thrown _ _ _ _ _ _ _ Hd) as (rpc & s0 & s1 & _ & _ & Hb).
  by apply processDecisionRpc_thrown in Hb as (_ & ? & _).
Qed.

(** ** The blocks of performTask *)

Lemma sendPrepareRpc_frame w :
  let w' := sendPrepareRpc objectFinder_lookup PrepareRpc_MAX_OBJECTS_PER_RPC w in
  state (task w') = state (task w) ∧ status (task w') = status (task w)
  ∧ decision (task w') = decision (task w) ∧ txId (task w') = txId (task w)
  ∧ decisionRpcs (task w') = decisionRpcs (task w)
  ∧ rpcTracker (ramcloud w') = rpcTracker (ramcloud w)
  ∧ sentDecisions (ramcloud w') = sentDecisions (ramcloud w)
  ∧ CacheRel (EntryStep byPrepare) (commitCache (task w)) (commitCache (task w')).
Proof.
  unfold sendPrepareRpc.
  pose proof (sendPrepareLoop_task
                (length (commitCache (task w)) - nextCacheEntry (task w))
                (objectFinder (ramcloud w)) (task w) None) as [Hc Hr].
  destruct (sendPrepareLoop _ _ _ _ _ _) as [t' [[s rpc]|]]; simpl in *;
    apply sameControl_fields in Hc as (? & ? & ? & ? & ? & ? & ? & ? & ?);
    by repeat split.
Qed.

Lemma sendDecisionRpc_frame w :
  let w' := sendDecisionRpc objectFinder_lookup DecisionRpc_MAX_OBJECTS_PER_RPC w in
  state (task w') = state (task w) ∧ status (task w') = status (task w)
  ∧ decision (task w') = decision (task w) ∧ txId (task w') = txId (task w)
  ∧ prepareRpcs (task w') = prepareRpcs (task w)
  ∧ rpcTracker (ramcloud w') = rpcTracker (ramcloud w)
  ∧ sentPrepares (ramcloud w') = sentPrepares (ramcloud w)
  ∧ CacheRel (EntryStep byDecision) (commitCache (task w)) (commitCache (task w')).
Proof.
  unfold sendDecisionRpc.
  pose proof (sendDecisionLoop_task
                (length (commitCache (task w)) - nextCacheEntry (task w))
                (objectFinder (ramcloud w)) (task w) None) as [Hc Hr].
  destruct (sendDecisionLoop _ _ _ _ _ _) as [t' [[s rpc]|]]; simpl in *;
    apply sameControl_fields in Hc as (? & ? & ? & ? & ? & ? & ? & ? & ?);
    by repeat split.
Qed.

Lemma initBlock_other w : state (task w) ≠ INIT → initBlock w = w.
Proof. intros H. unfold initBlock. by rewrite decide_False. Qed.

Lemma initBlock_spec w :
  state (task w) = INIT →
  let w' := initBlock w in
  state (task w') = PREPARE ∧ status (task w') = status (task w)
  ∧ decision (task w') = decision (task w)
  ∧ prepareRpcs (task w') = prepareRpcs (task w)
  ∧ decisionRpcs (task w') = decisionRpcs (task w)
  ∧ finishedIds w' = finishedIds w
  ∧ sentPrepares (ramcloud w') = sentPrepares (ramcloud w)
  ∧ sentDecisions (ramcloud w') = sentDecisions (ramcloud w)
  ∧ CacheRel (λ e e', e_state e' = e_state e)
      (commitCache (task w)) (commitCache (task w')).
Proof.
  intros H. unfold initBlock. rewrite decide_True by done.
  rewrite initTask_spec. simpl. repeat split.
  apply Forall2_same_length_lookup_2; [by rewrite stamp_length|].
  intros i [k e] [k' e'] Hx Hy. rewrite stamp_lookup, Hx in Hy.
  simpl in Hy. by simplify_eq.
Qed.

Lemma prepareBlock_other w :
  state (task w) ≠ PREPARE →
  prepareBlock objectFinder_lookup PrepareRpc_MAX_OBJECTS_PER_RPC wrap w
  = Normal w.
Proof. intros H. unfold prepareBlock. by rewrite decide_False. Qed.

Lemma prepareBlock_spec w :
  state (task w) = PREPARE →
  let o := prepareBlock objectFinder_lookup PrepareRpc_MAX_OBJECTS_PER_RPC
             wrap w in
  let w' := payload o in
  status (task w') = status (task w) ∧ txId (task w') = txId (task w)
  ∧ rpcTracker (ramcloud w') = rpcTracker (ramcloud w)
  ∧ (decision (task w) = TxDecision.ABORT →
     decision (task w') = TxDecision.ABORT)
  ∧ CacheRel (EntryStep byPrepare) (commitCache (task w)) (commitCache (task w'))
  ∧ match o with
    | Thrown st _ => st ≠ STATUS_OK ∧ state (task w') = PREPARE
    | Normal _ =>
        state (task w') = PREPARE
        ∨ (state (task w') = DECISION ∧ isDecided (decision (task w')))
    end.
Proof.
  intros Hs. unfold prepareBlock. rewrite decide_True by done.
  destruct (processPrepareRpcs_payload (task w)) as (rpcs & d & Hp & _ & Hd).
  destruct (processPrepareRpcs wrap (task w)) as [t1|st t1] eqn:Hproc;
    simpl in Hp; subst t1.
  - match goal with |- context [sendPrepareRpc _ _ ?w1] => set (w1' := w1) end.
    destruct (sendPrepareRpc_frame w1')
      as (F1 & F2 & F3 & F4 & F5 & F6 & F7 & F8).
    set (w2 := sendPrepareRpc _ _ w1') in *. subst w1'.
    destruct (isEmpty (prepareRpcs (task w2)) && atEnd (task w2));
      unfold_updates; rewrite ?F1, ?F2, ?F3, ?F4, ?F6;
      (repeat split; try done).
    + intros Ha. case_decide; [done|]. destruct Hd; congruence.
    + right. split; [done|]. unfold isDecided. case_decide; auto.
    + intros Ha. destruct Hd; congruence.
    + by left.
  - simpl. unfold_updates. repeat split; try done.
    + intros Ha. destruct Hd; congruence.
    + apply CacheRel_refl. intros e. apply EntryStep_refl. by left.
    + by eapply processPrepareRpcs_thrown.
Qed.

Lemma decisionBlock_other w :
  state (task w) ≠ DECISION →
  decisionBlock objectFinder_lookup DecisionRpc_MAX_OBJECTS_PER_RPC wrap w
  = Normal w.
Proof. intros H. unfold decisionBlock. by rewrite decide_False. Qed.

Lemma decisionBlock_spec w :
  state (task w) = DECISION →
  let o := decisionBlock objectFinder_lookup DecisionRpc_MAX_OBJECTS_PER_RPC
             wrap w in
  let w' := payload o in
  status (task w') = status (task w) ∧ txId (task w') = txId (task w)
  ∧ decision (task w') = decision (task w)
  ∧ CacheRel (EntryStep byDecision) (commitCache (task w)) (commitCache (task w'))
  ∧ match o with
    | Thrown st _ =>
        st ≠ STATUS_OK ∧ state (task w') = DECISION
        ∧ rpcTracker (ramcloud w') = rpcTracker (ramcloud w)
    | Normal _ =>
        (state (task w') = DECISION
         ∧ rpcTracker (ramcloud w') = rpcTracker (ramcloud w))
        ∨ (state (task w') = DONE
           ∧ finishedIds w' = finishedIds w ++ [txId (task w')])
    end.
Proof.
  intros Hs. unfold decisionBlock. rewrite decide_True by done.
  destruct (processDecisionRpcs_payload (task w)) as (rpcs & Hp & _).
  destruct (processDecisionRpcs wrap (task w)) as [t1|st t1] eqn:Hproc;
    simpl in Hp; subst t1.
  - match goal with |- context [sendDecisionRpc _ _ ?w1] => set (w1' := w1) end.
    destruct (sendDecisionRpc_frame w1')
      as (F1 & F2 & F3 & F4 & F5 & F6 & F7 & F8).
    set (w2 := sendDecisionRpc _ _ w1') in *. subst w1'.
    destruct (isEmpty (decisionRpcs (task w2)) && atEnd (task w2));
      unfold finishedIds; unfold_updates; rewrite ?F1, ?F2, ?F3, ?F4, ?F6;
      (repeat split; try done).
    + right. by split.
    + by left.
  - simpl. unfold_updates. repeat split; try done.
    + apply CacheRel_refl. intros e. apply EntryStep_refl. by left.
    + by eapply processDecisionRpcs_thrown.
Qed.

(** ** The retry path *)

Lemma retryLoop_CacheRel ops w :
  CacheRel (EntryStep byRetry) (commitCache (task w))
    (commitCache (task (retryLoop objectFinder_flush ops w))).
Proof.
  destruct (retryLoop_spec ops w) as (_ & Hc & _).
  apply Forall2_same_length_lookup_2.
  - apply Nat.le_antisymm.
    + apply lookup_ge_None.
      pose proof (Hc (length (commitCache (task (retryLoop objectFinder_flush ops w)))))
        as Hk.
      rewrite lookup_ge_None_2 in Hk by done.
      symmetry in Hk. by apply fmap_None in Hk.
    + apply lookup_ge_None. rewrite Hc.
      by rewrite lookup_ge_None_2.
  - intros i [k e] [k' e'] Hx Hy. rewrite Hc, Hx in Hy. simpl in Hy.
    unfold retried in Hy. case_decide; simplify_eq; simpl.
    + split; [done|]. split; [done|]. by right.
    + split; [done|]. apply EntryStep_refl. by left.
Qed.

(** Every retry leaves the task and the client alone except for the cache,
    the cursor and the object finder. *)
Lemma retryRequest_frame ops w :
  let w' := on_task (set_nextCacheEntry 0) (retryLoop objectFinder_flush ops w) in
  state (task w') = state (task w) ∧ status (task w') = status (task w)
  ∧ decision (task w') = decision (task w) ∧ txId (task w') = txId (task w)
  ∧ prepareRpcs (task w') = prepareRpcs (task w)
  ∧ decisionRpcs (task w') = decisionRpcs (task w)
  ∧ rpcTracker (ramcloud w') = rpcTracker (ramcloud w)
  ∧ sentPrepares (ramcloud w') = sentPrepares (ramcloud w)
  ∧ sentDecisions (ramcloud w') = sentDecisions (ramcloud w)
  ∧ nextCacheEntry (task w') = 0
  ∧ CacheRel (EntryStep byRetry) (commitCache (task w)) (commitCache (task w')).
Proof.
  pose proof (retryLoop_CacheRel ops w) as Hr.
  destruct (retryLoop_spec ops w) as (Ht & _ & _ & _ & H2 & _ & H4 & H5).
  simpl. rewrite Ht. unfold_updates. by repeat split.
Qed.

Lemma deliver_frame ev w w' :
  deliver objectFinder_flush ev w = Some w' →
  state (task w') = state (task w) ∧ status (task w') = status (task w)
  ∧ decision (task w') = decision (task w) ∧ txId (task w') = txId (task w)
  ∧ rpcTracker (ramcloud w') = rpcTracker (ramcloud w)
  ∧ sentPrepares (ramcloud w') = sentPrepares (ramcloud w)
  ∧ sentDecisions (ramcloud w') = sentDecisions (ramcloud w)
  ∧ CacheRel (EntryStep byRetry) (commitCache (task w)) (commitCache (task w')).
Proof.
  assert (Hrefl : CacheRel (EntryStep byRetry) (commitCache (task w))
                    (commitCache (task w))).
  { apply CacheRel_refl. intros e. apply EntryStep_refl. by left. }
  destruct ev as [j|j st v|j|j st]; simpl;
    [destruct (prepareRpcs (task w) !! j) as [rpc|] eqn:Hj
    |destruct (prepareRpcs (task w) !! j) as [rpc|] eqn:Hj
    |destruct (decisionRpcs (task w) !! j) as [rpc|] eqn:Hj
    |destruct (decisionRpcs (task w) !! j) as [rpc|] eqn:Hj];
    simpl; try done; case_decide; try done; intros ?; simplify_eq.
  - unfold PrepareRpc_handleTransportError. unfold_updates.
    destruct (<[j:=_]> (prepareRpcs (task w)) !! j) as [rpc'|]; [|done].
    unfold PrepareRpc_retryRequest.
    match goal with |- context [retryLoop _ ?ops ?w1] =>
      destruct (retryRequest_frame ops w1)
        as (? & ? & ? & ? & ? & ? & ? & ? & ? & ? & ?) end.
    unfold_updates. destruct (p_session rpc'); simpl in *; by repeat split.
  - unfold PrepareRpc_checkStatus. case_decide; [|done].
    unfold PrepareRpc_retryRequest.
    match goal with |- context [retryLoop _ ?ops ?w1] =>
      destruct (retryRequest_frame ops w1)
        as (? & ? & ? & ? & ? & ? & ? & ? & ? & ? & ?) end.
    unfold_updates. by repeat split.
  - unfold DecisionRpc_handleTransportError. unfold_updates.
    destruct (<[j:=_]> (decisionRpcs (task w)) !! j) as [rpc'|]; [|done].
    unfold DecisionRpc_retryRequest.
    match goal with |- context [retryLoop _ ?ops ?w1] =>
      destruct (retryRequest_frame ops w1)
        as (? & ? & ? & ? & ? & ? & ? & ? & ? & ? & ?) end.
    unfold_updates. destruct (d_session rpc'); simpl in *; by repeat split.
  - unfold DecisionRpc_checkStatus. case_decide; [|done].
    unfold DecisionRpc_retryRequest.
    match goal with |- context [retryLoop _ ?ops ?w1] =>
      destruct (retryRequest_frame ops w1)
        as (? & ? & ? & ? & ? & ? & ? & ? & ? & ? & ?) end.
    unfold_updates. by repeat split.
Qed.

(** ** performTask as the sequence of its blocks *)

Section PerformTaskRel.
Variable Rel : World → World → Prop.
Hypothesis Rel_refl : ∀ w, Rel w w.
Hypothesis Rel_trans : ∀ w1 w2 w3, Rel w1 w2 → Rel w2 w3 → Rel w1 w3.
Hypothesis Rel_init : ∀ w, state (task w) = INIT → Rel w (initBlock w).
Hypothesis Rel_prepare : ∀ w,
  state (task w) = PREPARE →
  Rel w (payload (prepareBlock objectFinder_lookup
                    PrepareRpc_MAX_OBJECTS_PER_RPC wrap w)).
Hypothesis Rel_decision : ∀ w,
  state (task w) = DECISION →
  Rel w (payload (decisionBlock objectFinder_lookup
                    DecisionRpc_MAX_OBJECTS_PER_RPC wrap w)).
Hypothesis Rel_catch : ∀ (st : Status) w,
  st ≠ STATUS_OK →
  state (task w) = PREPARE ∨ state (task w) = DECISION →
  Rel w (catchClientException st w).

Lemma decision_part_rel w :
  Rel w match decisionBlock objectFinder_lookup
                DecisionRpc_MAX_OBJECTS_PER_RPC wrap w with
        | Normal w' => w'
        | Thrown st w' => catchClientException st w'
        end.
Proof.
  destruct (decide (state (task w) = DECISION)) as [Hs|Hs].
  - pose proof (Rel_decision w Hs) as Hd.
    pose proof (decisionBlock_spec w Hs) as (_ & _ & _ & _ & Hm).
    destruct (decisionBlock _ _ _ w) as [w'|st w']; simpl in *; [done|].
    destruct Hm as (? & ? & _). eapply Rel_trans; [exact Hd|].
    apply Rel_catch; auto.
  - by rewrite decisionBlock_other.
Qed.

(** A relation between worlds that every block and the [catch] clause
    establish, and that composes, holds across [performTask]. *)
Lemma performTask_rel w :
  Rel w (performTask objectFinder_lookup PrepareRpc_MAX_OBJECTS_PER_RPC
           DecisionRpc_MAX_OBJECTS_PER_RPC wrap w).
Proof.
  unfold performTask, tryBlock.
  assert (Rel w (initBlock w)) as H1.
  { destruct (decide (state (task w) = INIT)) as [Hs|Hs]; [by apply Rel_init|].
    by rewrite initBlock_other. }
  eapply Rel_trans; [exact H1|]. clear H1.
  generalize (initBlock w). clear w. intros w.
  destruct (decide (state (task w) = PREPARE)) as [Hs|Hs].
  - pose proof (Rel_prepare w Hs) as Hp.
    pose proof (prepareBlock_spec w Hs) as (_ & _ & _ & _ & _ & Hm).
    destruct (prepareBlock _ _ _ w) as [w'|st w']; simpl in *.
    + eapply Rel_trans; [exact Hp|]. apply decision_part_rel.
    + destruct Hm as [? ?]. eapply Rel_trans; [exact Hp|].
      apply Rel_catch; auto.
  - rewrite prepareBlock_other by done. simpl. apply decision_part_rel.
Qed.
End PerformTaskRel.

Lemma performTask_DONE w :
  state (task w) = DONE →
  performTask objectFinder_lookup PrepareRpc_MAX_OBJECTS_PER_RPC
    DecisionRpc_MAX_OBJECTS_PER_RPC wrap w = w.
Proof.
  intros Hs. unfold performTask, tryBlock.
  rewrite initBlock_other, prepareBlock_other by congruence. simpl.
  rewrite decisionBlock_other by congruence. done.
Qed.

(** ** The decision *)

Abbreviation performTask' :=
  (performTask objectFinder_lookup PrepareRpc_MAX_OBJECTS_PER_RPC
     DecisionRpc_MAX_OBJECTS_PER_RPC wrap).
Abbreviation exec' :=
  (exec objectFinder_lookup objectFinder_flush PrepareRpc_MAX_OBJECTS_PER_RPC
     DecisionRpc_MAX_OBJECTS_PER_RPC wrap).
Abbreviation Reachable' :=
  (Reachable objectFinder_lookup objectFinder_flush
     PrepareRpc_MAX_OBJECTS_PER_RPC DecisionRpc_MAX_OBJECTS_PER_RPC wrap).



Lemma performTask_DecisionInv w : DecisionInv w → DecisionInv (performTask' w).
Proof.
  apply (performTask_rel (λ w w', DecisionInv w → DecisionInv w')); clear w.
  - done.
  - auto.
  - intros w Hs _. destruct (initBlock_spec w Hs) as (Hs' & _).
    split; rewrite Hs'; done.
  - intros w Hs _. destruct (prepareBlock_spec w Hs) as (_ & _ & _ & _ & _ & Hm).
    destruct (prepareBlock _ _ _ w) as [w'|st w']; simpl in *.
    + destruct Hm as [Hp|[Hd ?]]; split; rewrite ?Hp, ?Hd; done.
    + destruct Hm as [_ Hp]. split; rewrite Hp; done.
  - intros w Hs [Hi _]. specialize (Hi Hs).
    destruct (decisionBlock_spec w Hs) as (_ & _ & Hd & _).
    split; rewrite Hd; done.
  - intros st w Hst _ _. split; simpl; [done|]. intros _ ?. done.
Qed.

Lemma Reachable_DecisionInv w : Reachable' w → DecisionInv w.
Proof.
  induction 1 as [w (Hf & _)|w a w' _ IH Hstep].
  - destruct Hf as (_ & _ & Hs & _). split; rewrite Hs; done.
  - destruct a as [|ev]; simpl in Hstep.
    + simplify_eq. by apply performTask_DecisionInv.
    + apply deliver_frame in Hstep as (Hs & Hst & Hd & _).
      destruct IH as [I1 I2]. split; rewrite Hs, ?Hst, Hd; done.
Qed.

(** C2, as the code has it: a run that ends in [DONE] with status
    [STATUS_OK] has a decision of [COMMIT] or [ABORT]. *)
Theorem done_ok_is_decided w :
  Reachable' w →
  state (task w) = DONE → status (task w) = STATUS_OK →
  isDecided (decision (task w)).
Proof. intros Hr. by destruct (Reachable_DecisionInv w Hr). Qed.

(** ** The RPC tracker *)

Lemma performTask_TrackerInv w : TrackerInv w → TrackerInv (performTask' w).
Proof.
  apply (performTask_rel (λ w w', TrackerInv w → TrackerInv w')); clear w.
  - done.
  - auto.
  - intros w Hs [_ Hi]. destruct (initBlock_spec w Hs) as (Hs' & _ & _ & _ & _ & Hf & _).
    split; rewrite Hs', Hf; [done|]. intros _. apply Hi. congruence.
  - intros w Hs [_ Hi].
    destruct (prepareBlock_spec w Hs) as (_ & _ & Ht & _ & _ & Hm).
    assert (state (task (payload (prepareBlock objectFinder_lookup
              PrepareRpc_MAX_OBJECTS_PER_RPC wrap w))) ≠ DONE) as Hnd.
    { destruct (prepareBlock _ _ _ w) as [w'|st w']; simpl in *;
        [destruct Hm as [Hp|[Hd ?]]|destruct Hm as [_ Hp]]; congruence. }
    split; [done|]. intros _. unfold finishedIds. rewrite Ht.
    apply Hi. congruence.
  - intros w Hs [_ Hi].
    destruct (decisionBlock_spec w Hs) as (_ & Hid & _ & _ & Hm).
    assert (finishedIds w = []) as Hnil by (apply Hi; congruence).
    destruct (decisionBlock _ _ _ w) as [w'|st w']; simpl in *.
    + destruct Hm as [[Hd Ht]|[Hd Hf]].
      * split; [congruence|]. intros _. unfold finishedIds. by rewrite Ht.
      * split; [|done]. intros _. by rewrite Hf, Hnil.
    + destruct Hm as (_ & Hd & Ht).
      split; [congruence|]. intros _. unfold finishedIds. by rewrite Ht.
  - intros st w _ Hs [_ Hi]. split; [|done]. intros _.
    unfold finishedIds in *. simpl. rewrite Hi by (destruct Hs; congruence).
    done.
Qed.

Lemma Reachable_TrackerInv w : Reachable' w → TrackerInv w.
Proof.
  induction 1 as [w (Hf & Hfin & _)|w a w' _ IH Hstep].
  - destruct Hf as (_ & _ & Hs & _). split; [congruence|done].
  - destruct a as [|ev]; simpl in Hstep.
    + simplify_eq. by apply performTask_TrackerInv.
    + apply deliver_frame in Hstep as (Hs & _ & _ & Hid & Ht & _).
      destruct IH as [I1 I2]. unfold TrackerInv, finishedIds in *.
      rewrite Hs, Hid, Ht. done.
Qed.

(** C7: in every run the id of the task has been released to the tracker
    exactly once when the task is [DONE] and not at all before; and when the
    [try] block of [performTask] throws, the call ends with both pipelines
    cleared, the thrown status recorded, the id released and the task
    [DONE]. *)
Theorem rpcFinished_once_on_DONE w :
  Reachable' w →
  (state (task w) = DONE → finishedIds w = [txId (task w)])
  ∧ (state (task w) ≠ DONE → finishedIds w = [])
  ∧ (∀ (st : Status) w0,
       tryBlock objectFinder_lookup PrepareRpc_MAX_OBJECTS_PER_RPC
         DecisionRpc_MAX_OBJECTS_PER_RPC wrap w = Thrown st w0 →
       let w' := performTask' w in
       state (task w') = DONE ∧ status (task w') = st
       ∧ prepareRpcs (task w') = [] ∧ decisionRpcs (task w') = []
       ∧ finishedIds w' = finishedIds w ++ [txId (task w')]).
Proof.
  intros Hr. destruct (Reachable_TrackerInv w Hr) as [I1 I2].
  split; [done|]. split; [done|].
  intros st w0 Hthrow.
  pose proof (performTask_TrackerInv w (conj I1 I2)) as [J1 _].
  unfold performTask in *. rewrite Hthrow in *. simpl in *.
  repeat split. rewrite J1 by done.
  destruct (decide (state (task w) = DONE)) as [Hd|Hd].
  - exfalso. unfold tryBlock in Hthrow.
    rewrite initBlock_other, prepareBlock_other in Hthrow by congruence.
    simpl in Hthrow. rewrite decisionBlock_other in Hthrow by congruence.
    done.
  - by rewrite I2.
Qed.

(** ** The states of the cache entries *)

Lemma Forward_trans e1 e2 e3 : Forward e1 e2 → Forward e2 e3 → Forward e1 e3.
Proof. unfold Forward. lia. Qed.

(** A relation that keeps entries away from [DECIDE] keeps [NoDecide]. *)
Lemma NoDecide_CacheRel (R : CacheEntry → CacheEntry → Prop) c c' :
  (∀ e e', R e e' → e_state e ≠ CacheEntry.DECIDE →
           e_state e' ≠ CacheEntry.DECIDE) →
  CacheRel R c c' →
  Forall (λ ke, e_state ke.2 ≠ CacheEntry.DECIDE) c →
  Forall (λ ke, e_state ke.2 ≠ CacheEntry.DECIDE) c'.
Proof.
  intros HR Hrel. induction Hrel as [|x y ? ? [_ Hxy] _ IH]; [done|].
  intros Hc. apply Forall_cons in Hc as [Hx Hc].
  constructor; [by eapply HR|by apply IH].
Qed.

(** On entries that have not reached [DECIDE] the prepare batcher moves
    forward. *)
Lemma byPrepare_Forward c c' :
  Forall (λ ke, e_state ke.2 ≠ CacheEntry.DECIDE) c →
  CacheRel (EntryStep byPrepare) c c' →
  CacheRel Forward c c'.
Proof.
  intros Hc Hrel. induction Hrel as [|x y ? ? [Hk [_ Hxy]] _ IH]; [constructor|].
  apply Forall_cons in Hc as [Hx Hc].
  constructor; [|by apply IH]. split; [done|]. unfold Forward. simpl in *.
  destruct Hxy as [-> | [_ ->]]; [done|].
  destruct (e_state x.2); simpl; (done || lia).
Qed.

Lemma byDecision_Forward e e' : EntryStep byDecision e e' → Forward e e'.
Proof.
  unfold Forward. intros [_ [-> | [_ ->]]]; [done|].
  destruct (e_state e); simpl; lia.
Qed.

Lemma performTask_forward w :
  PrepareInv w →
  CacheRel Forward (commitCache (task w)) (commitCache (task (performTask' w)))
  ∧ PrepareInv (performTask' w).
Proof.
  apply (performTask_rel
           (λ w w', PrepareInv w →
                    CacheRel Forward (commitCache (task w)) (commitCache (task w'))
                    ∧ PrepareInv w')); clear w.
  - intros w Hi. split; [|done]. apply CacheRel_refl. intros e. by unfold Forward.
  - intros w1 w2 w3 H12 H23 Hi. destruct (H12 Hi) as [R12 Hi2].
    destruct (H23 Hi2) as [R23 Hi3]. split; [|done].
    eapply CacheRel_trans; [|exact R12|exact R23]. apply Forward_trans.
  - intros w Hs Hi.
    destruct (initBlock_spec w Hs) as (_ & _ & _ & _ & _ & _ & _ & _ & Hr).
    split.
    + eapply CacheRel_impl; [|exact Hr]. intros e e' He. unfold Forward.
      by rewrite He.
    + intros _. eapply NoDecide_CacheRel; [|exact Hr|apply Hi; by left].
      intros e e' He. by rewrite He.
  - intros w Hs Hi.
    destruct (prepareBlock_spec w Hs) as (_ & _ & _ & _ & Hr & _).
    assert (NoDecide (task w)) as Hn by (apply Hi; by right).
    split; [by apply byPrepare_Forward|].
    intros _. eapply NoDecide_CacheRel; [|exact Hr|exact Hn].
    intros e e' [_ [-> | [_ ->]]]; done.
  - intros w Hs Hi.
    destruct (decisionBlock_spec w Hs) as (_ & _ & _ & Hr & Hm).
    split; [eapply CacheRel_impl; [|exact Hr]; apply byDecision_Forward|].
    intros Hs'. exfalso.
    destruct (decisionBlock _ _ _ w) as [w'|st w']; simpl in *.
    + destruct Hm as [[? _]|[? _]]; destruct Hs'; congruence.
    + destruct Hm as (_ & ? & _). destruct Hs'; congruence.
  - intros st w _ _ Hi. split.
    + apply CacheRel_refl. intros e. by unfold Forward.
    + intros [?|?]; done.
Qed.

Lemma deliver_PrepareInv ev w w' :
  deliver objectFinder_flush ev w = Some w' → PrepareInv w → PrepareInv w'.
Proof.
  intros Hd Hi. apply deliver_frame in Hd as (Hs & _ & _ & _ & _ & _ & _ & Hr).
  unfold PrepareInv. rewrite Hs. intros Hp.
  eapply NoDecide_CacheRel; [|exact Hr|by apply Hi].
  intros e e' [_ [-> | ->]]; done.
Qed.

Lemma Reachable_PrepareInv w : Reachable' w → PrepareInv w.
Proof.
  induction 1 as [w (Hf & _)|w a w' _ IH Hstep].
  - destruct Hf as (_ & _ & _ & _ & _ & _ & _ & Hp). intros _.
    eapply Forall_impl; [exact Hp|]. intros ke ->. done.
  - destruct a as [|ev]; simpl in Hstep.
    + simplify_eq. by apply performTask_forward.
    + by eapply deliver_PrepareInv.
Qed.

(** C1, as the code has it: in every run a call of [performTask] leaves
    every cache entry in its state or moves it forward in the order
    PENDING, PREPARE, DECIDE, and the completion of a request by the
    transport leaves every entry in its state or resets it to [PENDING]
    (the retry path); the keys of the cache do not move. *)
Theorem entry_state_forward_except_retry w a w' i key e :
  Reachable' w →
  exec' a w = Some w' →
  commitCache (task w) !! i = Some (key, e) →
  ∃ e', commitCache (task w') !! i = Some (key, e')
        ∧ match a with
          | PerformTask => Forward e e'
          | Deliver _ =>
              e_state e' = e_state e ∨ e_state e' = CacheEntry.PENDING
          end.
Proof.
  intros Hr Hstep Hl. destruct a as [|ev]; simpl in Hstep.
  - simplify_eq.
    destruct (performTask_forward w (Reachable_PrepareInv w Hr)) as [Hrel _].
    eapply CacheRel_lookup in Hrel as (e' & ? & ?); eauto.
  - apply deliver_frame in Hstep as (_ & _ & _ & _ & _ & _ & _ & Hrel).
    eapply CacheRel_lookup in Hrel as (e' & ? & [_ ?]); eauto.
Qed.

(** ** The step from PREPARE to DECISION *)

Lemma isEmpty_true {A} (l : list A) : isEmpty l = true ↔ l = [].
Proof. by destruct l. Qed.

(** C3: in a call of [performTask] with the task in [PREPARE] (the [try]
    block is then the PREPARE block followed by the DECISION block), if
    [processPrepareRpcs] throws the block throws, and otherwise the block
    moves the task to [DECISION] exactly when, after [processPrepareRpcs]
    and [sendPrepareRpc], the pipeline is empty and the cursor is at the end
    of the cache; at that transition the decision becomes [COMMIT] unless it
    is [ABORT], the cursor is set to the head of the cache and nothing else
    changes; without the transition the block changes nothing more. *)
Theorem prepare_block_enters_decision w :
  state (task w) = PREPARE →
  tryBlock objectFinder_lookup PrepareRpc_MAX_OBJECTS_PER_RPC
    DecisionRpc_MAX_OBJECTS_PER_RPC wrap w
  = bindO (prepareBlock objectFinder_lookup PrepareRpc_MAX_OBJECTS_PER_RPC wrap w)
      (decisionBlock objectFinder_lookup DecisionRpc_MAX_OBJECTS_PER_RPC wrap)
  ∧ match processPrepareRpcs wrap (task w) with
    | Thrown st t1 =>
        prepareBlock objectFinder_lookup PrepareRpc_MAX_OBJECTS_PER_RPC wrap w
        = Thrown st (mkWorld (ramcloud w) t1)
    | Normal t1 =>
        let w2 :=
          sendPrepareRpc objectFinder_lookup PrepareRpc_MAX_OBJECTS_PER_RPC
            (mkWorld (ramcloud w) t1) in
        ∃ w',
          prepareBlock objectFinder_lookup PrepareRpc_MAX_OBJECTS_PER_RPC wrap w
          = Normal w'
          ∧ (state (task w') = DECISION
             ↔ prepareRpcs (task w2) = []
               ∧ nextCacheEntry (task w2) = length (commitCache (task w2)))
          ∧ (state (task w') = DECISION →
             decision (task w')
             = (if decide (decision (task w2) = TxDecision.ABORT)
                then TxDecision.ABORT else TxDecision.COMMIT)
             ∧ nextCacheEntry (task w') = 0
             ∧ sameControl (task w')
                 (set_state DECISION (set_decision (decision (task w')) (task w2)))
             ∧ commitCache (task w') = commitCache (task w2)
             ∧ ramcloud w' = ramcloud w2)
          ∧ (state (task w') ≠ DECISION → w' = w2)
    end.
Proof.
  intros Hs. split.
  { unfold tryBlock. rewrite initBlock_other by congruence. done. }
  unfold prepareBlock. rewrite decide_True by done.
  destruct (processPrepareRpcs_payload (task w)) as (rpcs & d & Hp & _).
  destruct (processPrepareRpcs wrap (task w)) as [t1|st t1]; [|done].
  simpl in Hp. subst t1.
  match goal with |- context [sendPrepareRpc _ _ ?w1] => set (w1' := w1) end.
  destruct (sendPrepareRpc_frame w1') as (F1 & _).
  set (w2 := sendPrepareRpc _ _ w1') in *. simpl.
  assert (state (task w2) = PREPARE) as Hs2 by (rewrite F1; done).
  destruct (isEmpty (prepareRpcs (task w2))) eqn:He;
    destruct (atEnd (task w2)) eqn:Ha; simpl.
  - eexists. split; [done|]. apply isEmpty_true in He.
    apply Nat.eqb_eq in Ha. simpl. repeat split; done.
  - eexists. split; [done|]. apply Nat.eqb_neq in Ha.
    rewrite Hs2. repeat split; try done. by intros [_ ?].
  - eexists. split; [done|]. rewrite Hs2. repeat split; try done.
    intros [? _]. apply isEmpty_true in H. congruence.
  - eexists. split; [done|]. rewrite Hs2. repeat split; try done.
    intros [? _]. apply isEmpty_true in H. congruence.
Qed.

(** ** The requests that are sent *)

Lemma sendPrepareLoop_keys n finder t cur :
  (commitCache (sendPrepareLoop objectFinder_lookup
                  PrepareRpc_MAX_OBJECTS_PER_RPC n finder t cur).1).*1
  = (commitCache t).*1.
Proof.
  destruct (sendPrepareLoop_task n finder t cur) as [_ Hr].
  by eapply CacheRel_keys.
Qed.

Lemma sendDecisionLoop_keys n finder t cur :
  (commitCache (sendDecisionLoop objectFinder_lookup
                  DecisionRpc_MAX_OBJECTS_PER_RPC n finder t cur).1).*1
  = (commitCache t).*1.
Proof.
  destruct (sendDecisionLoop_task n finder t cur) as [_ Hr].
  by eapply CacheRel_keys.
Qed.

(** The request under construction in [sendPrepareRpc] is within capacity
    and on one session, and has not been started. *)
Lemma sendPrepareLoop_batch n finder keys t cur :
  (commitCache t).*1 = keys →
  (∀ s rpc, cur = Some (s, rpc) →
     p_state rpc = NOT_STARTED
     ∧ p_session rpc = Some s
     ∧ BatchOk objectFinder_lookup finder keys PrepareRpc_MAX_OBJECTS_PER_RPC
         (p_session rpc) (p_opCount rpc) (p_ops rpc)) →
  ∀ s rpc,
    (sendPrepareLoop objectFinder_lookup PrepareRpc_MAX_OBJECTS_PER_RPC
       n finder t cur).2 = Some (s, rpc) →
    p_state rpc = NOT_STARTED
    ∧ p_session rpc = Some s
    ∧ BatchOk objectFinder_lookup finder keys PrepareRpc_MAX_OBJECTS_PER_RPC
        (p_session rpc) (p_opCount rpc) (p_ops rpc).
Proof.
  revert t cur. induction n as [|n IH]; intros t cur Hk Hcur; simpl; [done|].
  destruct (commitCache t !! nextCacheEntry t) as [[key e]|] eqn:Hl; [|done].
  destruct (decide (e_state e = CacheEntry.PREPARE)) as [Hp|Hp].
  { apply IH; done. }
  set (session := objectFinder_lookup finder (tableId key) (keyHash key)).
  assert (∃ rpcSession nextRpc,
            match cur with
            | Some c => c
            | None => (session, newPrepareRpc session t)
            end = (rpcSession, nextRpc)
            ∧ p_state nextRpc = NOT_STARTED
            ∧ p_session nextRpc = Some rpcSession
            ∧ BatchOk objectFinder_lookup finder keys
                PrepareRpc_MAX_OBJECTS_PER_RPC
                (p_session nextRpc) (p_opCount nextRpc) (p_ops nextRpc))
    as (rpcSession & nextRpc & -> & Hst & Hse & Hok).
  { destruct cur as [[s0 rpc0]|].
    - exists s0, rpc0. split; [done|]. by apply Hcur.
    - exists session, (newPrepareRpc session t). simpl.
      repeat split; [lia|]. exists session. by split. }
  destruct (sameLocator session rpcSession) eqn:Hloc; simpl.
  2:{ intros s rpc ?; by simplify_eq. }
  destruct (p_opCount nextRpc <? PrepareRpc_MAX_OBJECTS_PER_RPC) eqn:Hlt; simpl.
  2:{ intros s rpc ?; by simplify_eq. }
  apply Nat.ltb_lt in Hlt. apply bool_decide_eq_true in Hloc.
  destruct (PrepareRpc_appendOp (nextCacheEntry t) nextRpc t) as [rpc' t'] eqn:Ha.
  apply IH.
  - unfold PrepareRpc_appendOp in Ha. rewrite Hl in Ha.
    destruct (e_type e); simplify_eq; simpl; try done;
      by rewrite <- (set_entry_state_keys (nextCacheEntry t) CacheEntry.PREPARE t).
  - intros s rpc ?; simplify_eq.
    unfold PrepareRpc_appendOp in Ha. rewrite Hl in Ha.
    pose proof Hok as (Hle & Hlen & s0 & Hs0 & Hall).
    assert (s0 = s) as -> by congruence.
    assert (BatchOk objectFinder_lookup finder (commitCache t).*1
              PrepareRpc_MAX_OBJECTS_PER_RPC (Some s) (S (p_opCount nextRpc))
              (take (p_opCount nextRpc) (p_ops nextRpc) ++ [nextCacheEntry t]))
      as Hnew.
    { split; [lia|]. split.
      { rewrite length_app, length_take. simpl. lia. }
      exists s. split; [done|]. apply Forall_app. split.
      - rewrite take_ge by lia. done.
      - apply Forall_singleton. exists key. split; [|done].
        by rewrite list_lookup_fmap, Hl. }
    destruct (e_type e); simplify_eq; simpl; rewrite ?Hse; try done;
      (split; [done|]); (split; [done|]); first [exact Hnew|by rewrite <- Hse].
Qed.

Lemma sendDecisionLoop_batch n finder keys t cur :
  (commitCache t).*1 = keys →
  (∀ s rpc, cur = Some (s, rpc) →
     d_state rpc = NOT_STARTED
     ∧ d_session rpc = Some s
     ∧ BatchOk objectFinder_lookup finder keys DecisionRpc_MAX_OBJECTS_PER_RPC
         (d_session rpc) (d_participantCount rpc) (d_ops rpc)) →
  ∀ s rpc,
    (sendDecisionLoop objectFinder_lookup DecisionRpc_MAX_OBJECTS_PER_RPC
       n finder t cur).2 = Some (s, rpc) →
    d_state rpc = NOT_STARTED
    ∧ d_session rpc = Some s
    ∧ BatchOk objectFinder_lookup finder keys DecisionRpc_MAX_OBJECTS_PER_RPC
        (d_session rpc) (d_participantCount rpc) (d_ops rpc).
Proof.
  revert t cur. induction n as [|n IH]; intros t cur Hk Hcur; simpl; [done|].
  destruct (commitCache t !! nextCacheEntry t) as [[key e]|] eqn:Hl; [|done].
  destruct (decide (e_state e = CacheEntry.DECIDE)) as [Hp|Hp].
  { apply IH; done. }
  set (session := objectFinder_lookup finder (tableId key) (keyHash key)).
  assert (∃ rpcSession nextRpc,
            match cur with
            | Some c => c
            | None => (session, newDecisionRpc session t)
            end = (rpcSession, nextRpc)
            ∧ d_state nextRpc = NOT_STARTED
            ∧ d_session nextRpc = Some rpcSession
            ∧ BatchOk objectFinder_lookup finder keys
                DecisionRpc_MAX_OBJECTS_PER_RPC
                (d_session nextRpc) (d_participantCount nextRpc) (d_ops nextRpc))
    as (rpcSession & nextRpc & -> & Hst & Hse & Hok).
  { destruct cur as [[s0 rpc0]|].
    - exists s0, rpc0. split; [done|]. by apply Hcur.
    - exists session, (newDecisionRpc session t). simpl.
      repeat split; [lia|]. exists session. by split. }
  destruct (sameLocator session rpcSession) eqn:Hloc; simpl.
  2:{ intros s rpc ?; by simplify_eq. }
  destruct (d_participantCount nextRpc <? DecisionRpc_MAX_OBJECTS_PER_RPC)
    eqn:Hlt; simpl.
  2:{ intros s rpc ?; by simplify_eq. }
  apply Nat.ltb_lt in Hlt. apply bool_decide_eq_true in Hloc.
  destruct (DecisionRpc_appendOp (nextCacheEntry t) nextRpc t) as [rpc' t'] eqn:Ha.
  unfold DecisionRpc_appendOp in Ha. rewrite Hl in Ha. simplify_eq.
  apply IH.
  - by rewrite <- (set_entry_state_keys (nextCacheEntry t) CacheEntry.DECIDE t).
  - intros s rpc ?; simplify_eq. simpl.
    destruct Hok as (Hle & Hlen & s0 & Hs0 & Hall).
    assert (s0 = s) as -> by congruence.
    split; [done|]. split; [done|]. split; [lia|]. split.
    { rewrite length_app, length_take. simpl. lia. }
    exists s. split; [done|]. apply Forall_app. split.
    + rewrite take_ge by lia. done.
    + apply Forall_singleton. exists key. split; [|done].
      by rewrite list_lookup_fmap, Hl.
Qed.

(** C5: a call of [sendPrepareRpc] sends nothing, or it sends one request,
    appended to the pipeline, that carries at most [MAX_OBJECTS_PER_RPC]
    operations, each of them a cache entry for which the object finder
    returned a session with the service locator of the session the request
    was opened on; and likewise [sendDecisionRpc]. *)
Theorem sent_rpc_within_capacity_on_one_session w :
  (let w' := sendPrepareRpc objectFinder_lookup PrepareRpc_MAX_OBJECTS_PER_RPC w in
   (prepareRpcs (task w') = prepareRpcs (task w)
    ∧ sentPrepares (ramcloud w') = sentPrepares (ramcloud w))
   ∨ ∃ rpc,
       prepareRpcs (task w') = prepareRpcs (task w) ++ [rpc]
       ∧ sentPrepares (ramcloud w') = sentPrepares (ramcloud w) ++ [rpc]
       ∧ p_state rpc = IN_PROGRESS
       ∧ BatchOk objectFinder_lookup (objectFinder (ramcloud w))
           (commitCache (task w)).*1 PrepareRpc_MAX_OBJECTS_PER_RPC
           (p_session rpc) (p_opCount rpc) (p_ops rpc))
  ∧ (let w' := sendDecisionRpc objectFinder_lookup
                 DecisionRpc_MAX_OBJECTS_PER_RPC w in
     (decisionRpcs (task w') = decisionRpcs (task w)
      ∧ sentDecisions (ramcloud w') = sentDecisions (ramcloud w))
     ∨ ∃ rpc,
         decisionRpcs (task w') = decisionRpcs (task w) ++ [rpc]
         ∧ sentDecisions (ramcloud w') = sentDecisions (ramcloud w) ++ [rpc]
         ∧ d_state rpc = IN_PROGRESS
         ∧ BatchOk objectFinder_lookup (objectFinder (ramcloud w))
             (commitCache (task w)).*1 DecisionRpc_MAX_OBJECTS_PER_RPC
             (d_session rpc) (d_participantCount rpc) (d_ops rpc)).
Proof.
  split.
  - unfold sendPrepareRpc.
    pose proof (sendPrepareLoop_task
                  (length (commitCache (task w)) - nextCacheEntry (task w))
                  (objectFinder (ramcloud w)) (task w) None) as [Hc _].
    pose proof (sendPrepareLoop_batch
                  (length (commitCache (task w)) - nextCacheEntry (task w))
                  (objectFinder (ramcloud w)) (commitCache (task w)).*1
                  (task w) None eq_refl) as Hb.
    destruct (sendPrepareLoop _ _ _ _ _ _) as [t' [[s rpc]|]]; simpl in *;
      apply sameControl_fields in Hc as (_ & _ & _ & _ & _ & Hp & _).
    + right. eexists. split; [by rewrite Hp|]. split; [done|]. split; [done|].
      destruct (Hb ltac:(done) s rpc eq_refl) as (_ & _ & Hok). exact Hok.
    + by left.
  - unfold sendDecisionRpc.
    pose proof (sendDecisionLoop_task
                  (length (commitCache (task w)) - nextCacheEntry (task w))
                  (objectFinder (ramcloud w)) (task w) None) as [Hc _].
    pose proof (sendDecisionLoop_batch
                  (length (commitCache (task w)) - nextCacheEntry (task w))
                  (objectFinder (ramcloud w)) (commitCache (task w)).*1
                  (task w) None eq_refl) as Hb.
    destruct (sendDecisionLoop _ _ _ _ _ _) as [t' [[s rpc]|]]; simpl in *;
      apply sameControl_fields in Hc as (_ & _ & _ & _ & _ & _ & Hp & _).
    + right. eexists. split; [by rewrite Hp|]. split; [done|]. split; [done|].
      destruct (Hb ltac:(done) s rpc eq_refl) as (_ & _ & Hok). exact Hok.
    + by left.
Qed.

(** ** Transport errors *)

(** What a retry does to an entry, read off its fields: the state of an
    entry of the request is [PENDING], and nothing else changes. *)
Lemma retryLoop_entries ops w k key e :
  commitCache (task w) !! k = Some (key, e) →
  ∃ e', commitCache (task (retryLoop objectFinder_flush ops w)) !! k
        = Some (key, e')
        ∧ e_state e' = (if decide (k ∈ ops) then CacheEntry.PENDING
                        else e_state e)
        ∧ e_type e' = e_type e ∧ e_objectBuf e' = e_objectBuf e
        ∧ e_rejectRules e' = e_rejectRules e ∧ e_rpcId e' = e_rpcId e.
Proof.
  intros Hl. destruct (retryLoop_spec ops w) as (_ & Hc & _).
  rewrite Hc, Hl. simpl. unfold retried. simpl.
  destruct (decide (k ∈ ops)); eexists; (split; [done|]); by repeat split.
Qed.

(** C6: when [handleTransportError] runs for the prepare request at
    position [j] of the pipeline, whose request carries the operations
    [ops[0..opCount)], then exactly the cache entries at those positions
    have the state [PENDING] afterwards, with their type, object, reject
    rules and id unchanged, every other entry is unchanged in every
    field, the tables of those entries are flushed from the object finder
    in turn, the cursor is at the head of the cache, and of the task
    nothing else changes but the session of that request. *)
Theorem transport_error_resets_its_participants w j rpc :
  prepareRpcs (task w) !! j = Some rpc →
  let ops := take (p_opCount rpc) (p_ops rpc) in
  let w' := PrepareRpc_handleTransportError objectFinder_flush j w in
  length (commitCache (task w')) = length (commitCache (task w))
  ∧ (∀ k key e,
       commitCache (task w) !! k = Some (key, e) →
       ∃ e', commitCache (task w') !! k = Some (key, e')
             ∧ e_state e' = (if decide (k ∈ ops) then CacheEntry.PENDING
                             else e_state e)
             ∧ e_type e' = e_type e ∧ e_objectBuf e' = e_objectBuf e
             ∧ e_rejectRules e' = e_rejectRules e ∧ e_rpcId e' = e_rpcId e)
  ∧ objectFinder (ramcloud w')
    = foldl objectFinder_flush (objectFinder (ramcloud w))
        (retriedTables (commitCache (task w)) ops)
  ∧ nextCacheEntry (task w') = 0
  ∧ sameControl (set_prepareRpcs (prepareRpcs (task w')) (task w)) (task w')
  ∧ prepareRpcs (task w')
    = match p_session rpc with
      | Some _ => <[j := PrepareRpc_dropSession rpc]> (prepareRpcs (task w))
      | None => prepareRpcs (task w)
      end.
Proof.
  intros Hj ops w'. subst w'. unfold PrepareRpc_handleTransportError.
  rewrite Hj. unfold PrepareRpc_retryRequest. fold ops.
  match goal with |- context [retryLoop _ ops ?w1] => set (w1' := w1) end.
  pose proof (retryLoop_CacheRel ops w1') as Hrel.
  destruct (retryLoop_spec ops w1') as (Ht & Hc & Hf & _).
  assert (commitCache (task w1') = commitCache (task w)) as Hcache
    by (subst w1'; by destruct (p_session rpc)).
  assert (objectFinder (ramcloud w1') = objectFinder (ramcloud w)) as Hfinder
    by (subst w1'; by destruct (p_session rpc)).
  pose proof (retryLoop_entries ops w1') as He.
  rewrite Hcache in *. rewrite Hfinder in *.
  split; [by apply CacheRel_length in Hrel|].
  split; [intros k key e Hl; exact (He k key e Hl)|].
  split; [done|]. split; [done|].
  simpl. rewrite Ht. subst w1'. unfold sameControl.
  destruct (p_session rpc); unfold_updates; by destruct (task w).
Qed.

(** The same for a decision request. *)
Lemma DecisionRpc_transport_error w j rpc :
  decisionRpcs (task w) !! j = Some rpc →
  let ops := take (d_participantCount rpc) (d_ops rpc) in
  let w' := DecisionRpc_handleTransportError objectFinder_flush j w in
  length (commitCache (task w')) = length (commitCache (task w))
  ∧ (∀ k key e,
       commitCache (task w) !! k = Some (key, e) →
       commitCache (task w') !! k
       = Some (key, if decide (k ∈ ops)
                    then set_e_state CacheEntry.PENDING e else e))
  ∧ objectFinder (ramcloud w')
    = foldl objectFinder_flush (objectFinder (ramcloud w))
        (retriedTables (commitCache (task w)) ops)
  ∧ nextCacheEntry (task w') = 0.
Proof.
  intros Hj ops w'. subst w'. unfold DecisionRpc_handleTransportError.
  rewrite Hj. unfold DecisionRpc_retryRequest. fold ops.
  match goal with |- context [retryLoop _ ops ?w1] => set (w1' := w1) end.
  pose proof (retryLoop_CacheRel ops w1') as Hrel.
  destruct (retryLoop_spec ops w1') as (Ht & Hc & Hf & _).
  assert (commitCache (task w1') = commitCache (task w)) as Hcache
    by (subst w1'; by destruct (d_session rpc)).
  assert (objectFinder (ramcloud w1') = objectFinder (ramcloud w)) as Hfinder
    by (subst w1'; by destruct (d_session rpc)).
  rewrite Hcache in *. rewrite Hfinder in *.
  split; [by apply CacheRel_length in Hrel|].
  split; [|done].
  intros k key e Hl. simpl. rewrite Hc, Hl. simpl. unfold retried.
  simpl. by destruct (decide (k ∈ ops)).
Qed.

(** ** The empty transaction *)

(** C10: on a freshly staged task with an empty commit cache one call of
    [performTask] ends in [DONE] with status [STATUS_OK] and decision
    [COMMIT]; no request was sent or is pending, and the id of the task was
    released once. *)
Theorem empty_cache_commits_in_one_call w :
  Fresh (task w) → commitCache (task w) = [] →
  let w' := performTask' w in
  state (task w') = DONE ∧ status (task w') = STATUS_OK
  ∧ decision (task w') = TxDecision.COMMIT
  ∧ prepareRpcs (task w') = [] ∧ decisionRpcs (task w') = []
  ∧ sentPrepares (ramcloud w') = sentPrepares (ramcloud w)
  ∧ sentDecisions (ramcloud w') = sentDecisions (ramcloud w)
  ∧ finishedIds w' = finishedIds w ++ [txId (task w')].
Proof.
  destruct w as [rc t]. destruct t. unfold Fresh. simpl.
  intros (? & ? & ? & ? & ? & ? & ? & _) ?. subst.
  repeat split.
Qed.

(** ** Staging *)

Lemma newTask_Fresh : Fresh (newTask (RejectRules:=RejectRules)).
Proof. by repeat split. Qed.

(** [insertCacheEntry] leaves the task as staging expects it. *)
Lemma insertCacheEntry_Fresh dflt hash table key buf t :
  Fresh t → Fresh (insertCacheEntry dflt hash table key buf t).2.
Proof.
  intros (? & ? & ? & ? & ? & ? & ? & Hc). repeat split; try done. simpl.
  rewrite <- (take_drop (upper_bound (mkCacheKey table (hash table key))
                           (commitCache t)) (commitCache t)) in Hc.
  apply Forall_app in Hc as [Hc1 Hc2].
  apply Forall_app. split; [done|]. by constructor.
Qed.

Lemma CacheKey_le_trans (k1 k2 k3 : CacheKey) :
  CacheKey_le k1 k2 → CacheKey_le k2 k3 → CacheKey_le k1 k3.
Proof.
  unfold CacheKey_le, CacheKey_ltb. destruct k1, k2, k3. simpl.
  rewrite !orb_false_iff, !andb_false_iff, !Z.ltb_ge, !Z.eqb_neq. lia.
Qed.

Lemma CacheKey_le_total (k1 k2 : CacheKey) :
  CacheKey_ltb k1 k2 = true → CacheKey_le k1 k2.
Proof.
  unfold CacheKey_le, CacheKey_ltb. destruct k1, k2. simpl.
  rewrite orb_true_iff, andb_true_iff, orb_false_iff, andb_false_iff,
    !Z.ltb_lt, !Z.ltb_ge, Z.eqb_eq, Z.eqb_neq. lia.
Qed.

(** [insertCacheEntry] keeps the cache in [CacheKey] order: the new entry
    goes behind the entries that are not greater. *)
Lemma insertCacheEntry_InKeyOrder dflt hash table key buf t :
  InKeyOrder (commitCache t) →
  InKeyOrder (commitCache (insertCacheEntry dflt hash table key buf t).2).
Proof.
  unfold InKeyOrder. simpl.
  set (k := mkCacheKey table (hash table key)).
  generalize (mkCacheEntry (e_type (newCacheEntry dflt))
                (Some (mkObjectBuffer key buf))
                (e_rejectRules (newCacheEntry dflt))
                (e_rpcId (newCacheEntry dflt)) (e_state (newCacheEntry dflt))).
  intros e0. induction (commitCache t) as [|[k' e'] c IH]; simpl; intros Hs.
  - repeat constructor.
  - apply StronglySorted_inv in Hs as [Hs Hk'].
    destruct (CacheKey_ltb k k') eqn:Hlt; simpl.
    + constructor; [by constructor|].
      constructor; [by apply CacheKey_le_total|].
      eapply Forall_impl; [exact Hk'|]. intros k2 H2.
      eapply CacheKey_le_trans; [by apply CacheKey_le_total|exact H2].
    + constructor; [by apply IH|].
      rewrite fmap_app. simpl. apply Forall_app. split.
      * rewrite <- (take_drop (upper_bound k c) c), fmap_app in Hk'.
        by apply Forall_app in Hk' as [? _].
      * constructor; [exact Hlt|].
        rewrite <- (take_drop (upper_bound k c) c), fmap_app in Hk'.
        by apply Forall_app in Hk' as [_ ?].
Qed.

(** [initTask] leaves the keys of the cache where they are, so the
    participant list is in [CacheKey] order when the cache is. *)
Lemma initTask_keys w :
  (commitCache (task (initTask w))).*1 = (commitCache (task w)).*1.
Proof.
  rewrite initTask_spec. simpl. apply list_eq. intros i.
  rewrite !list_lookup_fmap, stamp_lookup.
  by destruct (commitCache (task w) !! i).
Qed.

Lemma run_Reachable acts w w' :
  Reachable' w →
  run objectFinder_lookup objectFinder_flush PrepareRpc_MAX_OBJECTS_PER_RPC
    DecisionRpc_MAX_OBJECTS_PER_RPC wrap acts w = Some w' →
  Reachable' w'.
Proof.
  revert w. induction acts as [|a acts IH]; intros w Hr; simpl.
  - intros ?; by simplify_eq.
  - destruct (exec' a w) as [w1|] eqn:Hstep; simpl; [|done].
    apply IH. by eapply Reachable_step.
Qed.

(** ** More on the drain loop *)

Lemma filter_delete_ready {R} (ready : R → bool) (l : list R) i x :
  l !! i = Some x → ready x = true →
  filter (λ r, ready r = false) (delete i l) = filter (λ r, ready r = false) l.
Proof.
  revert i. induction l as [|y l IH]; intros i Hl Hr; [done|].
  destruct i as [|i]; simpl in *.
  - simplify_eq. rewrite filter_cons_False; [done|]. congruence.
  - rewrite !filter_cons. by rewrite (IH i Hl Hr).
Qed.

(** The loop removes ready requests only. *)
Lemma drainLoop_keeps_unready {R St} (ready : R → bool)
    (body : R → St → Outcome St) fuel it (rpcs : list R) (s : St) o :
  drainLoop wrap ready body fuel it rpcs s = Some o →
  filter (λ r, ready r = false) (payload o).1
  = filter (λ r, ready r = false) rpcs.
Proof.
  revert it rpcs s. induction fuel as [|fuel IH]; intros it rpcs s Hrun;
    [discriminate|].
  simpl in Hrun. destruct (rpcs !! it) as [rpc|] eqn:Hl.
  - destruct (ready rpc) eqn:Hr.
    + destruct (body rpc s) as [s'|st s'].
      * rewrite (IH _ _ _ Hrun). by eapply filter_delete_ready.
      * by simplify_eq.
    + eauto.
  - by simplify_eq.
Qed.

(** A call that returns has removed a ready request if there was one at or
    behind the iterator. *)
Lemma drainLoop_shrinks {R St} (ready : R → bool)
    (body : R → St → Outcome St) fuel it (rpcs l' : list R) (s s' : St) j rpc :
  drainLoop wrap ready body fuel it rpcs s = Some (Normal (l', s')) →
  it ≤ j → rpcs !! j = Some rpc → ready rpc = true →
  length l' < length rpcs.
Proof.
  revert it rpcs s. induction fuel as [|fuel IH]; intros it rpcs s Hrun Hj Hl Hr;
    [discriminate|].
  simpl in Hrun. destruct (rpcs !! it) as [rpc0|] eqn:Hl0.
  - destruct (ready rpc0) eqn:Hr0.
    + destruct (body rpc0 s) as [s1|st s1]; [|discriminate].
      apply drainLoop_sublist in Hrun. apply sublist_length in Hrun.
      simpl in Hrun. rewrite length_delete in Hrun by eauto.
      apply lookup_lt_Some in Hl0. lia.
    + eapply (IH (S it)); eauto.
      destruct (decide (it = j)) as [->|]; [congruence|lia].
  - apply lookup_ge_None_1 in Hl0. apply lookup_lt_Some in Hl. lia.
Qed.

(** With nothing ready the loop changes nothing. *)
Lemma drainLoop_nothing_ready {R St} (ready : R → bool)
    (body : R → St → Outcome St) fuel it (rpcs : list R) (s : St) o :
  drainLoop wrap ready body fuel it rpcs s = Some o →
  Forall (λ r, ready r = false) rpcs →
  o = Normal (rpcs, s).
Proof.
  revert it. induction fuel as [|fuel IH]; intros it Hrun Hall; [discriminate|].
  simpl in Hrun. destruct (rpcs !! it) as [rpc|] eqn:Hl.
  - rewrite (proj1 (Forall_lookup _ _) Hall _ _ Hl) in Hrun. eauto.
  - by simplify_eq.
Qed.

(** X1: [processPrepareRpcs] and [processDecisionRpcs] never remove a
    request that is not ready: the requests that are not ready are the same
    and in the same order before and after the call, however it ends. *)
Theorem process_rpcs_keep_unready t :
  filter (λ rpc, RpcState_isReady (p_state rpc) = false)
    (prepareRpcs (payload (processPrepareRpcs wrap t)))
  = filter (λ rpc, RpcState_isReady (p_state rpc) = false) (prepareRpcs t)
  ∧ filter (λ rpc, RpcState_isReady (d_state rpc) = false)
      (decisionRpcs (payload (processDecisionRpcs wrap t)))
    = filter (λ rpc, RpcState_isReady (d_state rpc) = false) (decisionRpcs t).
Proof.
  split.
  - pose proof (drain_eq wrap (λ rpc, RpcState_isReady (p_state rpc))
                  processPrepareRpc (prepareRpcs t) (decision t)) as Heq.
    apply (drainLoop_keeps_unready (λ rpc, RpcState_isReady (p_state rpc)))
      in Heq.
    unfold processPrepareRpcs.
    by destruct (drain _ _ _ _ _) as [[rpcs d]|st [rpcs d]].
  - pose proof (drain_eq wrap (λ rpc, RpcState_isReady (d_state rpc))
                  processDecisionRpc (decisionRpcs t) ()) as Heq.
    apply (drainLoop_keeps_unready (λ rpc, RpcState_isReady (d_state rpc)))
      in Heq.
    unfold processDecisionRpcs.
    by destruct (drain _ _ _ _ _) as [[rpcs d]|st [rpcs d]].
Qed.

(** X2: when some request of the pipeline is ready and
    [processPrepareRpcs] returns, the pipeline is shorter than before: each
    call that does not throw removes at least one ready request. *)
Theorem processPrepareRpcs_progress t t' rpc :
  rpc ∈ prepareRpcs t → RpcState_isReady (p_state rpc) = true →
  processPrepareRpcs wrap t = Normal t' →
  length (prepareRpcs t') < length (prepareRpcs t).
Proof.
  intros Hin Hr Hp.
  pose proof (drain_eq wrap (λ rpc, RpcState_isReady (p_state rpc))
                processPrepareRpc (prepareRpcs t) (decision t)) as Heq.
  unfold processPrepareRpcs in Hp.
  destruct (drain _ _ _ _ _) as [[rpcs d]|st [rpcs d]]; [|discriminate].
  simplify_eq. simpl.
  apply list_elem_of_lookup_1 in Hin as [j Hj].
  eapply (drainLoop_shrinks (λ rpc, RpcState_isReady (p_state rpc)));
    [exact Heq|lia|exact Hj|exact Hr].
Qed.

(** X3: when some request of the pipeline is ready and
    [processDecisionRpcs] returns, the pipeline is shorter than before: each
    call that does not throw removes at least one ready request. *)
Theorem processDecisionRpcs_progress t t' rpc :
  rpc ∈ decisionRpcs t → RpcState_isReady (d_state rpc) = true →
  processDecisionRpcs wrap t = Normal t' →
  length (decisionRpcs t') < length (decisionRpcs t).
Proof.
  intros Hin Hr Hp.
  pose proof (drain_eq wrap (λ rpc, RpcState_isReady (d_state rpc))
                processDecisionRpc (decisionRpcs t) ()) as Heq.
  unfold processDecisionRpcs in Hp.
  destruct (drain _ _ _ _ _) as [[rpcs d]|st [rpcs d]]; [|discriminate].
  simplify_eq. simpl.
  apply list_elem_of_lookup_1 in Hin as [j Hj].
  eapply (drainLoop_shrinks (λ rpc, RpcState_isReady (d_state rpc)));
    [exact Heq|lia|exact Hj|exact Hr].
Qed.

(** X4: while no request of the pipeline is ready, [processPrepareRpcs]
    and [processDecisionRpcs] return and leave the task as it is. *)
Theorem process_rpcs_nothing_ready t :
  (Forall (λ rpc, RpcState_isReady (p_state rpc) = false) (prepareRpcs t) →
   processPrepareRpcs wrap t = Normal t)
  ∧ (Forall (λ rpc, RpcState_isReady (d_state rpc) = false) (decisionRpcs t) →
     processDecisionRpcs wrap t = Normal t).
Proof.
  split; intros Hall.
  - pose proof (drain_eq wrap (λ rpc, RpcState_isReady (p_state rpc))
                  processPrepareRpc (prepareRpcs t) (decision t)) as Heq.
    apply (drainLoop_nothing_ready (λ rpc, RpcState_isReady (p_state rpc)))
      in Heq; [|done].
    unfold processPrepareRpcs. rewrite Heq. by destruct t.
  - pose proof (drain_eq wrap (λ rpc, RpcState_isReady (d_state rpc))
                  processDecisionRpc (decisionRpcs t) ()) as Heq.
    apply (drainLoop_nothing_ready (λ rpc, RpcState_isReady (d_state rpc)))
      in Heq; [|done].
    unfold processDecisionRpcs. rewrite Heq. by destruct t.
Qed.

(** X5: a status thrown by [processPrepareRpcs] or [processDecisionRpcs]
    is the status of a completed request of the pipeline whose response
    arrived (the request did not fail in the transport), and it is neither
    [STATUS_OK] nor [STATUS_UNKNOWN_TABLET]. *)
Theorem process_rpcs_thrown_status t (st : Status) t' :
  (processPrepareRpcs wrap t = Thrown st t' →
   ∃ rpc, rpc ∈ prepareRpcs t ∧ p_state rpc = FINISHED ∧ p_status rpc = st
          ∧ st ≠ STATUS_OK ∧ st ≠ STATUS_UNKNOWN_TABLET)
  ∧ (processDecisionRpcs wrap t = Thrown st t' →
     ∃ rpc, rpc ∈ decisionRpcs t ∧ d_state rpc = FINISHED ∧ d_status rpc = st
            ∧ st ≠ STATUS_OK ∧ st ≠ STATUS_UNKNOWN_TABLET).
Proof.
  split.
  - unfold processPrepareRpcs.
    destruct (drain _ _ _ _ _) as [[rpcs d]|st0 [rpcs d]] eqn:Hd; [done|].
    intros ?; simplify_eq.
    destruct (drain_thrown _ _ _ _ _ _ _ Hd) as (rpc & s0 & s1 & Hin & Hr & Hb).
    exists rpc. split; [done|].
    unfold processPrepareRpc in Hb.
    destruct (p_state rpc); try done; repeat case_decide; by simplify_eq.
  - unfold processDecisionRpcs.
    destruct (drain _ _ _ _ _) as [[rpcs d]|st0 [rpcs d]] eqn:Hd; [done|].
    intros ?; simplify_eq.
    destruct (drain_thrown _ _ _ _ _ _ _ Hd) as (rpc & s0 & s1 & Hin & Hr & Hb).
    exists rpc. split; [done|].
    unfold processDecisionRpc in Hb.
    destruct (d_state rpc); try done; repeat case_decide; by simplify_eq.
Qed.

(** ** The cursor and the entries it passes *)

Lemma set_entry_state_lookup i s t j :
  commitCache (set_entry_state i s t) !! j
  = (λ ke, if decide (i = j) then (ke.1, set_e_state s ke.2) else ke)
      <$> commitCache t !! j.
Proof.
  simpl. destruct (decide (i = j)) as [->|Hne].
  - by rewrite list_lookup_alter_eq.
  - rewrite list_lookup_alter_ne by done. by destruct (commitCache t !! j).
Qed.

Lemma PrepareRpc_appendOp_cursor i rpc t :
  nextCacheEntry (PrepareRpc_appendOp i rpc t).2 = nextCacheEntry t.
Proof.
  unfold PrepareRpc_appendOp. destruct (commitCache t !! i) as [[key e]|]; [|done].
  by destruct (e_type e).
Qed.

(** What [PrepareRpc::appendOp] does to the cache: the entry is [PREPARE]
    afterwards unless its type is unknown, and no other entry changes. *)
Lemma PrepareRpc_appendOp_lookup i rpc t j :
  commitCache (PrepareRpc_appendOp i rpc t).2 !! j
  = (λ ke, if decide (i = j ∧ e_type ke.2 ≠ CacheEntry.INVALID)
           then (ke.1, set_e_state CacheEntry.PREPARE ke.2) else ke)
      <$> commitCache t !! j.
Proof.
  unfold PrepareRpc_appendOp.
  destruct (commitCache t !! i) as [[key e]|] eqn:Hl.
  - destruct (e_type e) eqn:Hty; simpl;
      try (rewrite list_lookup_alter;
           destruct (decide (i = j)) as [->|Hne];
           [rewrite Hl; simpl; rewrite decide_True; [done|];
            split; [done|]; simpl; congruence
           |destruct (commitCache t !! j) as [ke|]; [|done]; simpl;
            rewrite decide_False; [done|]; by intros [? _]]).
    destruct (commitCache t !! j) as [ke|] eqn:Hj; [|done]. simpl.
    rewrite decide_False; [done|]. intros [-> Hne]. simplify_eq.
  - destruct (commitCache t !! j) as [ke|] eqn:Hj; [|done]. simpl.
    rewrite decide_False; [done|]. intros [-> _]. congruence.
Qed.

(** The scan of [sendPrepareRpc]: the cursor moves forward by [n] entries
    at most and stays within the cache, the entries it did not pass are
    unchanged, and an entry it passed is [PREPARE] unless its type is
    unknown. *)
Lemma sendPrepareLoop_scan n finder t cur :
  let t' := (sendPrepareLoop objectFinder_lookup PrepareRpc_MAX_OBJECTS_PER_RPC
               n finder t cur).1 in
  nextCacheEntry t ≤ nextCacheEntry t'
  ∧ nextCacheEntry t' ≤ nextCacheEntry t + n
  ∧ (nextCacheEntry t ≤ length (commitCache t) →
     nextCacheEntry t' ≤ length (commitCache t))
  ∧ (∀ i, i < nextCacheEntry t ∨ nextCacheEntry t' ≤ i →
          commitCache t' !! i = commitCache t !! i)
  ∧ (∀ i key e', nextCacheEntry t ≤ i < nextCacheEntry t' →
                 commitCache t' !! i = Some (key, e') →
                 e_type e' ≠ CacheEntry.INVALID →
                 e_state e' = CacheEntry.PREPARE).
Proof.
  revert t cur. induction n as [|n IH]; intros t cur; simpl.
  { repeat split; try done; try lia. }
  destruct (commitCache t !! nextCacheEntry t) as [[key e]|] eqn:Hl; simpl.
  2:{ repeat split; try done; try lia. }
  pose proof (lookup_lt_Some _ _ _ Hl) as Hlt.
  assert (Hstep : ∀ t1 cur1,
            nextCacheEntry t1 = nextCacheEntry t →
            length (commitCache t1) = length (commitCache t) →
            (∀ j, j ≠ nextCacheEntry t →
                  commitCache t1 !! j = commitCache t !! j) →
            (∀ key1 e1, commitCache t1 !! nextCacheEntry t = Some (key1, e1) →
                        e_type e1 ≠ CacheEntry.INVALID →
                        e_state e1 = CacheEntry.PREPARE) →
            let t' := (sendPrepareLoop objectFinder_lookup
                         PrepareRpc_MAX_OBJECTS_PER_RPC n finder (advance t1)
                         cur1).1 in
            nextCacheEntry t ≤ nextCacheEntry t'
            ∧ nextCacheEntry t' ≤ nextCacheEntry t + S n
            ∧ (nextCacheEntry t ≤ length (commitCache t) →
               nextCacheEntry t' ≤ length (commitCache t))
            ∧ (∀ i, i < nextCacheEntry t ∨ nextCacheEntry t' ≤ i →
                    commitCache t' !! i = commitCache t !! i)
            ∧ (∀ i key e', nextCacheEntry t ≤ i < nextCacheEntry t' →
                           commitCache t' !! i = Some (key, e') →
                           e_type e' ≠ CacheEntry.INVALID →
                           e_state e' = CacheEntry.PREPARE)).
  { intros t1 cur1 Hc1 Hlen1 Hother Hat.
    destruct (IH (advance t1) cur1) as (I1 & I2 & I3 & I4 & I5).
    simpl in *. rewrite Hc1, ?Hlen1 in *.
    split; [lia|]. split; [lia|]. split; [intros _; apply I3; lia|]. split.
    - intros i Hi. rewrite I4 by lia. apply Hother. lia.
    - intros i key1 e1 Hi Hl1 Hty.
      destruct (decide (i = nextCacheEntry t)) as [->|Hne].
      + rewrite I4 in Hl1 by lia. by eapply Hat.
      + eapply I5; [|exact Hl1|exact Hty]. lia. }
  destruct (decide (e_state e = CacheEntry.PREPARE)) as [Hp|Hp].
  { apply Hstep; try done. intros key1 e1 Hl1 _. congruence. }
  set (c := match cur with Some c => c | None => _ end).
  destruct c as [rpcSession nextRpc].
  destruct (sameLocator _ rpcSession && _); simpl.
  2:{ repeat split; try done; try lia. }
  destruct (PrepareRpc_appendOp (nextCacheEntry t) nextRpc t) as [rpc' t'] eqn:Ha.
  pose proof (PrepareRpc_appendOp_lookup (nextCacheEntry t) nextRpc t) as Hlook.
  pose proof (PrepareRpc_appendOp_cursor (nextCacheEntry t) nextRpc t) as Hcur.
  rewrite Ha in Hlook, Hcur. simpl in Hlook, Hcur.
  apply Hstep; try done.
  - apply Nat.le_antisymm.
    + apply lookup_ge_None. rewrite Hlook, lookup_ge_None_2; done.
    + apply lookup_ge_None.
      pose proof (Hlook (length (commitCache t'))) as Hk.
      rewrite lookup_ge_None_2 in Hk by done. symmetry in Hk.
      by apply fmap_None in Hk.
  - intros j Hj. rewrite Hlook.
    destruct (commitCache t !! j) as [ke|]; [|done]. simpl.
    rewrite decide_False; [done|]. intros [? _]. congruence.
  - intros key1 e1. rewrite Hlook, Hl. simpl. case_decide as Hd.
    + intros ? _. by simplify_eq.
    + intros ? Hty. simplify_eq. exfalso. apply Hd. by split.
Qed.

Lemma DecisionRpc_appendOp_cursor i rpc t :
  nextCacheEntry (DecisionRpc_appendOp i rpc t).2 = nextCacheEntry t.
Proof.
  unfold DecisionRpc_appendOp. by destruct (commitCache t !! i) as [[key e]|].
Qed.

(** The scan of [sendDecisionRpc]: every entry the cursor passed is
    [DECIDE]. *)
Lemma sendDecisionLoop_scan n finder t cur :
  let t' := (sendDecisionLoop objectFinder_lookup
               DecisionRpc_MAX_OBJECTS_PER_RPC n finder t cur).1 in
  nextCacheEntry t ≤ nextCacheEntry t'
  ∧ nextCacheEntry t' ≤ nextCacheEntry t + n
  ∧ (nextCacheEntry t ≤ length (commitCache t) →
     nextCacheEntry t' ≤ length (commitCache t))
  ∧ (∀ i, i < nextCacheEntry t ∨ nextCacheEntry t' ≤ i →
          commitCache t' !! i = commitCache t !! i)
  ∧ (∀ i key e', nextCacheEntry t ≤ i < nextCacheEntry t' →
                 commitCache t' !! i = Some (key, e') →
                 e_state e' = CacheEntry.DECIDE).
Proof.
  revert t cur. induction n as [|n IH]; intros t cur; simpl.
  { repeat split; try done; try lia. }
  destruct (commitCache t !! nextCacheEntry t) as [[key e]|] eqn:Hl; simpl.
  2:{ repeat split; try done; try lia. }
  pose proof (lookup_lt_Some _ _ _ Hl) as Hlt.
  assert (Hstep : ∀ t1 cur1,
            nextCacheEntry t1 = nextCacheEntry t →
            length (commitCache t1) = length (commitCache t) →
            (∀ j, j ≠ nextCacheEntry t →
                  commitCache t1 !! j = commitCache t !! j) →
            (∀ key1 e1, commitCache t1 !! nextCacheEntry t = Some (key1, e1) →
                        e_state e1 = CacheEntry.DECIDE) →
            let t' := (sendDecisionLoop objectFinder_lookup
                         DecisionRpc_MAX_OBJECTS_PER_RPC n finder (advance t1)
                         cur1).1 in
            nextCacheEntry t ≤ nextCacheEntry t'
            ∧ nextCacheEntry t' ≤ nextCacheEntry t + S n
            ∧ (nextCacheEntry t ≤ length (commitCache t) →
               nextCacheEntry t' ≤ length (commitCache t))
            ∧ (∀ i, i < nextCacheEntry t ∨ nextCacheEntry t' ≤ i →
                    commitCache t' !! i = commitCache t !! i)
            ∧ (∀ i key e', nextCacheEntry t ≤ i < nextCacheEntry t' →
                           commitCache t' !! i = Some (key, e') →
                           e_state e' = CacheEntry.DECIDE)).
  { intros t1 cur1 Hc1 Hlen1 Hother Hat.
    destruct (IH (advance t1) cur1) as (I1 & I2 & I3 & I4 & I5).
    simpl in *. rewrite Hc1, ?Hlen1 in *.
    split; [lia|]. split; [lia|]. split; [intros _; apply I3; lia|]. split.
    - intros i Hi. rewrite I4 by lia. apply Hother. lia.
    - intros i key1 e1 Hi Hl1.
      destruct (decide (i = nextCacheEntry t)) as [->|Hne].
      + rewrite I4 in Hl1 by lia. by eapply Hat.
      + eapply I5; [|exact Hl1]. lia. }
  destruct (decide (e_state e = CacheEntry.DECIDE)) as [Hp|Hp].
  { apply Hstep; try done. intros key1 e1 Hl1. congruence. }
  set (c := match cur with Some c => c | None => _ end).
  destruct c as [rpcSession nextRpc].
  destruct (sameLocator _ rpcSession && _); simpl.
  2:{ repeat split; try done; try lia. }
  unfold DecisionRpc_appendOp. rewrite Hl.
  apply Hstep; try done.
  - simpl. by rewrite length_alter.
  - intros j Hj. simpl. by rewrite list_lookup_alter_ne.
  - intros key1 e1. simpl. rewrite list_lookup_alter_eq, Hl. simpl.
    intros ?. by simplify_eq.
Qed.

(** ** The request a batcher builds *)

Lemma OpsBuilt_nil (target : CacheEntry.State) c0 c' lo hi :
  OpsBuilt target c0 c' lo hi [].
Proof. split; constructor. Qed.

(** The cursor moves on and the entries behind the operations stay. *)
Lemma OpsBuilt_mono (target : CacheEntry.State) c0 c' c'' lo hi hi' ops :
  OpsBuilt target c0 c' lo hi ops → hi ≤ hi' →
  (∀ i, i < hi → c'' !! i = c' !! i) →
  OpsBuilt target c0 c'' lo hi' ops.
Proof.
  intros [Hs Hall] Hhi Hsame. split; [done|].
  eapply Forall_impl; [exact Hall|]. simpl.
  intros op ([? ?] & key & e & Hc0 & Hst & Hc'). split; [lia|].
  exists key, e. rewrite Hsame by lia. done.
Qed.

(** One more operation, at the cursor. *)
Lemma OpsBuilt_snoc (target : CacheEntry.State) c0 c' lo hi ops key e :
  OpsBuilt target c0 c' lo hi ops → lo ≤ hi →
  c0 !! hi = Some (key, e) → e_state e ≠ target →
  c' !! hi = Some (key, set_e_state target e) →
  OpsBuilt target c0 c' lo (S hi) (ops ++ [hi]).
Proof.
  intros [Hs Hall] Hlo Hc0 Hst Hc'. split.
  - apply StronglySorted_app_2; [|done|repeat constructor].
    intros x1 x2 Hx1 ->%list_elem_of_singleton.
    by destruct (proj1 (Forall_forall _ _) Hall x1 Hx1) as [[? ?] _].
  - apply Forall_app. split.
    + eapply Forall_impl; [exact Hall|]. simpl.
      intros op ([? ?] & Hrest). split; [lia|done].
    + apply Forall_singleton. split; [lia|]. eauto.
Qed.

Lemma sendPrepareLoop_built n finder t0 t cur :
  sameControl t0 t →
  nextCacheEntry t0 ≤ nextCacheEntry t →
  (∀ i, nextCacheEntry t ≤ i → commitCache t !! i = commitCache t0 !! i) →
  (∀ s rpc, cur = Some (s, rpc) → PrepareBuilt t0 t rpc) →
  ∀ s rpc,
    (sendPrepareLoop objectFinder_lookup PrepareRpc_MAX_OBJECTS_PER_RPC
       n finder t cur).2 = Some (s, rpc) →
    PrepareBuilt t0
      (sendPrepareLoop objectFinder_lookup PrepareRpc_MAX_OBJECTS_PER_RPC
         n finder t cur).1 rpc.
Proof.
  revert t cur. induction n as [|n IH]; intros t cur Hctl Hlo Hrest Hcur;
    simpl; [done|].
  destruct (commitCache t !! nextCacheEntry t) as [[key e]|] eqn:Hl; [|done].
  destruct (decide (e_state e = CacheEntry.PREPARE)) as [Hp|Hp].
  { apply IH.
    - eapply sameControl_trans; [exact Hctl|apply sameControl_advance].
    - simpl. lia.
    - intros i Hi. simpl in *. apply Hrest. lia.
    - intros s rpc Hs. destruct (Hcur s rpc Hs) as (? & ? & ? & ? & ? & Hops & ?).
      repeat split; try done.
      all: try (eapply OpsBuilt_mono; [exact Hops|simpl; lia|done]).
      all: by destruct Hops. }
  set (session := objectFinder_lookup finder (tableId key) (keyHash key)).
  assert (∃ rpcSession nextRpc,
            match cur with
            | Some c => c
            | None => (session, newPrepareRpc session t)
            end = (rpcSession, nextRpc)
            ∧ PrepareBuilt t0 t nextRpc)
    as (rpcSession & nextRpc & -> & Hb).
  { destruct cur as [[s0 rpc0]|].
    - exists s0, rpc0. split; [done|]. by apply (Hcur s0).
    - exists session, (newPrepareRpc session t). split; [done|].
      apply sameControl_fields in Hctl
        as (_ & _ & _ & _ & Hle & _ & _ & Hpc & Hpl).
      repeat split; simpl; try done; try constructor. }
  destruct (sameLocator session rpcSession && _); simpl.
  2:{ intros s rpc ?; by simplify_eq. }
  destruct Hb as (B1 & B2 & B3 & B4 & B5 & B6 & B7).
  unfold PrepareRpc_appendOp. rewrite Hl.
  assert (commitCache t0 !! nextCacheEntry t = Some (key, e)) as Hl0
    by (rewrite <- Hrest by lia; done).
  destruct (prepareOpOf (key, e)) as [o|] eqn:Ho.
  - assert ((let '(rpc', t') :=
               match
                 match e_type e with
                 | CacheEntry.READ => Some (ReadOp (tableId key) (e_rpcId e))
                 | CacheEntry.REMOVE => Some (RemoveOp (tableId key) (e_rpcId e))
                 | CacheEntry.WRITE => Some (WriteOp (tableId key) (e_rpcId e))
                 | CacheEntry.INVALID => None
                 end
               with
               | Some o =>
                   (mkPrepareRpc (p_session nextRpc)
                      (take (p_opCount nextRpc) (p_ops nextRpc)
                         ++ [nextCacheEntry t])
                      (p_lease nextRpc) (p_participantCount nextRpc)
                      (S (p_opCount nextRpc)) (p_ackId nextRpc)
                      (p_participants nextRpc) (p_request nextRpc ++ [o])
                      (p_state nextRpc) (p_status nextRpc) (p_vote nextRpc),
                    set_entry_state (nextCacheEntry t) CacheEntry.PREPARE t)
               | None => (nextRpc, t)
               end in
             sendPrepareLoop objectFinder_lookup PrepareRpc_MAX_OBJECTS_PER_RPC
               n finder (advance t') (Some (rpcSession, rpc')))
            = sendPrepareLoop objectFinder_lookup PrepareRpc_MAX_OBJECTS_PER_RPC
                n finder
                (advance (set_entry_state (nextCacheEntry t) CacheEntry.PREPARE t))
                (Some (rpcSession,
                       mkPrepareRpc (p_session nextRpc)
                         (p_ops nextRpc ++ [nextCacheEntry t])
                         (p_lease nextRpc) (p_participantCount nextRpc)
                         (S (p_opCount nextRpc)) (p_ackId nextRpc)
                         (p_participants nextRpc) (p_request nextRpc ++ [o])
                         (p_state nextRpc) (p_status nextRpc) (p_vote nextRpc))))
      as ->.
    { rewrite take_ge by lia. unfold prepareOpOf in Ho. simpl in Ho.
      by destruct (e_type e); simplify_eq. }
    apply IH.
    + eapply sameControl_trans; [exact Hctl|].
      eapply (sameControl_trans _
                (set_entry_state (nextCacheEntry t) CacheEntry.PREPARE t));
        [apply sameControl_set_entry_state|apply sameControl_advance].
    + simpl. lia.
    + intros i Hi. simpl in *. rewrite list_lookup_alter_ne by lia.
      apply Hrest. lia.
    + intros s rpc ?; simplify_eq. repeat split; simpl; try done.
      * rewrite length_app. simpl. lia.
      * destruct (OpsBuilt_snoc CacheEntry.PREPARE (commitCache t0)
                    (alter (λ ke, (ke.1, set_e_state CacheEntry.PREPARE ke.2))
                       (nextCacheEntry t) (commitCache t))
                    (nextCacheEntry t0) (nextCacheEntry t) (p_ops nextRpc)
                    key e) as [Hs _]; try done.
        -- eapply OpsBuilt_mono; [exact B6|lia|].
           intros i Hi. by rewrite list_lookup_alter_ne by lia.
        -- by rewrite list_lookup_alter_eq, Hl.
      * destruct (OpsBuilt_snoc CacheEntry.PREPARE (commitCache t0)
                    (alter (λ ke, (ke.1, set_e_state CacheEntry.PREPARE ke.2))
                       (nextCacheEntry t) (commitCache t))
                    (nextCacheEntry t0) (nextCacheEntry t) (p_ops nextRpc)
                    key e) as [_ Hf]; try done.
        -- eapply OpsBuilt_mono; [exact B6|lia|].
           intros i Hi. by rewrite list_lookup_alter_ne by lia.
        -- by rewrite list_lookup_alter_eq, Hl.
      * apply Forall2_app; [done|]. constructor; [|constructor]. eauto.
  - assert (e_type e = CacheEntry.INVALID) as Hty.
    { unfold prepareOpOf in Ho. simpl in Ho. by destruct (e_type e). }
    rewrite Hty. apply IH.
    + eapply sameControl_trans; [exact Hctl|apply sameControl_advance].
    + simpl. lia.
    + intros i Hi. simpl in *. apply Hrest. lia.
    + intros s rpc ?; simplify_eq. repeat split; try done.
      all: try (eapply OpsBuilt_mono; [exact B6|simpl; lia|done]).
      all: by destruct B6.
Qed.

Lemma sendDecisionLoop_built n finder t0 t cur :
  sameControl t0 t →
  nextCacheEntry t0 ≤ nextCacheEntry t →
  (∀ i, nextCacheEntry t ≤ i → commitCache t !! i = commitCache t0 !! i) →
  (∀ s rpc, cur = Some (s, rpc) → DecisionBuilt t0 t rpc) →
  ∀ s rpc,
    (sendDecisionLoop objectFinder_lookup DecisionRpc_MAX_OBJECTS_PER_RPC
       n finder t cur).2 = Some (s, rpc) →
    DecisionBuilt t0
      (sendDecisionLoop objectFinder_lookup DecisionRpc_MAX_OBJECTS_PER_RPC
         n finder t cur).1 rpc.
Proof.
  revert t cur. induction n as [|n IH]; intros t cur Hctl Hlo Hrest Hcur;
    simpl; [done|].
  destruct (commitCache t !! nextCacheEntry t) as [[key e]|] eqn:Hl; [|done].
  destruct (decide (e_state e = CacheEntry.DECIDE)) as [Hp|Hp].
  { apply IH.
    - eapply sameControl_trans; [exact Hctl|apply sameControl_advance].
    - simpl. lia.
    - intros i Hi. simpl in *. apply Hrest. lia.
    - intros s rpc Hs. destruct (Hcur s rpc Hs) as (? & ? & ? & ? & Hops & ?).
      repeat split; try done.
      all: try (eapply OpsBuilt_mono; [exact Hops|simpl; lia|done]).
      all: by destruct Hops. }
  set (session := objectFinder_lookup finder (tableId key) (keyHash key)).
  assert (∃ rpcSession nextRpc,
            match cur with
            | Some c => c
            | None => (session, newDecisionRpc session t)
            end = (rpcSession, nextRpc)
            ∧ DecisionBuilt t0 t nextRpc)
    as (rpcSession & nextRpc & -> & Hb).
  { destruct cur as [[s0 rpc0]|].
    - exists s0, rpc0. split; [done|]. by apply (Hcur s0).
    - exists session, (newDecisionRpc session t). split; [done|].
      apply sameControl_fields in Hctl
        as (_ & _ & Hd & _ & Hle & _ & _ & _ & _).
      repeat split; simpl; try done; try constructor; congruence. }
  destruct (sameLocator session rpcSession && _); simpl.
  2:{ intros s rpc ?; by simplify_eq. }
  destruct Hb as (B1 & B2 & B3 & B4 & B5 & B6).
  unfold DecisionRpc_appendOp. rewrite Hl.
  assert (commitCache t0 !! nextCacheEntry t = Some (key, e)) as Hl0
    by (rewrite <- Hrest by lia; done).
  rewrite take_ge by lia.
  apply IH.
  - eapply sameControl_trans; [exact Hctl|].
    eapply (sameControl_trans _
              (set_entry_state (nextCacheEntry t) CacheEntry.DECIDE t));
      [apply sameControl_set_entry_state|apply sameControl_advance].
  - simpl. lia.
  - intros i Hi. simpl in *. rewrite list_lookup_alter_ne by lia.
    apply Hrest. lia.
  - intros s rpc ?; simplify_eq. repeat split; simpl; try done.
    + rewrite length_app. simpl. lia.
    + destruct (OpsBuilt_snoc CacheEntry.DECIDE (commitCache t0)
                  (alter (λ ke, (ke.1, set_e_state CacheEntry.DECIDE ke.2))
                     (nextCacheEntry t) (commitCache t))
                  (nextCacheEntry t0) (nextCacheEntry t) (d_ops nextRpc)
                  key e) as [Hs _]; try done.
      * eapply OpsBuilt_mono; [exact B5|lia|].
        intros i Hi. by rewrite list_lookup_alter_ne by lia.
      * by rewrite list_lookup_alter_eq, Hl.
    + destruct (OpsBuilt_snoc CacheEntry.DECIDE (commitCache t0)
                  (alter (λ ke, (ke.1, set_e_state CacheEntry.DECIDE ke.2))
                     (nextCacheEntry t) (commitCache t))
                  (nextCacheEntry t0) (nextCacheEntry t) (d_ops nextRpc)
                  key e) as [_ Hf]; try done.
      * eapply OpsBuilt_mono; [exact B5|lia|].
        intros i Hi. by rewrite list_lookup_alter_ne by lia.
      * by rewrite list_lookup_alter_eq, Hl.
    + apply Forall2_app; [done|]. constructor; [|constructor]. eauto.
Qed.

(** A request sent by [sendPrepareRpc], with the world it comes from. *)
Lemma sendPrepareRpc_sent w rpc :
  let w' := sendPrepareRpc objectFinder_lookup PrepareRpc_MAX_OBJECTS_PER_RPC w in
  prepareRpcs (task w') = prepareRpcs (task w) ++ [rpc] →
  ∃ rpc0, rpc = PrepareRpc_send (ramcloud w) rpc0
          ∧ PrepareBuilt (task w) (task w') rpc0.
Proof.
  unfold sendPrepareRpc.
  pose proof (sendPrepareLoop_task
                (length (commitCache (task w)) - nextCacheEntry (task w))
                (objectFinder (ramcloud w)) (task w) None) as [Hc _].
  pose proof (sendPrepareLoop_built
                (length (commitCache (task w)) - nextCacheEntry (task w))
                (objectFinder (ramcloud w)) (task w) (task w) None
                (sameControl_refl _) (Nat.le_refl _) (λ _ _, eq_refl)) as Hb.
  destruct (sendPrepareLoop _ _ _ _ _ _) as [t' [[s rpc0]|]]; simpl in *;
    apply sameControl_fields in Hc as (_ & _ & _ & _ & _ & Hp & _);
    rewrite Hp; intros Heq.
  - apply app_inv_head in Heq. simplify_eq. eexists. split; [done|].
    by apply (Hb ltac:(done) s).
  - apply (f_equal length) in Heq. rewrite length_app in Heq. simpl in Heq. lia.
Qed.

Lemma sendDecisionRpc_sent w rpc :
  let w' := sendDecisionRpc objectFinder_lookup DecisionRpc_MAX_OBJECTS_PER_RPC w in
  decisionRpcs (task w') = decisionRpcs (task w) ++ [rpc] →
  ∃ rpc0, rpc = DecisionRpc_send rpc0
          ∧ DecisionBuilt (task w) (task w') rpc0.
Proof.
  unfold sendDecisionRpc.
  pose proof (sendDecisionLoop_task
                (length (commitCache (task w)) - nextCacheEntry (task w))
                (objectFinder (ramcloud w)) (task w) None) as [Hc _].
  pose proof (sendDecisionLoop_built
                (length (commitCache (task w)) - nextCacheEntry (task w))
                (objectFinder (ramcloud w)) (task w) (task w) None
                (sameControl_refl _) (Nat.le_refl _) (λ _ _, eq_refl)) as Hb.
  destruct (sendDecisionLoop _ _ _ _ _ _) as [t' [[s rpc0]|]]; simpl in *;
    apply sameControl_fields in Hc as (_ & _ & _ & _ & _ & _ & Hp & _);
    rewrite Hp; intros Heq.
  - apply app_inv_head in Heq. simplify_eq. eexists. split; [done|].
    by apply (Hb ltac:(done) s).
  - apply (f_equal length) in Heq. rewrite length_app in Heq. simpl in Heq. lia.
Qed.

(** X6: the request that a call of [sendPrepareRpc] sends carries the
    participant list, the participant count and the lease of the task and
    the acknowledgment cursor of the tracker; its operations are positions
    of the cache in increasing order among the entries the cursor passed in
    this call, each of an entry that was not [PREPARE] before the call and
    is [PREPARE] after it, with one operation on the wire for each, of the
    type, table and id of its entry. *)
Theorem sendPrepareRpc_request w rpc :
  let w' := sendPrepareRpc objectFinder_lookup PrepareRpc_MAX_OBJECTS_PER_RPC w in
  prepareRpcs (task w') = prepareRpcs (task w) ++ [rpc] →
  p_participants rpc = participantList (task w)
  ∧ p_participantCount rpc = participantCount (task w)
  ∧ p_lease rpc = lease (task w)
  ∧ p_ackId rpc = tr_ackId (rpcTracker (ramcloud w))
  ∧ length (p_ops rpc) = p_opCount rpc
  ∧ OpsBuilt CacheEntry.PREPARE (commitCache (task w)) (commitCache (task w'))
      (nextCacheEntry (task w)) (nextCacheEntry (task w')) (p_ops rpc)
  ∧ Forall2 (λ op o, ∃ ke, commitCache (task w) !! op = Some ke
                           ∧ prepareOpOf ke = Some o)
      (p_ops rpc) (p_request rpc).
Proof.
  intros w' Hsent.
  destruct (sendPrepareRpc_sent w rpc Hsent)
    as (rpc0 & -> & B1 & B2 & B3 & B4 & B5 & B6 & B7).
  simpl. split; [exact B1|]. split; [exact B2|]. split; [exact B3|].
  split; [done|]. split; [exact B5|]. split; [exact B6|exact B7].
Qed.

(** X7: the request that a call of [sendDecisionRpc] sends carries the
    decision and the lease id of the task; its operations are positions of
    the cache in increasing order among the entries the cursor passed in
    this call, each of an entry that was not [DECIDE] before the call and is
    [DECIDE] after it, and the request lists the participant record
    (tableId, keyHash, rpcId) of each. *)
Theorem sendDecisionRpc_request w rpc :
  let w' := sendDecisionRpc objectFinder_lookup DecisionRpc_MAX_OBJECTS_PER_RPC w in
  decisionRpcs (task w') = decisionRpcs (task w) ++ [rpc] →
  d_decision rpc = decision (task w)
  ∧ d_leaseId rpc = leaseId (lease (task w))
  ∧ length (d_ops rpc) = d_participantCount rpc
  ∧ OpsBuilt CacheEntry.DECIDE (commitCache (task w)) (commitCache (task w'))
      (nextCacheEntry (task w)) (nextCacheEntry (task w')) (d_ops rpc)
  ∧ d_request rpc
    = omap (λ op, participantOf <$> commitCache (task w) !! op) (d_ops rpc).
Proof.
  intros w' Hsent.
  destruct (sendDecisionRpc_sent w rpc Hsent)
    as (rpc0 & -> & B1 & B2 & B3 & B4 & B5 & B6).
  simpl. split; [exact B1|]. split; [exact B2|]. split; [exact B4|].
  split; [exact B5|]. clear -B6. induction B6 as [|op p ops ps (ke & Hl & <-) _ IH]; [done|].
  simpl. rewrite Hl. simpl. by rewrite IH.
Qed.

(** X8: a call of [sendPrepareRpc] never moves the cursor backwards or
    beyond the end of the cache; with the cursor at the end it changes
    nothing; and when the capacity of a request is not zero and the cursor
    is not at the end, the cursor advances by one entry at least. *)
Theorem sendPrepareRpc_cursor w :
  let w' := sendPrepareRpc objectFinder_lookup PrepareRpc_MAX_OBJECTS_PER_RPC w in
  nextCacheEntry (task w) ≤ nextCacheEntry (task w')
  ∧ (nextCacheEntry (task w) ≤ length (commitCache (task w)) →
     nextCacheEntry (task w') ≤ length (commitCache (task w')))
  ∧ (length (commitCache (task w)) ≤ nextCacheEntry (task w) → w' = w)
  ∧ (0 < PrepareRpc_MAX_OBJECTS_PER_RPC →
     nextCacheEntry (task w) < length (commitCache (task w)) →
     nextCacheEntry (task w) < nextCacheEntry (task w')).
Proof.
  unfold sendPrepareRpc.
  set (n := length (commitCache (task w)) - nextCacheEntry (task w)).
  pose proof (sendPrepareLoop_scan n (objectFinder (ramcloud w)) (task w) None)
    as (S1 & S2 & S3 & _).
  pose proof (sendPrepareLoop_task n (objectFinder (ramcloud w)) (task w) None)
    as [_ Hrel]. apply CacheRel_length in Hrel.
  assert (nextCacheEntry
            (match sendPrepareLoop objectFinder_lookup
                     PrepareRpc_MAX_OBJECTS_PER_RPC n (objectFinder (ramcloud w))
                     (task w) None with
             | (t', None) => mkWorld (ramcloud w) t'
             | (t', Some (_, nextRpc)) =>
                 mkWorld
                   (mkRamCloud (objectFinder (ramcloud w))
                      (clientLease (ramcloud w)) (rpcTracker (ramcloud w))
                      (flushedSessions (ramcloud w))
                      (sentPrepares (ramcloud w)
                         ++ [PrepareRpc_send (ramcloud w) nextRpc])
                      (sentDecisions (ramcloud w)))
                   (set_prepareRpcs
                      (prepareRpcs t' ++ [PrepareRpc_send (ramcloud w) nextRpc])
                      t')
             end).(task)
          = nextCacheEntry
              (sendPrepareLoop objectFinder_lookup PrepareRpc_MAX_OBJECTS_PER_RPC
                 n (objectFinder (ramcloud w)) (task w) None).1
          ∧ length (commitCache
              (match sendPrepareLoop objectFinder_lookup
                       PrepareRpc_MAX_OBJECTS_PER_RPC n
                       (objectFinder (ramcloud w)) (task w) None with
               | (t', None) => mkWorld (ramcloud w) t'
               | (t', Some (_, nextRpc)) =>
                   mkWorld
                     (mkRamCloud (objectFinder (ramcloud w))
                        (clientLease (ramcloud w)) (rpcTracker (ramcloud w))
                        (flushedSessions (ramcloud w))
                        (sentPrepares (ramcloud w)
                           ++ [PrepareRpc_send (ramcloud w) nextRpc])
                        (sentDecisions (ramcloud w)))
                     (set_prepareRpcs
                        (prepareRpcs t'
                           ++ [PrepareRpc_send (ramcloud w) nextRpc]) t')
               end).(task))
            = length (commitCache (task w))) as [-> ->].
  { by destruct (sendPrepareLoop _ _ _ _ _ _) as [t' [[s rpc]|]]. }
  split; [done|]. split; [done|]. split.
  - intros Hend. replace n with 0 by lia. simpl. by destruct w.
  - intros Hmax Hlt. destruct n as [|n'] eqn:Hn; [lia|]. simpl.
    destruct (commitCache (task w) !! nextCacheEntry (task w)) as [[key e]|]
      eqn:Hl; [|apply lookup_ge_None_1 in Hl; lia].
    destruct (decide (e_state e = CacheEntry.PREPARE)).
    + pose proof (sendPrepareLoop_scan n' (objectFinder (ramcloud w))
                    (advance (task w)) None) as (T1 & _).
      simpl in T1. lia.
    + unfold sameLocator. rewrite bool_decide_eq_true_2 by done. simpl.
      rewrite (proj2 (Nat.ltb_lt _ _) Hmax).
      destruct (PrepareRpc_appendOp _ _ _) as [rpc' t'] eqn:Ha.
      pose proof (PrepareRpc_appendOp_cursor (nextCacheEntry (task w))
                    (newPrepareRpc
                       (objectFinder_lookup (objectFinder (ramcloud w))
                          (tableId key) (keyHash key)) (task w)) (task w)) as Hc.
      rewrite Ha in Hc. simpl in Hc.
      match goal with |- context [sendPrepareLoop _ _ n' ?f (advance t') ?c] =>
        pose proof (sendPrepareLoop_scan n' f (advance t') c) as (T1 & _) end.
      simpl in T1. lia.
Qed.

(** X9: a call of [sendDecisionRpc] never moves the cursor backwards or
    beyond the end of the commit cache; with the cursor at the end it
    changes nothing; and when a request may hold an operation and the
    cursor is not at the end, the call moves the cursor forward. *)
Theorem sendDecisionRpc_cursor w :
  let w' := sendDecisionRpc objectFinder_lookup DecisionRpc_MAX_OBJECTS_PER_RPC w in
  nextCacheEntry (task w) ≤ nextCacheEntry (task w')
  ∧ (nextCacheEntry (task w) ≤ length (commitCache (task w)) →
     nextCacheEntry (task w') ≤ length (commitCache (task w')))
  ∧ (length (commitCache (task w)) ≤ nextCacheEntry (task w) → w' = w)
  ∧ (0 < DecisionRpc_MAX_OBJECTS_PER_RPC →
     nextCacheEntry (task w) < length (commitCache (task w)) →
     nextCacheEntry (task w) < nextCacheEntry (task w')).
Proof.
  unfold sendDecisionRpc.
  set (n := length (commitCache (task w)) - nextCacheEntry (task w)).
  pose proof (sendDecisionLoop_scan n (objectFinder (ramcloud w)) (task w) None)
    as (S1 & S2 & S3 & _).
  pose proof (sendDecisionLoop_task n (objectFinder (ramcloud w)) (task w) None)
    as [_ Hrel]. apply CacheRel_length in Hrel.
  assert (nextCacheEntry
            (match sendDecisionLoop objectFinder_lookup
                     DecisionRpc_MAX_OBJECTS_PER_RPC n (objectFinder (ramcloud w))
                     (task w) None with
             | (t', None) => mkWorld (ramcloud w) t'
             | (t', Some (_, nextRpc)) =>
                 mkWorld
                   (mkRamCloud (objectFinder (ramcloud w))
                      (clientLease (ramcloud w)) (rpcTracker (ramcloud w))
                      (flushedSessions (ramcloud w)) (sentPrepares (ramcloud w))
                      (sentDecisions (ramcloud w) ++ [DecisionRpc_send nextRpc]))
                   (set_decisionRpcs
                      (decisionRpcs t' ++ [DecisionRpc_send nextRpc]) t')
             end).(task)
          = nextCacheEntry
              (sendDecisionLoop objectFinder_lookup
                 DecisionRpc_MAX_OBJECTS_PER_RPC
                 n (objectFinder (ramcloud w)) (task w) None).1
          ∧ length (commitCache
              (match sendDecisionLoop objectFinder_lookup
                       DecisionRpc_MAX_OBJECTS_PER_RPC n
                       (objectFinder (ramcloud w)) (task w) None with
               | (t', None) => mkWorld (ramcloud w) t'
               | (t', Some (_, nextRpc)) =>
                   mkWorld
                     (mkRamCloud (objectFinder (ramcloud w))
                        (clientLease (ramcloud w)) (rpcTracker (ramcloud w))
                        (flushedSessions (ramcloud w))
                        (sentPrepares (ramcloud w))
                        (sentDecisions (ramcloud w)
                           ++ [DecisionRpc_send nextRpc]))
                     (set_decisionRpcs
                        (decisionRpcs t' ++ [DecisionRpc_send nextRpc]) t')
               end).(task))
            = length (commitCache (task w))) as [-> ->].
  { by destruct (sendDecisionLoop _ _ _ _ _ _) as [t' [[s rpc]|]]. }
  split; [done|]. split; [done|]. split.
  - intros Hend. replace n with 0 by lia. simpl. by destruct w.
  - intros Hmax Hlt. destruct n as [|n'] eqn:Hn; [lia|]. simpl.
    destruct (commitCache (task w) !! nextCacheEntry (task w)) as [[key e]|]
      eqn:Hl; [|apply lookup_ge_None_1 in Hl; lia].
    destruct (decide (e_state e = CacheEntry.DECIDE)).
    + pose proof (sendDecisionLoop_scan n' (objectFinder (ramcloud w))
                    (advance (task w)) None) as (T1 & _).
      simpl in T1. lia.
    + unfold sameLocator. rewrite bool_decide_eq_true_2 by done. simpl.
      rewrite (proj2 (Nat.ltb_lt _ _) Hmax).
      destruct (DecisionRpc_appendOp _ _ _) as [rpc' t'] eqn:Ha.
      pose proof (DecisionRpc_appendOp_cursor (nextCacheEntry (task w))
                    (newDecisionRpc
                       (objectFinder_lookup (objectFinder (ramcloud w))
                          (tableId key) (keyHash key)) (task w)) (task w)) as Hc.
      rewrite Ha in Hc. simpl in Hc.
      match goal with |- context [sendDecisionLoop _ _ n' ?f (advance t') ?c] =>
        pose proof (sendDecisionLoop_scan n' f (advance t') c) as (T1 & _) end.
      simpl in T1. lia.
Qed.

(** ** The batchers on the world *)

(** Everything else a call of [sendPrepareRpc] does or leaves alone. *)
Lemma sendPrepareRpc_facts w :
  let w' := sendPrepareRpc objectFinder_lookup PrepareRpc_MAX_OBJECTS_PER_RPC w in
  (lease (task w') = lease (task w)
   ∧ participantList (task w') = participantList (task w)
   ∧ participantCount (task w') = participantCount (task w)
   ∧ objectFinder (ramcloud w') = objectFinder (ramcloud w)
   ∧ clientLease (ramcloud w') = clientLease (ramcloud w)
   ∧ flushedSessions (ramcloud w') = flushedSessions (ramcloud w))
  ∧ (nextCacheEntry (task w) ≤ nextCacheEntry (task w')
     ∧ (nextCacheEntry (task w) ≤ length (commitCache (task w)) →
        nextCacheEntry (task w') ≤ length (commitCache (task w)))
     ∧ (∀ i, i < nextCacheEntry (task w) ∨ nextCacheEntry (task w') ≤ i →
             commitCache (task w') !! i = commitCache (task w) !! i)
     ∧ (∀ i key e', nextCacheEntry (task w) ≤ i < nextCacheEntry (task w') →
                    commitCache (task w') !! i = Some (key, e') →
                    e_type e' ≠ CacheEntry.INVALID →
                    e_state e' = CacheEntry.PREPARE))
  ∧ ((prepareRpcs (task w') = prepareRpcs (task w)
      ∧ sentPrepares (ramcloud w') = sentPrepares (ramcloud w))
     ∨ ∃ rpc0,
         prepareRpcs (task w')
         = prepareRpcs (task w) ++ [PrepareRpc_send (ramcloud w) rpc0]
         ∧ sentPrepares (ramcloud w')
           = sentPrepares (ramcloud w) ++ [PrepareRpc_send (ramcloud w) rpc0]
         ∧ PrepareBuilt (task w) (task w') rpc0).
Proof.
  unfold sendPrepareRpc.
  set (n := length (commitCache (task w)) - nextCacheEntry (task w)).
  pose proof (sendPrepareLoop_scan n (objectFinder (ramcloud w)) (task w) None)
    as (S1 & _ & S3 & S4 & S5).
  pose proof (sendPrepareLoop_task n (objectFinder (ramcloud w)) (task w) None)
    as [Hc _].
  pose proof (sendPrepareLoop_built n (objectFinder (ramcloud w)) (task w)
                (task w) None (sameControl_refl _) (Nat.le_refl _)
                (λ _ _, eq_refl)) as Hb.
  apply sameControl_fields in Hc as (_ & _ & _ & _ & Hle & Hp & _ & Hpc & Hpl).
  destruct (sendPrepareLoop _ _ _ _ _ _) as [t' [[s rpc0]|]]; simpl in *.
  - split; [done|]. split; [done|]. right. exists rpc0.
    split; [by rewrite Hp|]. split; [done|]. by apply (Hb ltac:(done) s).
  - split; [done|]. split; [done|]. by left.
Qed.

Lemma sendDecisionRpc_facts w :
  let w' := sendDecisionRpc objectFinder_lookup DecisionRpc_MAX_OBJECTS_PER_RPC w in
  (lease (task w') = lease (task w)
   ∧ participantList (task w') = participantList (task w)
   ∧ participantCount (task w') = participantCount (task w)
   ∧ objectFinder (ramcloud w') = objectFinder (ramcloud w)
   ∧ clientLease (ramcloud w') = clientLease (ramcloud w)
   ∧ flushedSessions (ramcloud w') = flushedSessions (ramcloud w))
  ∧ (nextCacheEntry (task w) ≤ nextCacheEntry (task w')
     ∧ (nextCacheEntry (task w) ≤ length (commitCache (task w)) →
        nextCacheEntry (task w') ≤ length (commitCache (task w)))
     ∧ (∀ i, i < nextCacheEntry (task w) ∨ nextCacheEntry (task w') ≤ i →
             commitCache (task w') !! i = commitCache (task w) !! i)
     ∧ (∀ i key e', nextCacheEntry (task w) ≤ i < nextCacheEntry (task w') →
                    commitCache (task w') !! i = Some (key, e') →
                    e_state e' = CacheEntry.DECIDE))
  ∧ ((decisionRpcs (task w') = decisionRpcs (task w)
      ∧ sentDecisions (ramcloud w') = sentDecisions (ramcloud w))
     ∨ ∃ rpc0,
         decisionRpcs (task w')
         = decisionRpcs (task w) ++ [DecisionRpc_send rpc0]
         ∧ sentDecisions (ramcloud w')
           = sentDecisions (ramcloud w) ++ [DecisionRpc_send rpc0]
         ∧ DecisionBuilt (task w) (task w') rpc0).
Proof.
  unfold sendDecisionRpc.
  set (n := length (commitCache (task w)) - nextCacheEntry (task w)).
  pose proof (sendDecisionLoop_scan n (objectFinder (ramcloud w)) (task w) None)
    as (S1 & _ & S3 & S4 & S5).
  pose proof (sendDecisionLoop_task n (objectFinder (ramcloud w)) (task w) None)
    as [Hc _].
  pose proof (sendDecisionLoop_built n (objectFinder (ramcloud w)) (task w)
                (task w) None (sameControl_refl _) (Nat.le_refl _)
                (λ _ _, eq_refl)) as Hb.
  apply sameControl_fields in Hc as (_ & _ & _ & _ & Hle & _ & Hp & Hpc & Hpl).
  destruct (sendDecisionLoop _ _ _ _ _ _) as [t' [[s rpc0]|]]; simpl in *.
  - split; [done|]. split; [done|]. right. exists rpc0.
    split; [by rewrite Hp|]. split; [done|]. by apply (Hb ltac:(done) s).
  - split; [done|]. split; [done|]. by left.
Qed.


(** ** The shape of the blocks *)

Lemma processPrepareRpcs_fatal t (st : Status) t' :
  processPrepareRpcs wrap t = Thrown st t' → fatal st.
Proof.
  unfold processPrepareRpcs.
  destruct (drain _ _ _ _ _) as [[rpcs d]|e0 [rpcs d]] eqn:Hd; [done|].
  intros ?; simplify_eq.
  destruct (drain_thrown _ _ _ _ _ _ _ Hd) as (rpc & s0 & s1 & _ & _ & Hb).
  by apply processPrepareRpc_thrown in Hb as (_ & ? & ?).
Qed.

Lemma processDecisionRpcs_fatal t (st : Status) t' :
  processDecisionRpcs wrap t = Thrown st t' → fatal st.
Proof.
  unfold processDecisionRpcs.
  destruct (drain _ _ _ _ _) as [[rpcs d]|e0 [rpcs d]] eqn:Hd; [done|].
  intros ?; simplify_eq.
  destruct (drain_thrown _ _ _ _ _ _ _ Hd) as (rpc & s0 & s1 & _ & _ & Hb).
  by apply processDecisionRpc_thrown in Hb as (_ & ? & ?).
Qed.

Lemma atEnd_true t :
  atEnd t = true ↔ nextCacheEntry t = length (commitCache t).
Proof. unfold atEnd. apply Nat.eqb_eq. Qed.

(** The block [if (state == PREPARE)] is: collect, then batch, then
    perhaps enter the decision phase. *)
Lemma prepareBlock_shape w :
  state (task w) = PREPARE →
  ∃ rpcs d,
    sublist rpcs (prepareRpcs (task w))
    ∧ (d = decision (task w) ∨ d = TxDecision.ABORT)
    ∧ payload (processPrepareRpcs wrap (task w))
      = set_decision d (set_prepareRpcs rpcs (task w))
    ∧ let w1 :=
        mkWorld (ramcloud w) (set_decision d (set_prepareRpcs rpcs (task w))) in
      let w2 := sendPrepareRpc objectFinder_lookup
                  PrepareRpc_MAX_OBJECTS_PER_RPC w1 in
      let o := prepareBlock objectFinder_lookup PrepareRpc_MAX_OBJECTS_PER_RPC
                 wrap w in
      (∃ st, fatal st ∧ o = Thrown st w1)
      ∨ (o = Normal w2
         ∧ ¬ (prepareRpcs (task w2) = []
              ∧ nextCacheEntry (task w2) = length (commitCache (task w2))))
      ∨ (o = Normal (on_task enterDecision w2)
         ∧ prepareRpcs (task w2) = []
         ∧ nextCacheEntry (task w2) = length (commitCache (task w2))).
Proof.
  intros Hs. unfold prepareBlock. rewrite decide_True by done.
  destruct (processPrepareRpcs_payload (task w)) as (rpcs & d & Hp & Hsub & Hd).
  exists rpcs, d. split; [done|]. split; [done|]. split; [done|].
  destruct (processPrepareRpcs wrap (task w)) as [t1|st t1] eqn:Hproc;
    simpl in Hp; subst t1; simpl.
  - right.
    destruct (isEmpty (prepareRpcs _) && atEnd _) eqn:Hb.
    + right. apply andb_true_iff in Hb as [H1 H2].
      apply isEmpty_true in H1. apply atEnd_true in H2. done.
    + left. split; [done|]. intros [H1 H2].
      apply isEmpty_true in H1. apply atEnd_true in H2.
      rewrite H1, H2 in Hb. done.
  - left. exists st. split; [|done]. by eapply processPrepareRpcs_fatal.
Qed.

Lemma decisionBlock_shape w :
  state (task w) = DECISION →
  ∃ rpcs,
    sublist rpcs (decisionRpcs (task w))
    ∧ payload (processDecisionRpcs wrap (task w))
      = set_decisionRpcs rpcs (task w)
    ∧ let w1 := mkWorld (ramcloud w) (set_decisionRpcs rpcs (task w)) in
      let w2 := sendDecisionRpc objectFinder_lookup
                  DecisionRpc_MAX_OBJECTS_PER_RPC w1 in
      let o := decisionBlock objectFinder_lookup
                 DecisionRpc_MAX_OBJECTS_PER_RPC wrap w in
      (∃ st, fatal st ∧ o = Thrown st w1)
      ∨ (o = Normal w2
         ∧ ¬ (decisionRpcs (task w2) = []
              ∧ nextCacheEntry (task w2) = length (commitCache (task w2))))
      ∨ (o = Normal (mkWorld (rpcFinished (txId (task w2)) (ramcloud w2))
                       (set_state DONE (task w2)))
         ∧ decisionRpcs (task w2) = []
         ∧ nextCacheEntry (task w2) = length (commitCache (task w2))).
Proof.
  intros Hs. unfold decisionBlock. rewrite decide_True by done.
  destruct (processDecisionRpcs_payload (task w)) as (rpcs & Hp & Hsub).
  exists rpcs. split; [done|]. split; [done|].
  destruct (processDecisionRpcs wrap (task w)) as [t1|st t1] eqn:Hproc;
    simpl in Hp; subst t1; simpl.
  - right.
    destruct (isEmpty (decisionRpcs _) && atEnd _) eqn:Hb.
    + right. apply andb_true_iff in Hb as [H1 H2].
      apply isEmpty_true in H1. apply atEnd_true in H2. done.
    + left. split; [done|]. intros [H1 H2].
      apply isEmpty_true in H1. apply atEnd_true in H2.
      rewrite H1, H2 in Hb. done.
  - left. exists st. split; [|done]. by eapply processDecisionRpcs_fatal.
Qed.

(** ** Invariants of performTask *)

Section PerformTaskInv.
Variable I : World → Prop.
Hypothesis I_init : ∀ w, state (task w) = INIT → I w → I (initBlock w).
Hypothesis I_prepare : ∀ w,
  state (task w) = PREPARE → I w →
  I (payload (prepareBlock objectFinder_lookup
                PrepareRpc_MAX_OBJECTS_PER_RPC wrap w)).
Hypothesis I_decision : ∀ w,
  state (task w) = DECISION → I w →
  I (payload (decisionBlock objectFinder_lookup
                DecisionRpc_MAX_OBJECTS_PER_RPC wrap w)).
Hypothesis I_catch : ∀ (st : Status) w,
  fatal st → state (task w) = PREPARE ∨ state (task w) = DECISION →
  I w → I (catchClientException st w).

Lemma decision_part_inv w :
  I w →
  I match decisionBlock objectFinder_lookup
            DecisionRpc_MAX_OBJECTS_PER_RPC wrap w with
    | Normal w' => w'
    | Thrown st w' => catchClientException st w'
    end.
Proof.
  intros Hw. destruct (decide (state (task w) = DECISION)) as [Hs|Hs].
  - pose proof (I_decision w Hs Hw) as Hd.
    destruct (decisionBlock_shape w Hs) as (rpcs & _ & _ & Hm).
    pose proof (decisionBlock_spec w Hs) as (_ & _ & _ & _ & Hsp).
    simpl in Hm.
    destruct Hm as [(st & Hf & Ho)|[[Ho _]|[Ho _]]]; rewrite Ho in *;
      simpl in *; try done.
    apply I_catch; [done| |done]. right. by destruct Hsp as (_ & ? & _).
  - by rewrite decisionBlock_other.
Qed.

(** A property of worlds that every block and the [catch] clause keep is
    kept by [performTask]. *)
Lemma performTask_inv w :
  I w →
  I (performTask objectFinder_lookup PrepareRpc_MAX_OBJECTS_PER_RPC
       DecisionRpc_MAX_OBJECTS_PER_RPC wrap w).
Proof.
  intros Hw. unfold performTask, tryBlock.
  assert (I (initBlock w)) as H1.
  { destruct (decide (state (task w) = INIT)) as [Hs|Hs]; [by apply I_init|].
    by rewrite initBlock_other. }
  clear Hw. revert H1. generalize (initBlock w). clear w. intros w Hw.
  destruct (decide (state (task w) = PREPARE)) as [Hs|Hs].
  - pose proof (I_prepare w Hs Hw) as Hp.
    destruct (prepareBlock_shape w Hs) as (rpcs & d & _ & _ & _ & Hm).
    pose proof (prepareBlock_spec w Hs) as (_ & _ & _ & _ & _ & Hsp).
    simpl in Hm.
    destruct Hm as [(st & Hf & Ho)|[[Ho _]|[Ho _]]]; rewrite Ho in *;
      simpl in *; try by apply decision_part_inv.
    apply I_catch; [done| |done]. left. by destruct Hsp as (_ & ?).
  - rewrite prepareBlock_other by done. simpl. by apply decision_part_inv.
Qed.
End PerformTaskInv.

(** ** The shape of a delivery *)

(** A retry touches the cache and the cursor of the task only; it either
    has not run, or has run and left the cursor at the beginning. *)
Lemma retryRequest_task ops w :
  let w' := on_task (set_nextCacheEntry 0) (retryLoop objectFinder_flush ops w) in
  lease (task w') = lease (task w)
  ∧ participantList (task w') = participantList (task w)
  ∧ participantCount (task w') = participantCount (task w)
  ∧ clientLease (ramcloud w') = clientLease (ramcloud w)
  ∧ flushedSessions (ramcloud w') = flushedSessions (ramcloud w)
  ∧ nextCacheEntry (task w') = 0.
Proof.
  destruct (retryLoop_spec ops w) as (Ht & _ & _ & H1 & _ & H3 & _).
  simpl. rewrite Ht. unfold_updates. by repeat split.
Qed.

Lemma deliver_task ev w w' :
  deliver objectFinder_flush ev w = Some w' →
  lease (task w') = lease (task w)
  ∧ participantList (task w') = participantList (task w)
  ∧ participantCount (task w') = participantCount (task w)
  ∧ clientLease (ramcloud w') = clientLease (ramcloud w)
  ∧ ((commitCache (task w') = commitCache (task w)
      ∧ nextCacheEntry (task w') = nextCacheEntry (task w))
     ∨ nextCacheEntry (task w') = 0).
Proof.
  destruct ev as [j|j st v|j|j st]; simpl;
    [destruct (prepareRpcs (task w) !! j) as [rpc|] eqn:Hj
    |destruct (prepareRpcs (task w) !! j) as [rpc|] eqn:Hj
    |destruct (decisionRpcs (task w) !! j) as [rpc|] eqn:Hj
    |destruct (decisionRpcs (task w) !! j) as [rpc|] eqn:Hj];
    simpl; try done; case_decide; try done; intros ?; simplify_eq.
  - unfold PrepareRpc_handleTransportError. unfold_updates.
    destruct (<[j:=_]> (prepareRpcs (task w)) !! j) as [rpc'|];
      [|by repeat split; auto].
    unfold PrepareRpc_retryRequest.
    match goal with |- context [retryLoop _ ?ops ?w1] =>
      destruct (retryRequest_task ops w1) as (? & ? & ? & ? & ? & ?) end.
    unfold_updates. destruct (p_session rpc'); simpl in *; repeat split; auto.
  - unfold PrepareRpc_checkStatus. case_decide; [|by repeat split; auto].
    unfold PrepareRpc_retryRequest.
    match goal with |- context [retryLoop _ ?ops ?w1] =>
      destruct (retryRequest_task ops w1) as (? & ? & ? & ? & ? & ?) end.
    unfold_updates. repeat split; auto.
  - unfold DecisionRpc_handleTransportError. unfold_updates.
    destruct (<[j:=_]> (decisionRpcs (task w)) !! j) as [rpc'|];
      [|by repeat split; auto].
    unfold DecisionRpc_retryRequest.
    match goal with |- context [retryLoop _ ?ops ?w1] =>
      destruct (retryRequest_task ops w1) as (? & ? & ? & ? & ? & ?) end.
    unfold_updates. destruct (d_session rpc'); simpl in *; repeat split; auto.
  - unfold DecisionRpc_checkStatus. case_decide; [|by repeat split; auto].
    unfold DecisionRpc_retryRequest.
    match goal with |- context [retryLoop _ ?ops ?w1] =>
      destruct (retryRequest_task ops w1) as (? & ? & ? & ? & ? & ?) end.
    unfold_updates. repeat split; auto.
Qed.

Lemma retryLoop_pipelines ops w :
  prepareRpcs (task (retryLoop objectFinder_flush ops w)) = prepareRpcs (task w)
  ∧ decisionRpcs (task (retryLoop objectFinder_flush ops w))
    = decisionRpcs (task w).
Proof.
  destruct (retryLoop_spec ops w) as (Ht & _). rewrite Ht. by unfold_updates.
Qed.

(** A delivery completes one request that was in progress, in its place
    in its pipeline, and leaves the other requests and the other
    pipeline alone. *)
Lemma deliver_pipelines ev w w' :
  deliver objectFinder_flush ev w = Some w' →
  match ev with
  | PrepareFailed j =>
      decisionRpcs (task w') = decisionRpcs (task w)
      ∧ ∃ rpc rpc', prepareRpcs (task w) !! j = Some rpc
          ∧ p_state rpc = IN_PROGRESS
          ∧ prepareRpcs (task w') = <[j := rpc']> (prepareRpcs (task w))
          ∧ p_state rpc' = FAILED
  | PrepareResponse j st v =>
      decisionRpcs (task w') = decisionRpcs (task w)
      ∧ ∃ rpc, prepareRpcs (task w) !! j = Some rpc
          ∧ p_state rpc = IN_PROGRESS
          ∧ prepareRpcs (task w')
            = <[j := PrepareRpc_complete FINISHED st v rpc]>
                (prepareRpcs (task w))
  | DecisionFailed j =>
      prepareRpcs (task w') = prepareRpcs (task w)
      ∧ ∃ rpc rpc', decisionRpcs (task w) !! j = Some rpc
          ∧ d_state rpc = IN_PROGRESS
          ∧ decisionRpcs (task w') = <[j := rpc']> (decisionRpcs (task w))
          ∧ d_state rpc' = FAILED
  | DecisionResponse j st =>
      prepareRpcs (task w') = prepareRpcs (task w)
      ∧ ∃ rpc, decisionRpcs (task w) !! j = Some rpc
          ∧ d_state rpc = IN_PROGRESS
          ∧ decisionRpcs (task w')
            = <[j := DecisionRpc_complete FINISHED st rpc]>
                (decisionRpcs (task w))
  end.
Proof.
  destruct ev as [j|j st v|j|j st]; simpl;
    [destruct (prepareRpcs (task w) !! j) as [rpc|] eqn:Hj
    |destruct (prepareRpcs (task w) !! j) as [rpc|] eqn:Hj
    |destruct (decisionRpcs (task w) !! j) as [rpc|] eqn:Hj
    |destruct (decisionRpcs (task w) !! j) as [rpc|] eqn:Hj];
    simpl; try done; case_decide; try done; intros ?; simplify_eq.
  - unfold PrepareRpc_handleTransportError. unfold_updates.
    rewrite list_lookup_insert_eq by by eapply lookup_lt_Some.
    unfold PrepareRpc_retryRequest. unfold on_task; simpl.
    match goal with |- context [retryLoop _ ?ops ?w1] =>
      destruct (retryLoop_pipelines ops w1) as [-> ->] end.
    destruct (p_session rpc); unfold_updates.
    + split; [done|]. eexists rpc, _. split; [done|]. split; [done|].
      split; [by rewrite list_insert_insert_eq|]. done.
    + split; [done|]. eexists rpc, _. split; [done|]. split; [done|].
      split; [done|]. done.
  - unfold PrepareRpc_checkStatus. simpl. case_decide.
    + unfold PrepareRpc_retryRequest. unfold on_task; simpl.
      match goal with |- context [retryLoop _ ?ops ?w1] =>
        destruct (retryLoop_pipelines ops w1) as [-> ->] end.
      unfold_updates. split; [done|]. by exists rpc.
    + unfold_updates. split; [done|]. by exists rpc.
  - unfold DecisionRpc_handleTransportError. unfold_updates.
    rewrite list_lookup_insert_eq by by eapply lookup_lt_Some.
    unfold DecisionRpc_retryRequest. unfold on_task; simpl.
    match goal with |- context [retryLoop _ ?ops ?w1] =>
      destruct (retryLoop_pipelines ops w1) as [-> ->] end.
    destruct (d_session rpc); unfold_updates.
    + split; [done|]. eexists rpc, _. split; [done|]. split; [done|].
      split; [by rewrite list_insert_insert_eq|]. done.
    + split; [done|]. eexists rpc, _. split; [done|]. split; [done|].
      split; [done|]. done.
  - unfold DecisionRpc_checkStatus. simpl. case_decide.
    + unfold DecisionRpc_retryRequest. unfold on_task; simpl.
      match goal with |- context [retryLoop _ ?ops ?w1] =>
        destruct (retryLoop_pipelines ops w1) as [-> ->] end.
      unfold_updates. split; [done|]. by exists rpc.
    + unfold_updates. split; [done|]. by exists rpc.
Qed.

(** A delivery needs a request in a pipeline and changes the length of
    neither. *)
Lemma deliver_lengths ev w w' :
  deliver objectFinder_flush ev w = Some w' →
  length (prepareRpcs (task w')) = length (prepareRpcs (task w))
  ∧ length (decisionRpcs (task w')) = length (decisionRpcs (task w))
  ∧ (prepareRpcs (task w) ≠ [] ∨ decisionRpcs (task w) ≠ []).
Proof.
  intros Hd. apply deliver_pipelines in Hd.
  destruct ev as [j|j st v|j|j st].
  - destruct Hd as (-> & rpc & rpc' & Hj & _ & -> & _).
    rewrite length_insert. repeat split. left. by intros Hn; rewrite Hn in Hj.
  - destruct Hd as (-> & rpc & Hj & _ & ->).
    rewrite length_insert. repeat split. left. by intros Hn; rewrite Hn in Hj.
  - destruct Hd as (-> & rpc & rpc' & Hj & _ & -> & _).
    rewrite length_insert. repeat split. right. by intros Hn; rewrite Hn in Hj.
  - destruct Hd as (-> & rpc & Hj & _ & ->).
    rewrite length_insert. repeat split. right. by intros Hn; rewrite Hn in Hj.
Qed.

(** ** The pipelines and the state of the task *)

Lemma PhaseInv_init w :
  state (task w) = INIT → PhaseInv w → PhaseInv (initBlock w).
Proof.
  intros Hs (H1 & _ & _ & _ & H5 & H6).
  destruct (H1 Hs) as (P1 & P2 & P3 & P4 & _).
  destruct (initBlock_spec w Hs) as (F1 & F2 & F3 & F4 & F5 & F6 & F7 & F8 & F9).
  unfold PhaseInv. rewrite F1, F2, F5, F8.
  repeat split; try congruence. intros _. apply H5. congruence.
Qed.

Lemma PhaseInv_prepare w :
  state (task w) = PREPARE → PhaseInv w →
  PhaseInv (payload (prepareBlock objectFinder_lookup
                       PrepareRpc_MAX_OBJECTS_PER_RPC wrap w)).
Proof.
  intros Hs (_ & H2 & _ & _ & H5 & H6).
  destruct (H2 Hs) as (P1 & P2).
  assert (status (task w) = STATUS_OK) as Hst by (apply H5; congruence).
  destruct (prepareBlock_shape w Hs) as (rpcs & d & _ & _ & _ & Hm).
  simpl in Hm.
  match type of Hm with context [sendPrepareRpc _ _ ?w1] =>
    destruct (sendPrepareRpc_frame w1) as (F1 & F2 & F3 & F4 & F5 & F6 & F7 & F8)
  end.
  unfold_updates.
  set (w2 := sendPrepareRpc _ _ _) in *. clearbody w2.
  destruct Hm as [(st & Hf & ->)|[[-> _]|(-> & He & _)]]; simpl;
    unfold PhaseInv; unfold_updates.
  - rewrite Hs, P1, P2, Hst. repeat split; congruence.
  - rewrite F1, F2, F5, F7, Hs, P1, P2, Hst. repeat split; congruence.
  - rewrite F2, He, Hst. repeat split; congruence.
Qed.

Lemma PhaseInv_decision w :
  state (task w) = DECISION → PhaseInv w →
  PhaseInv (payload (decisionBlock objectFinder_lookup
                       DecisionRpc_MAX_OBJECTS_PER_RPC wrap w)).
Proof.
  intros Hs (_ & _ & H3 & _ & H5 & H6).
  pose proof (H3 Hs) as P1.
  assert (status (task w) = STATUS_OK) as Hst by (apply H5; congruence).
  destruct (decisionBlock_shape w Hs) as (rpcs & _ & _ & Hm).
  simpl in Hm.
  match type of Hm with context [sendDecisionRpc _ _ ?w1] =>
    destruct (sendDecisionRpc_frame w1) as (F1 & F2 & F3 & F4 & F5 & F6 & F7 & F8)
  end.
  unfold_updates.
  set (w2 := sendDecisionRpc _ _ _) in *. clearbody w2.
  destruct Hm as [(st & Hf & ->)|[[-> _]|(-> & He & _)]]; simpl;
    unfold PhaseInv; unfold_updates.
  - rewrite Hs, P1, Hst. repeat split; congruence.
  - rewrite F1, F2, F5, Hs, P1, Hst. repeat split; congruence.
  - rewrite F2, F5, He, P1, Hst. repeat split; congruence.
Qed.

Lemma PhaseInv_catch (st : Status) w :
  fatal st → PhaseInv w → PhaseInv (catchClientException st w).
Proof.
  intros [Hf1 Hf2] _. unfold PhaseInv, catchClientException. unfold_updates.
  repeat split; congruence.
Qed.

Lemma performTask_PhaseInv w : PhaseInv w → PhaseInv (performTask' w).
Proof.
  apply (performTask_inv PhaseInv).
  - apply PhaseInv_init.
  - apply PhaseInv_prepare.
  - apply PhaseInv_decision.
  - intros st w0 Hf _. by apply PhaseInv_catch.
Qed.

Lemma nil_length_eq {A B} (l : list A) (l' : list B) :
  length l' = length l → l = [] → l' = [].
Proof. intros Hl ->. by destruct l'. Qed.

Lemma deliver_PhaseInv ev w w' :
  deliver objectFinder_flush ev w = Some w' → PhaseInv w → PhaseInv w'.
Proof.
  intros Hd (H1 & H2 & H3 & H4 & H5 & H6).
  destruct (deliver_frame _ _ _ Hd) as (F1 & F2 & _ & _ & _ & F6 & F7 & _).
  destruct (deliver_task _ _ _ Hd) as (_ & G2 & G3 & _).
  destruct (deliver_lengths _ _ _ Hd) as (L1 & L2 & L3).
  pose proof (nil_length_eq _ _ L1) as N1.
  pose proof (nil_length_eq _ _ L2) as N2.
  unfold PhaseInv. rewrite F1, F2, F6, F7, G2, G3.
  split; [intros Hs; destruct (H1 Hs) as (? & ? & ? & ? & ? & ?);
          by destruct L3|].
  split; [intros Hs; destruct (H2 Hs); auto|].
  split; [intros Hs; auto|].
  split; [intros Hs; destruct (H4 Hs); auto|].
  done.
Qed.

Lemma Initial_PhaseInv w :
  Initial w → PhaseInv w.
Proof.
  intros ((F1 & F2 & F3 & F4 & F5 & F6 & F7 & F8) & I2 & I3 & I4).
  unfold PhaseInv. rewrite F3, F4, F6, F7.
  repeat split; try congruence; done.
Qed.

Lemma Reachable_PhaseInv w : Reachable' w → PhaseInv w.
Proof.
  induction 1 as [w Hi|w a w' _ IH Hx]; [by apply Initial_PhaseInv|].
  destruct a as [|ev]; simpl in Hx.
  - injection Hx as <-. by apply performTask_PhaseInv.
  - by eapply deliver_PhaseInv.
Qed.

(** X10: the two pipelines are never in use together: requests of the
    prepare phase are out only while the task is in [PREPARE], those of
    the decision phase only while it is in [DECISION], and no decision
    has been sent before the decision phase.  A task that is done has
    left nothing in a pipeline. *)
Theorem pipelines_follow_the_state w :
  Reachable objectFinder_lookup objectFinder_flush
    PrepareRpc_MAX_OBJECTS_PER_RPC DecisionRpc_MAX_OBJECTS_PER_RPC wrap w →
  (prepareRpcs (task w) ≠ [] → state (task w) = PREPARE)
  ∧ (decisionRpcs (task w) ≠ [] → state (task w) = DECISION)
  ∧ (sentDecisions (ramcloud w) ≠ [] →
     state (task w) = DECISION ∨ state (task w) = DONE)
  ∧ (sentPrepares (ramcloud w) ≠ [] → state (task w) ≠ INIT).
Proof.
  intros Hr. destruct (Reachable_PhaseInv w Hr) as (H1 & H2 & H3 & H4 & _).
  destruct (state (task w)) eqn:Hs.
  - destruct H1 as (? & ? & ? & ? & _); [done|]. by repeat split.
  - destruct H2 as (? & ?); [done|]. by repeat split.
  - rewrite H3 by done. repeat split; auto; done.
  - destruct H4 as (? & ?); [done|]. repeat split; auto; done.
Qed.

(** X11: until the task is done its status is [STATUS_OK]; and the status
    of a task is never [STATUS_UNKNOWN_TABLET], which a response can
    carry: that status leads to a retry and is not reported. *)
Theorem status_is_ok_until_done w :
  Reachable objectFinder_lookup objectFinder_flush
    PrepareRpc_MAX_OBJECTS_PER_RPC DecisionRpc_MAX_OBJECTS_PER_RPC wrap w →
  (state (task w) ≠ DONE → status (task w) = STATUS_OK)
  ∧ status (task w) ≠ STATUS_UNKNOWN_TABLET.
Proof.
  intros Hr. by destruct (Reachable_PhaseInv w Hr) as (_ & _ & _ & _ & ? & ?).
Qed.

(** X12: a task that is done stays as it is: [performTask] changes
    nothing, and no delivery is possible since no request is out. *)
Theorem done_is_final w a w' :
  Reachable objectFinder_lookup objectFinder_flush
    PrepareRpc_MAX_OBJECTS_PER_RPC DecisionRpc_MAX_OBJECTS_PER_RPC wrap w →
  state (task w) = DONE → exec' a w = Some w' → w' = w.
Proof.
  intros Hr Hs Hx. destruct a as [|ev]; simpl in Hx.
  - injection Hx as <-. by apply performTask_DONE.
  - destruct (Reachable_PhaseInv w Hr) as (_ & _ & _ & H4 & _).
    destruct (H4 Hs) as [P1 P2].
    destruct (deliver_lengths _ _ _ Hx) as (_ & _ & [?|?]); done.
Qed.

(** ** The order of the states *)

Lemma performTask_initBlock w : performTask' w = performTask' (initBlock w).
Proof.
  unfold performTask, tryBlock.
  destruct (decide (state (task w) = INIT)) as [Hs|Hs].
  - destruct (initBlock_spec w Hs) as (F1 & _).
    rewrite (initBlock_other (initBlock w)) by congruence. done.
  - by rewrite !initBlock_other.
Qed.

Lemma performTask_taskRank w :
  taskRank (state (task w)) ≤ taskRank (state (task (performTask' w))).
Proof.
  apply (performTask_rel
           (λ w w', taskRank (state (task w)) ≤ taskRank (state (task w')))).
  - done.
  - intros w1 w2 w3 ? ?. by etrans.
  - intros w0 Hs. destruct (initBlock_spec w0 Hs) as (-> & _).
    rewrite Hs. simpl. lia.
  - intros w0 Hs.
    destruct (prepareBlock_spec w0 Hs) as (_ & _ & _ & _ & _ & Hm).
    rewrite Hs.
    destruct (prepareBlock _ _ _ w0) as [w1|st w1]; simpl in *.
    + destruct Hm as [-> | [-> _]]; simpl; lia.
    + destruct Hm as [_ ->]. done.
  - intros w0 Hs.
    destruct (decisionBlock_spec w0 Hs) as (_ & _ & _ & _ & Hm).
    rewrite Hs.
    destruct (decisionBlock _ _ _ w0) as [w1|st w1]; simpl in *.
    + destruct Hm as [[-> _] | [-> _]]; simpl; lia.
    + destruct Hm as (_ & -> & _). done.
  - intros st w0 _ Hs. simpl. destruct Hs as [-> | ->]; simpl; lia.
Qed.

(** X13: the state of the task never goes back: no step takes it to a
    state that [performTask] has left, and [performTask] never leaves a
    task in [INIT]. *)
Theorem task_state_never_goes_back w a w' :
  exec' a w = Some w' →
  taskRank (state (task w)) ≤ taskRank (state (task w'))
  ∧ (a = PerformTask → state (task w') ≠ INIT).
Proof.
  intros Hx. destruct a as [|ev]; simpl in Hx.
  - injection Hx as <-. split; [apply performTask_taskRank|]. intros _.
    rewrite performTask_initBlock.
    pose proof (performTask_taskRank (initBlock w)) as Hle.
    assert (1 ≤ taskRank (state (task (initBlock w)))) as H1.
    { destruct (decide (state (task w) = INIT)) as [Hs|Hs].
      - by destruct (initBlock_spec w Hs) as (-> & _).
      - rewrite initBlock_other by done.
        destruct (state (task w)); simpl; [congruence|lia..]. }
    intros Heq. rewrite Heq in Hle. simpl in Hle. lia.
  - destruct (deliver_frame _ _ _ Hx) as (-> & _). split; [done|]. done.
Qed.

(** ** The cursor *)

Lemma CursorInv_init w :
  state (task w) = INIT → CursorInv (initBlock w).
Proof.
  intros Hs. unfold initBlock. rewrite decide_True by done.
  rewrite initTask_spec. unfold CursorInv. simpl.
  repeat split; try congruence; intros; lia.
Qed.

Lemma CursorInv_prepare w :
  state (task w) = PREPARE → CursorInv w →
  CursorInv (payload (prepareBlock objectFinder_lookup
                        PrepareRpc_MAX_OBJECTS_PER_RPC wrap w)).
Proof.
  intros Hs (H1 & H2 & _).
  assert (nextCacheEntry (task w) ≤ length (commitCache (task w))) as Hc
    by (apply H1; congruence).
  specialize (H2 Hs).
  destruct (prepareBlock_shape w Hs) as (rpcs & d & _ & _ & _ & Hm).
  simpl in Hm.
  match type of Hm with context [sendPrepareRpc _ _ ?w1] =>
    destruct (sendPrepareRpc_frame w1) as (F1 & F2 & _ & _ & _ & _ & _ & F8);
    destruct (sendPrepareRpc_facts w1) as (_ & (S1 & S3 & S4 & S5) & _)
  end.
  apply CacheRel_length in F8. unfold_updates.
  set (w2 := sendPrepareRpc _ _ _) in *. clearbody w2.
  destruct Hm as [(st & Hf & ->)|[[-> _]|(-> & He & _)]]; simpl;
    unfold CursorInv; unfold_updates.
  - repeat split; try congruence; done.
  - rewrite F1.
    split; [intros _; specialize (S3 Hc); lia|].
    split; [|split; congruence].
    intros _ i key e Hi Hl Hty.
    destruct (decide (i < nextCacheEntry (task w))) as [Hlt|Hge].
    + rewrite S4 in Hl by auto. eauto.
    + eapply S5; [|done..]. lia.
  - repeat split; try congruence; intros; lia.
Qed.

Lemma CursorInv_decision w :
  state (task w) = DECISION → CursorInv w →
  CursorInv (payload (decisionBlock objectFinder_lookup
                        DecisionRpc_MAX_OBJECTS_PER_RPC wrap w)).
Proof.
  intros Hs (H1 & _ & H3 & _).
  assert (nextCacheEntry (task w) ≤ length (commitCache (task w))) as Hc
    by (apply H1; congruence).
  specialize (H3 Hs).
  destruct (decisionBlock_shape w Hs) as (rpcs & _ & _ & Hm).
  simpl in Hm.
  match type of Hm with context [sendDecisionRpc _ _ ?w1] =>
    destruct (sendDecisionRpc_frame w1) as (F1 & F2 & _ & _ & _ & _ & _ & F8);
    destruct (sendDecisionRpc_facts w1) as (_ & (S1 & S3 & S4 & S5) & _)
  end.
  apply CacheRel_length in F8. unfold_updates.
  set (w2 := sendDecisionRpc _ _ _) in *. clearbody w2.
  assert (∀ i key e, i < nextCacheEntry (task w2) →
                     commitCache (task w2) !! i = Some (key, e) →
                     e_state e = CacheEntry.DECIDE) as Hall.
  { intros i key e Hi Hl.
    destruct (decide (i < nextCacheEntry (task w))) as [Hlt|Hge].
    + rewrite S4 in Hl by auto. eauto.
    + eapply S5; [|done]. lia. }
  destruct Hm as [(st & Hf & ->)|[[-> _]|(-> & He & Hend)]]; simpl;
    unfold CursorInv; unfold_updates.
  - repeat split; try congruence; done.
  - rewrite F1.
    split; [intros _; specialize (S3 Hc); lia|].
    split; [congruence|]. split; [|congruence]. intros _. exact Hall.
  - split; [intros _; specialize (S3 Hc); lia|].
    split; [congruence|]. split; [congruence|].
    intros _ _ i key e Hl. eapply Hall; [|exact Hl].
    rewrite Hend. by eapply lookup_lt_Some.
Qed.

Lemma CursorInv_catch (st : Status) w :
  fatal st → state (task w) = PREPARE ∨ state (task w) = DECISION →
  CursorInv w → CursorInv (catchClientException st w).
Proof.
  intros [Hf _] Hs (H1 & _). unfold CursorInv, catchClientException.
  unfold_updates.
  split; [intros _; apply H1; destruct Hs; congruence|].
  repeat split; congruence.
Qed.

Lemma performTask_CursorInv w : CursorInv w → CursorInv (performTask' w).
Proof.
  apply (performTask_inv CursorInv).
  - intros w0 Hs _. by apply CursorInv_init.
  - apply CursorInv_prepare.
  - apply CursorInv_decision.
  - apply CursorInv_catch.
Qed.

Lemma deliver_CursorInv ev w w' :
  deliver objectFinder_flush ev w = Some w' →
  PhaseInv w → CursorInv w → CursorInv w'.
Proof.
  intros Hd (_ & _ & _ & P4 & _) (H1 & H2 & H3 & H4).
  destruct (deliver_frame _ _ _ Hd) as (F1 & F2 & _ & _ & _ & _ & _ & F8).
  destruct (deliver_task _ _ _ Hd) as (_ & _ & _ & _ & Hc).
  destruct (deliver_lengths _ _ _ Hd) as (_ & _ & L3).
  apply CacheRel_length in F8.
  unfold CursorInv. rewrite F1, F2.
  destruct Hc as [[-> ->] | ->].
  - repeat split; try done.
  - split; [intros; lia|]. split; [intros; lia|]. split; [intros; lia|].
    intros Hs. destruct (P4 Hs). by destruct L3.
Qed.

Lemma Initial_CursorInv w : Initial w → CursorInv w.
Proof.
  intros ((_ & _ & F3 & _) & _). unfold CursorInv. rewrite F3.
  repeat split; congruence.
Qed.

Lemma Reachable_CursorInv w : Reachable' w → CursorInv w.
Proof.
  induction 1 as [w Hi|w a w' Hr IH Hx]; [by apply Initial_CursorInv|].
  destruct a as [|ev]; simpl in Hx.
  - injection Hx as <-. by apply performTask_CursorInv.
  - eapply deliver_CursorInv; [done| |done]. by apply Reachable_PhaseInv.
Qed.

(** X14: a task that is done without an error has put every entry of its
    commit cache into a decision request: every entry is in the state
    [DECIDE]. *)
Theorem done_ok_has_decided_every_entry w i key e :
  Reachable' w → state (task w) = DONE → status (task w) = STATUS_OK →
  commitCache (task w) !! i = Some (key, e) →
  e_state e = CacheEntry.DECIDE.
Proof.
  intros Hr Hs Hst Hl.
  destruct (Reachable_CursorInv w Hr) as (_ & _ & _ & H4). eauto.
Qed.

(** X15: once [initTask] has run the cursor is within the commit cache,
    and the entries behind it have been dealt with in the current phase:
    in [PREPARE] those of a known type are in the state [PREPARE], in
    [DECISION] all of them are in the state [DECIDE]. *)
Theorem cursor_separates_processed_entries w :
  Reachable' w → state (task w) ≠ INIT →
  nextCacheEntry (task w) ≤ length (commitCache (task w))
  ∧ ∀ i key e,
      i < nextCacheEntry (task w) →
      commitCache (task w) !! i = Some (key, e) →
      (state (task w) = PREPARE → e_type e ≠ CacheEntry.INVALID →
       e_state e = CacheEntry.PREPARE)
      ∧ (state (task w) = DECISION → e_state e = CacheEntry.DECIDE).
Proof.
  intros Hr Hs. destruct (Reachable_CursorInv w Hr) as (H1 & H2 & H3 & _).
  split; [auto|]. intros i key e Hi Hl. split; eauto.
Qed.

(** ** The commit cache is frozen *)

Lemma EntryStep_sameData (S : CacheEntry.State → CacheEntry.State → Prop) e e' :
  EntryStep S e e' → sameData e e' ∧ e_rpcId e' = e_rpcId e.
Proof. intros [-> _]. by repeat split. Qed.

Lemma stamp_sameData id i c : CacheRel sameData c (stamp id i c).
Proof.
  apply Forall2_same_length_lookup_2; [by rewrite stamp_length|].
  intros k [key e] [key' e'] Hx Hy. rewrite stamp_lookup, Hx in Hy.
  simpl in Hy. by simplify_eq.
Qed.

Lemma initBlock_cache w :
  state (task w) = INIT →
  commitCache (task (initBlock w))
  = stamp (tr_nextRpcId (rpcTracker (ramcloud w))) 0 (commitCache (task w)).
Proof.
  intros Hs. unfold initBlock. rewrite decide_True by done.
  by rewrite initTask_spec.
Qed.

(** After [INIT], [performTask] changes the states of entries only. *)
Lemma performTask_cache w :
  state (task w) ≠ INIT →
  CacheRel (EntryStep (λ _ _, True)) (commitCache (task w))
    (commitCache (task (performTask' w))).
Proof.
  assert (Hrefl : ∀ c : list (CacheKey * CacheEntry),
            CacheRel (EntryStep (λ _ _, True)) c c).
  { intros c. apply CacheRel_refl. intros e. by apply EntryStep_refl. }
  assert (Himpl : ∀ (S : CacheEntry.State → CacheEntry.State → Prop) c c',
            CacheRel (EntryStep S) c c' →
            CacheRel (EntryStep (λ _ _, True)) c c').
  { intros S c c'. apply CacheRel_impl. by intros e e' [? _]. }
  apply (performTask_rel
           (λ w w', state (task w) ≠ INIT →
                    state (task w') ≠ INIT
                    ∧ CacheRel (EntryStep (λ _ _, True)) (commitCache (task w))
                        (commitCache (task w')))).
  - intros w0 Hs. by split.
  - intros w1 w2 w3 H12 H23 Hs. destruct (H12 Hs) as [Hs2 Hc12].
    destruct (H23 Hs2) as [Hs3 Hc23]. split; [done|].
    eapply CacheRel_trans; [|exact Hc12|exact Hc23].
    intros e1 e2 e3. apply EntryStep_trans. done.
  - intros w0 Hs Hn. done.
  - intros w0 Hs _.
    destruct (prepareBlock_spec w0 Hs) as (_ & _ & _ & _ & Hc & Hm).
    split; [|by eapply Himpl].
    destruct (prepareBlock _ _ _ w0) as [w1|st w1]; simpl in *.
    + destruct Hm as [-> | [-> _]]; done.
    + destruct Hm as [_ ->]. done.
  - intros w0 Hs _.
    destruct (decisionBlock_spec w0 Hs) as (_ & _ & _ & Hc & Hm).
    split; [|by eapply Himpl].
    destruct (decisionBlock _ _ _ w0) as [w1|st w1]; simpl in *.
    + destruct Hm as [[-> _] | [-> _]]; done.
    + destruct Hm as (_ & -> & _). done.
  - intros st w0 _ _ _. split; [done|]. simpl. apply Hrefl.
Qed.

(** X16: no step changes what the commit cache holds: the keys and their
    order, and for every entry its type, its object and its reject
    rules; the ids that [initTask] has given to the entries are never
    changed either. *)
Theorem commit_cache_is_frozen w a w' :
  exec' a w = Some w' →
  CacheRel sameData (commitCache (task w)) (commitCache (task w'))
  ∧ (state (task w) ≠ INIT →
     CacheRel (λ e e', e_rpcId e' = e_rpcId e)
       (commitCache (task w)) (commitCache (task w'))).
Proof.
  intros Hx.
  assert (Hstep : ∀ c c' : list (CacheKey * CacheEntry),
            CacheRel (EntryStep (λ _ _, True)) c c' →
            CacheRel sameData c c'
            ∧ CacheRel (λ e e', e_rpcId e' = e_rpcId e) c c').
  { intros c c' Hc. split; (eapply CacheRel_impl; [|exact Hc]);
      intros e e' He; by apply EntryStep_sameData in He as [? ?]. }
  destruct a as [|ev]; simpl in Hx.
  - injection Hx as <-.
    destruct (decide (state (task w) = INIT)) as [Hs|Hs].
    + split; [|done]. rewrite performTask_initBlock.
      destruct (initBlock_spec w Hs) as (F1 & _).
      apply (CacheRel_trans sameData sameData sameData _
               (commitCache (task (initBlock w)))).
      * intros e1 e2 e3 (? & ? & ?) (? & ? & ?). repeat split; congruence.
      * rewrite (initBlock_cache w Hs). apply stamp_sameData.
      * apply Hstep, performTask_cache. congruence.
    + destruct (Hstep _ _ (performTask_cache w Hs)). by split.
  - destruct (deliver_frame _ _ _ Hx) as (_ & _ & _ & _ & _ & _ & _ & Hc).
    assert (CacheRel (EntryStep (λ _ _, True)) (commitCache (task w))
              (commitCache (task w'))) as Hc'.
    { eapply CacheRel_impl; [|exact Hc]. by intros e e' [? _]. }
    destruct (Hstep _ _ Hc'). by split.
Qed.

(** ** The requests that have been sent *)

Lemma EntryStep_lookup (S : CacheEntry.State → CacheEntry.State → Prop)
    c c' op (ke : CacheKey * CacheEntry) :
  CacheRel (EntryStep S) c c' → c !! op = Some ke →
  ∃ ke', c' !! op = Some ke' ∧ prepareOpOf ke' = prepareOpOf ke
         ∧ participantOf ke' = participantOf ke.
Proof.
  intros Hc Hl. destruct ke as [key e].
  destruct (CacheRel_lookup _ _ _ _ _ _ Hc Hl) as (e' & Hl' & He & _).
  exists (key, e'). split; [done|]. rewrite He. done.
Qed.

Lemma CacheRel_participants (S : CacheEntry.State → CacheEntry.State → Prop)
    (c c' : list (CacheKey * CacheEntry)) :
  CacheRel (EntryStep S) c c' → participantOf <$> c' = participantOf <$> c.
Proof.
  induction 1 as [|[k e0] [k' e1] l l' [Hk [He _]] _ IH]; [done|].
  rewrite !fmap_cons, IH. f_equal. unfold participantOf. simpl in *.
  rewrite He, Hk. done.
Qed.

Lemma PrepareSent_cache (S : CacheEntry.State → CacheEntry.State → Prop)
    pl pc l c c' rpc :
  CacheRel (EntryStep S) c c' →
  PrepareSent pl pc l c rpc → PrepareSent pl pc l c' rpc.
Proof.
  intros Hc (? & ? & ? & ? & ? & Hf). repeat split; try done.
  eapply Forall2_impl; [exact Hf|]. intros op o (ke & Hl & Ho).
  destruct (EntryStep_lookup _ _ _ _ _ Hc Hl) as (ke' & ? & ? & ?).
  exists ke'. split; [done|]. congruence.
Qed.

Lemma DecisionSent_cache (S : CacheEntry.State → CacheEntry.State → Prop)
    d l c c' rpc :
  CacheRel (EntryStep S) c c' →
  DecisionSent d l c rpc → DecisionSent d l c' rpc.
Proof.
  intros Hc (? & ? & ? & ? & ? & Hf). repeat split; try done.
  eapply Forall2_impl; [exact Hf|]. intros op o (ke & Hl & Ho).
  destruct (EntryStep_lookup _ _ _ _ _ Hc Hl) as (ke' & ? & ? & ?).
  exists ke'. split; [done|]. congruence.
Qed.

Lemma PrepareBuilt_sent (S : CacheEntry.State → CacheEntry.State → Prop)
    t0 t c' (rc : RamCloud (ObjectFinder:=ObjectFinder)) rpc0 :
  PrepareBuilt t0 t rpc0 → CacheRel (EntryStep S) (commitCache t0) c' →
  PrepareSent (participantList t0) (participantCount t0) (lease t0) c'
    (PrepareRpc_send rc rpc0).
Proof.
  intros (B1 & B2 & B3 & B4 & B5 & B6 & B7) Hc.
  apply (PrepareSent_cache S _ _ _ (commitCache t0)); [done|].
  by repeat split.
Qed.

Lemma DecisionBuilt_sent (S : CacheEntry.State → CacheEntry.State → Prop)
    t0 t c' rpc0 :
  DecisionBuilt t0 t rpc0 → isDecided (decision t0) →
  CacheRel (EntryStep S) (commitCache t0) c' →
  DecisionSent (decision t0) (lease t0) c' (DecisionRpc_send rpc0).
Proof.
  intros (B1 & B2 & B3 & B4 & B5 & B6) Hd Hc.
  apply (DecisionSent_cache S _ _ (commitCache t0)); [done|].
  by repeat split.
Qed.

(** The invariant across a change of the cache that keeps the data of
    the entries, and of the logs that adds a request that agrees with
    the task. *)
Lemma SentInv_frame (S : CacheEntry.State → CacheEntry.State → Prop) w w' :
  SentInv w →
  participantList (task w') = participantList (task w) →
  participantCount (task w') = participantCount (task w) →
  lease (task w') = lease (task w) →
  CacheRel (EntryStep S) (commitCache (task w)) (commitCache (task w')) →
  (state (task w') ≠ INIT → state (task w) ≠ INIT) →
  (state (task w') = DECISION → isDecided (decision (task w'))) →
  (sentPrepares (ramcloud w') = sentPrepares (ramcloud w)
   ∨ ∃ rpc, sentPrepares (ramcloud w') = sentPrepares (ramcloud w) ++ [rpc]
            ∧ PrepareSent (participantList (task w'))
                (participantCount (task w')) (lease (task w'))
                (commitCache (task w')) rpc) →
  (sentDecisions (ramcloud w') = []
   ∨ (decision (task w') = decision (task w)
      ∧ (sentDecisions (ramcloud w') = sentDecisions (ramcloud w)
         ∨ ∃ rpc, sentDecisions (ramcloud w')
                  = sentDecisions (ramcloud w) ++ [rpc]
                  ∧ DecisionSent (decision (task w')) (lease (task w'))
                      (commitCache (task w')) rpc))) →
  SentInv w'.
Proof.
  intros (H1 & H2 & H3 & H4) Epl Epc Ele Hc Hst Hdec Hp Hd.
  unfold SentInv.
  split.
  { intros Hs. destruct (H1 (Hst Hs)) as [E1 E2].
    rewrite Epl, Epc, (CacheRel_participants _ _ _ Hc),
      (CacheRel_length _ _ _ Hc). done. }
  split; [done|]. split.
  - assert (Forall (PrepareSent (participantList (task w'))
                      (participantCount (task w')) (lease (task w'))
                      (commitCache (task w'))) (sentPrepares (ramcloud w)))
      as Hold.
    { rewrite Epl, Epc, Ele. eapply Forall_impl; [exact H3|].
      intros rpc. by apply PrepareSent_cache with S. }
    destruct Hp as [-> | (rpc & -> & Hnew)]; [done|].
    apply Forall_app. split; [done|]. by constructor.
  - destruct Hd as [-> | [Ed Hd]]; [constructor|].
    assert (Forall (DecisionSent (decision (task w')) (lease (task w'))
                      (commitCache (task w'))) (sentDecisions (ramcloud w)))
      as Hold.
    { rewrite Ed, Ele. eapply Forall_impl; [exact H4|].
      intros rpc. by apply DecisionSent_cache with S. }
    destruct Hd as [-> | (rpc & -> & Hnew)]; [done|].
    apply Forall_app. split; [done|]. by constructor.
Qed.

Lemma SentInv_init w :
  state (task w) = INIT → PhaseInv w → SentInv (initBlock w).
Proof.
  intros Hs (H1 & _).
  destruct (H1 Hs) as (_ & _ & P3 & P4 & P5 & P6).
  unfold initBlock. rewrite decide_True by done.
  rewrite initTask_spec. unfold SentInv. unfold_updates.
  rewrite P3, P4, P5, P6, stamp_length.
  repeat split; try done; try constructor.
Qed.

Lemma SentInv_prepare w :
  state (task w) = PREPARE → PhaseInv w → SentInv w →
  SentInv (payload (prepareBlock objectFinder_lookup
                      PrepareRpc_MAX_OBJECTS_PER_RPC wrap w)).
Proof.
  intros Hs (_ & H2 & _) Hinv.
  destruct (H2 Hs) as (P1 & P2).
  assert (Hrefl : ∀ S c, (∀ s, S s s) → CacheRel (EntryStep S) c c).
  { intros S c HS. apply CacheRel_refl. intros e. by apply EntryStep_refl. }
  destruct (prepareBlock_shape w Hs) as (rpcs & d & _ & _ & _ & Hm).
  simpl in Hm.
  match type of Hm with context [sendPrepareRpc _ _ ?w1] =>
    destruct (sendPrepareRpc_frame w1) as (F1 & F2 & F3 & F4 & F5 & F6 & F7 & F8);
    destruct (sendPrepareRpc_facts w1) as ((G1 & G2 & G3 & _) & _ & G5)
  end.
  unfold_updates.
  set (w2 := sendPrepareRpc _ _ _) in *. clearbody w2.
  assert (SentInv w2) as Hinv2.
  { apply (SentInv_frame byPrepare w);
      [exact Hinv|exact G2|exact G3|exact G1|exact F8|..].
    - intros _. rewrite Hs. done.
    - rewrite F1, Hs. done.
    - destruct G5 as [[_ G5] | (rpc0 & _ & G5 & Hb)]; [by left|].
      right. eexists. split; [exact G5|].
      rewrite G1, G2, G3.
      by apply (PrepareBuilt_sent byPrepare _ _ _ _ _ Hb).
    - left. congruence. }
  destruct Hm as [(st & Hf & ->)|[[-> _]|(-> & He & _)]]; simpl.
  - apply (SentInv_frame byPrepare w); simpl;
      [exact Hinv|done|done|done|apply Hrefl; by left|done|..].
    + rewrite Hs. done.
    + by left.
    + by left.
  - done.
  - apply (SentInv_frame byPrepare w2); simpl;
      [exact Hinv2|done|done|done|apply Hrefl; by left|..].
    + intros _. rewrite F1, Hs. done.
    + intros _. unfold isDecided. case_decide; auto.
    + by left.
    + left. congruence.
Qed.

Lemma SentInv_decision w :
  state (task w) = DECISION → SentInv w →
  SentInv (payload (decisionBlock objectFinder_lookup
                      DecisionRpc_MAX_OBJECTS_PER_RPC wrap w)).
Proof.
  intros Hs Hinv.
  pose proof Hinv as (_ & Hdec & _). specialize (Hdec Hs).
  assert (Hrefl : ∀ S c, (∀ s, S s s) → CacheRel (EntryStep S) c c).
  { intros S c HS. apply CacheRel_refl. intros e. by apply EntryStep_refl. }
  destruct (decisionBlock_shape w Hs) as (rpcs & _ & _ & Hm).
  simpl in Hm.
  match type of Hm with context [sendDecisionRpc _ _ ?w1] =>
    destruct (sendDecisionRpc_frame w1) as (F1 & F2 & F3 & F4 & F5 & F6 & F7 & F8);
    destruct (sendDecisionRpc_facts w1) as ((G1 & G2 & G3 & _) & _ & G5)
  end.
  unfold_updates.
  set (w2 := sendDecisionRpc _ _ _) in *. clearbody w2.
  assert (SentInv w2) as Hinv2.
  { apply (SentInv_frame byDecision w);
      [exact Hinv|exact G2|exact G3|exact G1|exact F8|..].
    - intros _. rewrite Hs. done.
    - intros _. by rewrite F3.
    - by left.
    - right. split; [done|].
      destruct G5 as [[_ G5] | (rpc0 & _ & G5 & Hb)]; [by left|].
      right. eexists. split; [exact G5|].
      rewrite F3, G1.
      by apply (DecisionBuilt_sent byDecision _ _ _ _ Hb). }
  destruct Hm as [(st & Hf & ->)|[[-> _]|(-> & He & _)]]; simpl.
  - apply (SentInv_frame byDecision w); simpl;
      [exact Hinv|done|done|done|apply Hrefl; by left|done|done|..].
    + by left.
    + right. split; [done|]. by left.
  - done.
  - apply (SentInv_frame byDecision w2); simpl;
      [exact Hinv2|done|done|done|apply Hrefl; by left|..].
    + intros _. rewrite F1, Hs. done.
    + done.
    + by left.
    + right. split; [done|]. by left.
Qed.

Lemma SentInv_catch (st : Status) w :
  state (task w) = PREPARE ∨ state (task w) = DECISION →
  SentInv w → SentInv (catchClientException st w).
Proof.
  intros Hs Hinv.
  apply (SentInv_frame byRetry w); simpl; [exact Hinv|done|done|done|..].
  - apply CacheRel_refl. intros e. apply EntryStep_refl. by left.
  - intros _. destruct Hs as [-> | ->]; done.
  - done.
  - by left.
  - right. split; [done|]. by left.
Qed.

Lemma performTask_SentInv w :
  PhaseInv w → SentInv w → SentInv (performTask' w).
Proof.
  intros Hp Hi.
  apply (performTask_inv (λ w, PhaseInv w ∧ SentInv w)); [..|done].
  - intros w0 Hs [H1 H2]. split; [by apply PhaseInv_init|by apply SentInv_init].
  - intros w0 Hs [H1 H2].
    split; [by apply PhaseInv_prepare|by apply SentInv_prepare].
  - intros w0 Hs [H1 H2].
    split; [by apply PhaseInv_decision|by apply SentInv_decision].
  - intros st w0 Hf Hs [H1 H2].
    split; [by apply PhaseInv_catch|by apply SentInv_catch].
Qed.

Lemma deliver_SentInv ev w w' :
  deliver objectFinder_flush ev w = Some w' → SentInv w → SentInv w'.
Proof.
  intros Hd Hinv.
  destruct (deliver_frame _ _ _ Hd) as (F1 & F2 & F3 & _ & _ & F6 & F7 & F8).
  destruct (deliver_task _ _ _ Hd) as (G1 & G2 & G3 & _).
  pose proof Hinv as (_ & Hdec & _).
  apply (SentInv_frame byRetry w);
    [exact Hinv|exact G2|exact G3|exact G1|exact F8|..].
  - by rewrite F1.
  - by rewrite F1, F3.
  - by left.
  - right. split; [done|]. by left.
Qed.

Lemma Reachable_SentInv w : Reachable' w → SentInv w.
Proof.
  induction 1 as [w Hi|w a w' Hr IH Hx].
  - destruct Hi as ((_ & _ & F3 & _) & _ & I3 & I4).
    unfold SentInv. rewrite F3, I3, I4.
    repeat split; try congruence; constructor.
  - destruct a as [|ev]; simpl in Hx.
    + injection Hx as <-. apply performTask_SentInv; [|done].
      by apply Reachable_PhaseInv.
    + by eapply deliver_SentInv.
Qed.

(** X17: from the first call of [performTask] on, the participant list
    of the task lists the entries of the commit cache, in the order of
    the cache, with the ids that [initTask] gave them; and every prepare
    request that has been sent carries this list, the number of the
    entries and the lease of the task, and for each of its operations one
    operation on the wire, of the type, the table and the id of its
    entry. *)
Theorem sent_prepares_list_every_participant w rpc :
  Reachable' w → rpc ∈ sentPrepares (ramcloud w) →
  p_participants rpc = participantOf <$> commitCache (task w)
  ∧ p_participantCount rpc = length (commitCache (task w))
  ∧ p_lease rpc = lease (task w)
  ∧ Forall2 (λ op o, ∃ ke, commitCache (task w) !! op = Some ke
                           ∧ prepareOpOf ke = Some o)
      (p_ops rpc) (p_request rpc).
Proof.
  intros Hr Hin.
  destruct (Reachable_SentInv w Hr) as (H1 & _ & H3 & _).
  destruct (Reachable_PhaseInv w Hr) as (P1 & _).
  assert (state (task w) ≠ INIT) as Hs.
  { intros Hs. destruct (P1 Hs) as (_ & _ & P3 & _).
    rewrite P3 in Hin. by apply elem_of_nil in Hin. }
  destruct (H1 Hs) as [E1 E2].
  rewrite Forall_forall in H3.
  destruct (H3 rpc Hin) as (? & ? & ? & _ & _ & ?).
  repeat split; congruence.
Qed.

(** X18: every decision request that has been sent carries the decision
    of the task, which is [COMMIT] or [ABORT], and the id of its lease;
    it lists the participant record of each of its operations. *)
Theorem sent_decisions_carry_the_decision w rpc :
  Reachable' w → rpc ∈ sentDecisions (ramcloud w) →
  d_decision rpc = decision (task w)
  ∧ isDecided (d_decision rpc)
  ∧ d_leaseId rpc = leaseId (lease (task w))
  ∧ Forall2 (λ op p, ∃ ke, commitCache (task w) !! op = Some ke
                           ∧ participantOf ke = p)
      (d_ops rpc) (d_request rpc).
Proof.
  intros Hr Hin.
  destruct (Reachable_SentInv w Hr) as (_ & _ & _ & H4).
  rewrite Forall_forall in H4.
  destruct (H4 rpc Hin) as (E1 & ? & ? & _ & _ & ?).
  rewrite E1. by repeat split.
Qed.

(** ** A vote to abort *)

(** A request whose body establishes [P], a property that every body
    keeps: after the loop the request is still in the list or [P]
    holds. *)
Lemma drainLoop_kept_or_done {R St} (ready : R → bool)
    (body : R → St → Outcome St) (P : St → Prop) (rpc0 : R) :
  (∀ rpc s, P s → P (payload (body rpc s))) →
  (∀ s, P (payload (body rpc0 s))) →
  ∀ fuel it rpcs s o,
    drainLoop wrap ready body fuel it rpcs s = Some o →
    rpc0 ∈ rpcs ∨ P s →
    rpc0 ∈ (payload o).1 ∨ P (payload o).2.
Proof.
  intros Hkeep Hdone.
  induction fuel as [|fuel IH]; intros it rpcs s o Hrun Hpre; [discriminate|].
  simpl in Hrun. destruct (rpcs !! it) as [rpc|] eqn:Hl.
  - destruct (ready rpc).
    + assert (rpc0 ∈ delete it rpcs ∨ P (payload (body rpc s))) as Hnext.
      { destruct Hpre as [Hin|Hs]; [|right; by apply Hkeep].
        apply list_elem_of_lookup in Hin as [k Hk].
        destruct (decide (k = it)) as [->|Hne].
        - right. rewrite Hl in Hk. injection Hk as ->. apply Hdone.
        - left. apply list_elem_of_lookup.
          destruct (decide (k < it)) as [Hlt|Hge].
          + exists k. by rewrite list_lookup_delete_lt.
          + exists (pred k). rewrite list_lookup_delete_ge by lia.
            replace (S (pred k)) with k by lia. done. }
      destruct (body rpc s) as [s'|e s']; simpl in Hnext.
      * eapply IH; eauto.
      * inversion Hrun; subst. simpl.
        destruct Hnext as [Hin|?]; [left|by right].
        eapply elem_of_submseteq;
          [exact Hin|apply sublist_submseteq, sublist_delete].
    + eapply IH; eauto.
  - inversion Hrun; subst. done.
Qed.

Lemma processPrepareRpcs_abort t rpc0 :
  p_state rpc0 = FINISHED → p_status rpc0 = STATUS_OK →
  p_vote rpc0 = TxPrepare.ABORT →
  rpc0 ∈ prepareRpcs t ∨ decision t = TxDecision.ABORT →
  let t' := payload (processPrepareRpcs wrap t) in
  rpc0 ∈ prepareRpcs t' ∨ decision t' = TxDecision.ABORT.
Proof.
  intros Hst Hok Hv Hpre. unfold processPrepareRpcs.
  pose proof (drain_eq wrap (λ rpc, RpcState_isReady (p_state rpc))
                processPrepareRpc (prepareRpcs t) (decision t)) as Heq.
  pose proof (drainLoop_kept_or_done (λ rpc, RpcState_isReady (p_state rpc))
                processPrepareRpc (λ d, d = TxDecision.ABORT) rpc0) as Hk.
  specialize (Hk ltac:(intros rpc s ->;
                       by destruct (processPrepareRpc_decision rpc TxDecision.ABORT))).
  assert (∀ s, payload (processPrepareRpc rpc0 s) = TxDecision.ABORT) as Hb.
  { intros s. unfold processPrepareRpc. rewrite Hst, Hok, Hv.
    repeat case_decide; done. }
  specialize (Hk Hb _ _ _ _ _ Heq Hpre).
  destruct (drain _ _ _ _ _) as [[rpcs d]|e [rpcs d]]; simpl in *; done.
Qed.

Lemma AbortSeen_init w :
  state (task w) = INIT → AbortSeen w → AbortSeen (initBlock w).
Proof.
  intros Hs Ha.
  destruct (initBlock_spec w Hs) as (F1 & F2 & F3 & F4 & _).
  unfold AbortSeen. rewrite F3, F4.
  destruct Ha as [?|[?|[? _]]]; [by left|by right; left|congruence].
Qed.

Lemma AbortSeen_prepare w :
  state (task w) = PREPARE → AbortSeen w →
  AbortSeen (payload (prepareBlock objectFinder_lookup
                        PrepareRpc_MAX_OBJECTS_PER_RPC wrap w)).
Proof.
  intros Hs Ha.
  destruct (prepareBlock_shape w Hs) as (rpcs & d & _ & Hd & Hpay & Hm).
  assert (d = TxDecision.ABORT
          ∨ ∃ rpc, rpc ∈ rpcs ∧ p_state rpc = FINISHED
                   ∧ p_status rpc = STATUS_OK ∧ p_vote rpc = TxPrepare.ABORT)
    as Hmid.
  { destruct Ha as [Ha|[(rpc & Hin & H1 & H2 & H3)|[? _]]]; [| |congruence].
    - left. destruct Hd; congruence.
    - pose proof (processPrepareRpcs_abort (task w) rpc H1 H2 H3
                    (or_introl Hin)) as Hp.
      simpl in Hp. rewrite Hpay in Hp. revert Hp. unfold_updates.
      intros [?|?]; [right; by exists rpc|by left]. }
  clear Hpay. simpl in Hm.
  match type of Hm with context [sendPrepareRpc _ _ ?w1] =>
    destruct (sendPrepareRpc_frame w1) as (F1 & F2 & F3 & _);
    destruct (sendPrepareRpc_facts w1) as (_ & _ & G5)
  end.
  unfold_updates.
  set (w2 := sendPrepareRpc _ _ _) in *. clearbody w2.
  assert (decision (task w2) = TxDecision.ABORT
          ∨ ∃ rpc, rpc ∈ prepareRpcs (task w2) ∧ p_state rpc = FINISHED
                   ∧ p_status rpc = STATUS_OK ∧ p_vote rpc = TxPrepare.ABORT)
    as Hmid2.
  { destruct Hmid as [->|(rpc & Hin & ?)]; [by left|]. right. exists rpc.
    split; [|done].
    destruct G5 as [[-> _] | (rpc0 & -> & _)]; [done|].
    apply elem_of_app. by left. }
  destruct Hm as [(st & Hf & ->)|[[-> _]|(-> & He & _)]]; simpl;
    unfold AbortSeen; unfold_updates.
  - destruct Hmid as [?|?]; [by left|by right; left].
  - destruct Hmid2 as [?|?]; [by left|by right; left].
  - left. destruct Hmid2 as [->|(rpc & Hin & _)]; [by rewrite decide_True|].
    rewrite He in Hin. by apply elem_of_nil in Hin.
Qed.

Lemma AbortSeen_decision w :
  state (task w) = DECISION → AbortSeen w →
  AbortSeen (payload (decisionBlock objectFinder_lookup
                        DecisionRpc_MAX_OBJECTS_PER_RPC wrap w)).
Proof.
  intros Hs Ha.
  destruct (decisionBlock_shape w Hs) as (rpcs & _ & _ & Hm).
  simpl in Hm.
  match type of Hm with context [sendDecisionRpc _ _ ?w1] =>
    destruct (sendDecisionRpc_frame w1) as (F1 & F2 & F3 & F4 & F5 & _)
  end.
  unfold_updates.
  set (w2 := sendDecisionRpc _ _ _) in *. clearbody w2.
  assert (decision (task w) = TxDecision.ABORT
          ∨ ∃ rpc, rpc ∈ prepareRpcs (task w) ∧ p_state rpc = FINISHED
                   ∧ p_status rpc = STATUS_OK ∧ p_vote rpc = TxPrepare.ABORT)
    as Hmid.
  { destruct Ha as [?|[?|[? _]]]; [by left|by right|congruence]. }
  destruct Hm as [(st & Hf & ->)|[[-> _]|(-> & He & _)]]; simpl;
    unfold AbortSeen; unfold_updates; rewrite ?F3, ?F5;
    (destruct Hmid as [?|?]; [by left|by right; left]).
Qed.

Lemma performTask_AbortSeen w : AbortSeen w → AbortSeen (performTask' w).
Proof.
  apply (performTask_inv AbortSeen).
  - apply AbortSeen_init.
  - apply AbortSeen_prepare.
  - apply AbortSeen_decision.
  - intros st w0 [Hf _] _ _. right. right. by split.
Qed.

Lemma deliver_AbortSeen ev w w' :
  deliver objectFinder_flush ev w = Some w' → AbortSeen w → AbortSeen w'.
Proof.
  intros Hd Ha.
  destruct (deliver_frame _ _ _ Hd) as (F1 & F2 & F3 & _).
  unfold AbortSeen. rewrite F1, F2, F3.
  destruct Ha as [?|[(rpc & Hin & H1 & H2 & H3)|?]]; [by left| |by right; right].
  right. left. exists rpc. split; [|done].
  apply deliver_pipelines in Hd.
  apply list_elem_of_lookup in Hin as [k Hk].
  apply list_elem_of_lookup.
  destruct ev as [j|j st v|j|j st].
  - destruct Hd as (_ & rpcj & rpc' & Hj & Hp & -> & _).
    exists k. rewrite list_lookup_insert_ne; [done|]. intros ->. congruence.
  - destruct Hd as (_ & rpcj & Hj & Hp & ->).
    exists k. rewrite list_lookup_insert_ne; [done|]. intros ->. congruence.
  - destruct Hd as (-> & _). by exists k.
  - destruct Hd as (-> & _). by exists k.
Qed.

Lemma run_AbortSeen acts w w' :
  run objectFinder_lookup objectFinder_flush PrepareRpc_MAX_OBJECTS_PER_RPC
    DecisionRpc_MAX_OBJECTS_PER_RPC wrap acts w = Some w' →
  AbortSeen w → AbortSeen w'.
Proof.
  revert w. induction acts as [|a acts IH]; intros w; simpl.
  - intros ?; by simplify_eq.
  - destruct (exec' a w) as [w1|] eqn:Hstep; simpl; [|done].
    intros Hrun Ha. apply (IH w1 Hrun).
    destruct a as [|ev]; simpl in Hstep.
    + injection Hstep as <-. by apply performTask_AbortSeen.
    + by eapply deliver_AbortSeen.
Qed.


(** X19: one vote to abort decides: when a server has answered a prepare
    request with [STATUS_OK] and the vote [ABORT], the task, whenever it
    ends without an error, ends with the decision [ABORT]. *)
Theorem abort_vote_aborts_the_transaction w j w1 acts w2 :
  Reachable' w →
  deliver objectFinder_flush (PrepareResponse j STATUS_OK TxPrepare.ABORT) w
  = Some w1 →
  run objectFinder_lookup objectFinder_flush PrepareRpc_MAX_OBJECTS_PER_RPC
    DecisionRpc_MAX_OBJECTS_PER_RPC wrap acts w1 = Some w2 →
  state (task w2) = DONE → status (task w2) = STATUS_OK →
  decision (task w2) = TxDecision.ABORT.
Proof.
  intros Hr Hd Hrun Hs Hst.
  assert (Reachable' w1) as Hr1.
  { apply (Reachable_step _ _ _ _ _ w
             (Deliver (PrepareResponse j STATUS_OK TxPrepare.ABORT)) w1 Hr).
    exact Hd. }
  pose proof (run_Reachable _ _ _ Hr1 Hrun) as Hr2.
  assert (AbortSeen w1) as Ha.
  { right. left. apply deliver_pipelines in Hd as (_ & rpc & Hj & _ & Hp).
    exists (PrepareRpc_complete FINISHED STATUS_OK TxPrepare.ABORT rpc).
    split; [|done]. rewrite Hp. apply list_elem_of_lookup.
    exists j. apply list_lookup_insert_eq. by eapply lookup_lt_Some. }
  destruct (run_AbortSeen _ _ _ Hrun Ha) as [?|[(rpc & Hin & _)|[_ ?]]];
    [done| |done].
  destruct (Reachable_PhaseInv w2 Hr2) as (_ & _ & _ & P4 & _).
  destruct (P4 Hs) as [Hp _]. rewrite Hp in Hin. by apply elem_of_nil in Hin.
Qed.

(** ** Every entry gets into a request *)

Lemma PrepareRpc_appendOp_ops i rpc t :
  length (p_ops rpc) = p_opCount rpc →
  let rpc' := (PrepareRpc_appendOp i rpc t).1 in
  length (p_ops rpc') = p_opCount rpc'
  ∧ (∀ j, j ∈ p_ops rpc → j ∈ p_ops rpc')
  ∧ (∀ key e, commitCache t !! i = Some (key, e) →
              e_type e ≠ CacheEntry.INVALID → i ∈ p_ops rpc').
Proof.
  intros Hlen. unfold PrepareRpc_appendOp.
  destruct (commitCache t !! i) as [[key e]|] eqn:Hl; [|done].
  destruct (e_type e) eqn:Hty; simpl;
    try (rewrite <- Hlen, firstn_all, length_app; simpl;
         split; [lia|]; split;
         [intros j Hj; apply elem_of_app; by left
         |intros _ _ _ _; apply elem_of_app; right; by apply list_elem_of_singleton]).
  split; [done|]. split; [done|]. intros key' e' ? ?. simplify_eq.
Qed.

Lemma DecisionRpc_appendOp_ops i rpc t :
  length (d_ops rpc) = d_participantCount rpc →
  let rpc' := (DecisionRpc_appendOp i rpc t).1 in
  length (d_ops rpc') = d_participantCount rpc'
  ∧ (∀ j, j ∈ d_ops rpc → j ∈ d_ops rpc')
  ∧ (∀ key e, commitCache t !! i = Some (key, e) → i ∈ d_ops rpc').
Proof.
  intros Hlen. unfold DecisionRpc_appendOp.
  destruct (commitCache t !! i) as [[key e]|] eqn:Hl; [|done]. simpl.
  rewrite <- Hlen, firstn_all, length_app; simpl.
  split; [lia|]. split.
  - intros j Hj. apply elem_of_app. by left.
  - intros _ _ _. apply elem_of_app. right. by apply list_elem_of_singleton.
Qed.

(** Every entry that the loop of [sendPrepareRpc] takes to [PREPARE] is
    an operation of the request that the loop ends with. *)
Lemma sendPrepareLoop_covers n finder t cur :
  (∀ s rpc, cur = Some (s, rpc) → length (p_ops rpc) = p_opCount rpc) →
  let r := sendPrepareLoop objectFinder_lookup PrepareRpc_MAX_OBJECTS_PER_RPC
             n finder t cur in
  ∀ i,
    (∃ s rpc, cur = Some (s, rpc) ∧ i ∈ p_ops rpc)
    ∨ (nextCacheEntry t ≤ i
       ∧ ∃ key e e', commitCache t !! i = Some (key, e)
                     ∧ e_state e ≠ CacheEntry.PREPARE
                     ∧ commitCache r.1 !! i = Some (key, e')
                     ∧ e_state e' = CacheEntry.PREPARE) →
    ∃ s rpc, r.2 = Some (s, rpc) ∧ i ∈ p_ops rpc.
Proof.
  revert t cur. induction n as [|n IH]; intros t cur Hlen; simpl.
  { intros i [?|(_ & key & e & e' & H1 & H2 & H3 & H4)]; [done|].
    congruence. }
  destruct (commitCache t !! nextCacheEntry t) as [[key e]|] eqn:Hl; simpl.
  2:{ intros i [?|(_ & key & e & e' & H1 & H2 & H3 & H4)]; [done|].
      congruence. }
  destruct (decide (e_state e = CacheEntry.PREPARE)) as [Hp|Hp].
  { intros i Hi. apply (IH (advance t) cur Hlen).
    destruct Hi as [?|(Hge & key' & e0 & e' & H1 & H2 & H3 & H4)]; [by left|].
    right. simpl. split.
    - destruct (decide (i = nextCacheEntry t)) as [->|?]; [congruence|lia].
    - by exists key', e0, e'. }
  set (session := objectFinder_lookup finder (tableId key) (keyHash key)).
  assert (∃ rpcSession nextRpc,
            match cur with
            | Some c => c
            | None => (session, newPrepareRpc session t)
            end = (rpcSession, nextRpc)
            ∧ length (p_ops nextRpc) = p_opCount nextRpc
            ∧ (∀ s rpc, cur = Some (s, rpc) → rpc = nextRpc))
    as (rpcSession & nextRpc & -> & Hlen' & Hcur).
  { destruct cur as [[s0 rpc0]|].
    - exists s0, rpc0. split; [done|]. split; [by apply (Hlen s0)|].
      intros s rpc ?. by simplify_eq.
    - exists session, (newPrepareRpc session t). by repeat split. }
  destruct (sameLocator session rpcSession && _); simpl.
  2:{ intros i [(s & rpc & Hc & Hin)|(_ & key' & e0 & e' & H1 & H2 & H3 & H4)];
        [|congruence].
      exists rpcSession, nextRpc. split; [done|]. by rewrite <- (Hcur s rpc Hc). }
  pose proof (PrepareRpc_appendOp_ops (nextCacheEntry t) nextRpc t Hlen')
    as (A1 & A2 & A3).
  pose proof (PrepareRpc_appendOp_cursor (nextCacheEntry t) nextRpc t) as Ac.
  pose proof (PrepareRpc_appendOp_lookup (nextCacheEntry t) nextRpc t) as Al.
  destruct (PrepareRpc_appendOp (nextCacheEntry t) nextRpc t) as [rpc' t''];
    simpl in *.
  intros i Hi.
  apply (IH (advance t'') (Some (rpcSession, rpc'))).
  { intros s rpc ?. by simplify_eq. }
  destruct Hi as [(s & rpc & Hc & Hin)|(Hge & key' & e0 & e' & H1 & H2 & H3 & H4)].
  { left. exists rpcSession, rpc'. split; [done|]. apply A2.
    by rewrite <- (Hcur s rpc Hc). }
  destruct (decide (i = nextCacheEntry t)) as [->|Hne].
  - rewrite Hl in H1. simplify_eq.
    destruct (decide (e_type e0 = CacheEntry.INVALID)) as [Hty|Hty].
    + exfalso.
      pose proof (sendPrepareLoop_scan n finder (advance t'')
                    (Some (rpcSession, rpc'))) as (_ & _ & _ & S4 & _).
      simpl in S4. rewrite S4 in H3 by (left; lia).
      rewrite Al, Hl in H3. simpl in H3.
      rewrite decide_False in H3 by (by intros [_ ?]). congruence.
    + left. exists rpcSession, rpc'. split; [done|]. by eapply A3.
  - right. simpl. split; [lia|]. exists key', e0, e'.
    split; [|done]. rewrite Al, H1. simpl.
    rewrite decide_False; [done|]. intros [? _]. congruence.
Qed.

Lemma sendDecisionLoop_covers n finder t cur :
  (∀ s rpc, cur = Some (s, rpc) →
            length (d_ops rpc) = d_participantCount rpc) →
  let r := sendDecisionLoop objectFinder_lookup DecisionRpc_MAX_OBJECTS_PER_RPC
             n finder t cur in
  ∀ i,
    (∃ s rpc, cur = Some (s, rpc) ∧ i ∈ d_ops rpc)
    ∨ (nextCacheEntry t ≤ i
       ∧ ∃ key e e', commitCache t !! i = Some (key, e)
                     ∧ e_state e ≠ CacheEntry.DECIDE
                     ∧ commitCache r.1 !! i = Some (key, e')
                     ∧ e_state e' = CacheEntry.DECIDE) →
    ∃ s rpc, r.2 = Some (s, rpc) ∧ i ∈ d_ops rpc.
Proof.
  revert t cur. induction n as [|n IH]; intros t cur Hlen; simpl.
  { intros i [?|(_ & key & e & e' & H1 & H2 & H3 & H4)]; [done|].
    congruence. }
  destruct (commitCache t !! nextCacheEntry t) as [[key e]|] eqn:Hl; simpl.
  2:{ intros i [?|(_ & key & e & e' & H1 & H2 & H3 & H4)]; [done|].
      congruence. }
  destruct (decide (e_state e = CacheEntry.DECIDE)) as [Hp|Hp].
  { intros i Hi. apply (IH (advance t) cur Hlen).
    destruct Hi as [?|(Hge & key' & e0 & e' & H1 & H2 & H3 & H4)]; [by left|].
    right. simpl. split.
    - destruct (decide (i = nextCacheEntry t)) as [->|?]; [congruence|lia].
    - by exists key', e0, e'. }
  set (session := objectFinder_lookup finder (tableId key) (keyHash key)).
  assert (∃ rpcSession nextRpc,
            match cur with
            | Some c => c
            | None => (session, newDecisionRpc session t)
            end = (rpcSession, nextRpc)
            ∧ length (d_ops nextRpc) = d_participantCount nextRpc
            ∧ (∀ s rpc, cur = Some (s, rpc) → rpc = nextRpc))
    as (rpcSession & nextRpc & -> & Hlen' & Hcur).
  { destruct cur as [[s0 rpc0]|].
    - exists s0, rpc0. split; [done|]. split; [by apply (Hlen s0)|].
      intros s rpc ?. by simplify_eq.
    - exists session, (newDecisionRpc session t). by repeat split. }
  destruct (sameLocator session rpcSession && _); simpl.
  2:{ intros i [(s & rpc & Hc & Hin)|(_ & key' & e0 & e' & H1 & H2 & H3 & H4)];
        [|congruence].
      exists rpcSession, nextRpc. split; [done|]. by rewrite <- (Hcur s rpc Hc). }
  pose proof (DecisionRpc_appendOp_ops (nextCacheEntry t) nextRpc t Hlen')
    as (A1 & A2 & A3).
  pose proof (DecisionRpc_appendOp_cursor (nextCacheEntry t) nextRpc t) as Ac.
  pose proof (DecisionRpc_appendOp_task (nextCacheEntry t) nextRpc t key e Hl)
    as At.
  destruct (DecisionRpc_appendOp (nextCacheEntry t) nextRpc t) as [rpc' t''];
    simpl in *.
  intros i Hi.
  apply (IH (advance t'') (Some (rpcSession, rpc'))).
  { intros s rpc ?. by simplify_eq. }
  destruct Hi as [(s & rpc & Hc & Hin)|(Hge & key' & e0 & e' & H1 & H2 & H3 & H4)].
  { left. exists rpcSession, rpc'. split; [done|]. apply A2.
    by rewrite <- (Hcur s rpc Hc). }
  destruct (decide (i = nextCacheEntry t)) as [->|Hne].
  - left. exists rpcSession, rpc'. split; [done|]. by eapply A3.
  - right. simpl. split; [lia|]. exists key', e0, e'.
    split; [|done]. subst t''. rewrite set_entry_state_lookup, H1. simpl.
    rewrite decide_False; [done|]. congruence.
Qed.

Lemma sendPrepareRpc_covers w i key e e' :
  let w' := sendPrepareRpc objectFinder_lookup PrepareRpc_MAX_OBJECTS_PER_RPC w in
  commitCache (task w) !! i = Some (key, e) →
  e_state e ≠ CacheEntry.PREPARE →
  commitCache (task w') !! i = Some (key, e') →
  e_state e' = CacheEntry.PREPARE →
  ∃ rpc, sentPrepares (ramcloud w') = sentPrepares (ramcloud w) ++ [rpc]
         ∧ i ∈ p_ops rpc.
Proof.
  unfold sendPrepareRpc.
  set (n := length (commitCache (task w)) - nextCacheEntry (task w)).
  pose proof (sendPrepareLoop_covers n (objectFinder (ramcloud w)) (task w) None
                ltac:(done) i) as Hcov.
  pose proof (sendPrepareLoop_scan n (objectFinder (ramcloud w)) (task w) None)
    as (_ & _ & _ & S4 & _).
  simpl in Hcov, S4.
  destruct (sendPrepareLoop _ _ _ _ _ _) as [t' cur'] eqn:Hloop. simpl in *.
  intros H1 H2 H3 H4.
  assert (commitCache t' !! i = Some (key, e')) as H3'.
  { by destruct cur' as [[s rpc]|]. }
  destruct Hcov as (s & rpc & -> & Hin).
  { right. split.
    - destruct (decide (nextCacheEntry (task w) ≤ i)) as [?|Hlt]; [done|].
      rewrite S4 in H3' by (left; lia). congruence.
    - by exists key, e, e'. }
  simpl. eexists. split; [done|]. done.
Qed.

Lemma sendDecisionRpc_covers w i key e e' :
  let w' := sendDecisionRpc objectFinder_lookup DecisionRpc_MAX_OBJECTS_PER_RPC w in
  commitCache (task w) !! i = Some (key, e) →
  e_state e ≠ CacheEntry.DECIDE →
  commitCache (task w') !! i = Some (key, e') →
  e_state e' = CacheEntry.DECIDE →
  ∃ rpc, sentDecisions (ramcloud w') = sentDecisions (ramcloud w) ++ [rpc]
         ∧ i ∈ d_ops rpc.
Proof.
  unfold sendDecisionRpc.
  set (n := length (commitCache (task w)) - nextCacheEntry (task w)).
  pose proof (sendDecisionLoop_covers n (objectFinder (ramcloud w)) (task w) None
                ltac:(done) i) as Hcov.
  pose proof (sendDecisionLoop_scan n (objectFinder (ramcloud w)) (task w) None)
    as (_ & _ & _ & S4 & _).
  simpl in Hcov, S4.
  destruct (sendDecisionLoop _ _ _ _ _ _) as [t' cur'] eqn:Hloop. simpl in *.
  intros H1 H2 H3 H4.
  assert (commitCache t' !! i = Some (key, e')) as H3'.
  { by destruct cur' as [[s rpc]|]. }
  destruct Hcov as (s & rpc & -> & Hin).
  { right. split.
    - destruct (decide (nextCacheEntry (task w) ≤ i)) as [?|Hlt]; [done|].
      rewrite S4 in H3' by (left; lia). congruence.
    - by exists key, e, e'. }
  simpl. eexists. split; [done|]. done.
Qed.

Lemma CacheRel_lookup_r (R : CacheEntry → CacheEntry → Prop) c c' i key e' :
  CacheRel R c c' → c' !! i = Some (key, e') →
  ∃ e, c !! i = Some (key, e) ∧ R e e'.
Proof.
  intros H Hl.
  destruct (Forall2_lookup_r _ _ _ _ _ H Hl) as ([k e] & Hl' & Hk & HR).
  simpl in *. subst. eauto.
Qed.

(** The coverage of the entries that are [PREPARE] across a call of
    [sendPrepareRpc]. *)
Lemma sendPrepareRpc_covered w :
  let w' := sendPrepareRpc objectFinder_lookup PrepareRpc_MAX_OBJECTS_PER_RPC w in
  (∀ i key e, commitCache (task w) !! i = Some (key, e) →
              e_state e = CacheEntry.PREPARE →
              Exists (λ rpc, i ∈ p_ops rpc) (sentPrepares (ramcloud w))) →
  ∀ i key e, commitCache (task w') !! i = Some (key, e) →
             e_state e = CacheEntry.PREPARE →
             Exists (λ rpc, i ∈ p_ops rpc) (sentPrepares (ramcloud w')).
Proof.
  cbv zeta. intros Hold i key e' Hl' Hst.
  destruct (sendPrepareRpc_frame w) as (_ & _ & _ & _ & _ & _ & _ & F8).
  destruct (sendPrepareRpc_facts w) as (_ & _ & G5).
  destruct (CacheRel_lookup_r _ _ _ _ _ _ F8 Hl') as (e & Hl & _ & Hby).
  destruct (decide (e_state e = CacheEntry.PREPARE)) as [Hp|Hp].
  - specialize (Hold i key e Hl Hp).
    destruct G5 as [[_ G5] | (rpc0 & _ & G5 & _)]; rewrite G5; [done|].
    apply Exists_app. by left.
  - destruct (sendPrepareRpc_covers w i key e e' Hl Hp Hl' Hst)
      as (rpc & Hs & Hin).
    rewrite Hs. apply Exists_app. right. by constructor.
Qed.

Lemma sendDecisionRpc_covered w :
  let w' := sendDecisionRpc objectFinder_lookup DecisionRpc_MAX_OBJECTS_PER_RPC w in
  (∀ i key e, commitCache (task w) !! i = Some (key, e) →
              e_state e = CacheEntry.DECIDE →
              Exists (λ rpc, i ∈ d_ops rpc) (sentDecisions (ramcloud w))) →
  ∀ i key e, commitCache (task w') !! i = Some (key, e) →
             e_state e = CacheEntry.DECIDE →
             Exists (λ rpc, i ∈ d_ops rpc) (sentDecisions (ramcloud w')).
Proof.
  cbv zeta. intros Hold i key e' Hl' Hst.
  destruct (sendDecisionRpc_frame w) as (_ & _ & _ & _ & _ & _ & _ & F8).
  destruct (sendDecisionRpc_facts w) as (_ & _ & G5).
  destruct (CacheRel_lookup_r _ _ _ _ _ _ F8 Hl') as (e & Hl & _ & Hby).
  destruct (decide (e_state e = CacheEntry.DECIDE)) as [Hp|Hp].
  - specialize (Hold i key e Hl Hp).
    destruct G5 as [[_ G5] | (rpc0 & _ & G5 & _)]; rewrite G5; [done|].
    apply Exists_app. by left.
  - destruct (sendDecisionRpc_covers w i key e e' Hl Hp Hl' Hst)
      as (rpc & Hs & Hin).
    rewrite Hs. apply Exists_app. right. by constructor.
Qed.

Lemma CoverInv_init w :
  state (task w) = INIT → CoverInv w → CoverInv (initBlock w).
Proof.
  intros Hs (C1 & _ & C3).
  destruct (initBlock_spec w Hs) as (F1 & F2 & _ & _ & _ & _ & F7 & F8 & F9).
  unfold CoverInv. rewrite F1, F7, F8.
  split; [|split].
  - intros _ i key e' Hl' Hst.
    destruct (CacheRel_lookup_r _ _ _ _ _ _ F9 Hl') as (e & Hl & He).
    apply (C1 (or_introl Hs) i key e Hl). congruence.
  - intros [?|[? _]]; congruence.
  - intros i key e' Hl' Hst.
    destruct (CacheRel_lookup_r _ _ _ _ _ _ F9 Hl') as (e & Hl & He).
    apply (C3 i key e Hl). congruence.
Qed.

Lemma CoverInv_prepare w :
  state (task w) = PREPARE → CursorInv w → CoverInv w →
  CoverInv (payload (prepareBlock objectFinder_lookup
                       PrepareRpc_MAX_OBJECTS_PER_RPC wrap w)).
Proof.
  intros Hs (_ & H2 & _) (C1 & _ & C3).
  specialize (H2 Hs). specialize (C1 (or_intror Hs)).
  destruct (prepareBlock_shape w Hs) as (rpcs & d & _ & _ & _ & Hm).
  simpl in Hm.
  match type of Hm with context [sendPrepareRpc _ _ ?w1] =>
    destruct (sendPrepareRpc_frame w1) as (F1 & F2 & _ & _ & _ & _ & F7 & F8);
    destruct (sendPrepareRpc_facts w1) as (_ & (S1 & S3 & S4 & S5) & _);
    pose proof (sendPrepareRpc_covered w1) as Hcov
  end.
  unfold_updates. specialize (Hcov C1).
  set (w2 := sendPrepareRpc _ _ _) in *. clearbody w2.
  assert (∀ i key e, commitCache (task w2) !! i = Some (key, e) →
                     e_state e = CacheEntry.DECIDE →
                     Exists (λ rpc, i ∈ d_ops rpc) (sentDecisions (ramcloud w2)))
    as C3'.
  { intros i key e' Hl' Hst. rewrite F7.
    destruct (CacheRel_lookup_r _ _ _ _ _ _ F8 Hl') as (e & Hl & _ & Hby).
    apply (C3 i key e Hl). destruct Hby as [?|[_ ?]]; congruence. }
  destruct Hm as [(st & Hf & ->)|[[-> _]|(-> & He & Hend)]]; simpl;
    unfold CoverInv; unfold_updates.
  - split; [done|]. split; [|done]. rewrite Hs. intros [?|[? _]]; congruence.
  - rewrite F1, Hs. split; [done|]. split; [|done].
    intros [?|[? _]]; congruence.
  - split; [intros [?|?]; congruence|]. split; [|done].
    intros _ i key e Hl Hty. apply (Hcov i key e Hl).
    assert (i < nextCacheEntry (task w2)) as Hi.
    { rewrite Hend. by eapply lookup_lt_Some. }
    destruct (decide (i < nextCacheEntry (task w))) as [Hlt|Hge].
    + rewrite S4 in Hl by auto. eauto.
    + eapply S5; [|done..]. lia.
Qed.

Lemma CoverInv_decision w :
  state (task w) = DECISION → CoverInv w →
  CoverInv (payload (decisionBlock objectFinder_lookup
                       DecisionRpc_MAX_OBJECTS_PER_RPC wrap w)).
Proof.
  intros Hs (_ & C2 & C3).
  specialize (C2 (or_introl Hs)).
  destruct (decisionBlock_shape w Hs) as (rpcs & _ & _ & Hm).
  simpl in Hm.
  match type of Hm with context [sendDecisionRpc _ _ ?w1] =>
    destruct (sendDecisionRpc_frame w1) as (F1 & F2 & _ & _ & _ & _ & F7 & F8);
    pose proof (sendDecisionRpc_covered w1) as Hcov
  end.
  unfold_updates. specialize (Hcov C3).
  set (w2 := sendDecisionRpc _ _ _) in *. clearbody w2.
  assert (∀ i key e, commitCache (task w2) !! i = Some (key, e) →
                     e_type e ≠ CacheEntry.INVALID →
                     Exists (λ rpc, i ∈ p_ops rpc) (sentPrepares (ramcloud w2)))
    as C2'.
  { intros i key e' Hl' Hty. rewrite F7.
    destruct (CacheRel_lookup_r _ _ _ _ _ _ F8 Hl') as (e & Hl & He & _).
    apply (C2 i key e Hl). rewrite He in Hty. done. }
  destruct Hm as [(st & Hf & ->)|[[-> _]|(-> & He & Hend)]]; simpl;
    unfold CoverInv; unfold_updates.
  - rewrite Hs. split; [intros [?|?]; congruence|]. by split.
  - rewrite F1, Hs. split; [intros [?|?]; congruence|]. by split.
  - split; [intros [?|?]; congruence|]. by split.
Qed.

Lemma CoverInv_catch (st : Status) w :
  fatal st → state (task w) = PREPARE ∨ state (task w) = DECISION →
  CoverInv w → CoverInv (catchClientException st w).
Proof.
  intros [Hf _] Hs (_ & _ & C3). unfold CoverInv, catchClientException.
  unfold_updates.
  split; [intros [?|?]; congruence|].
  split; [intros [?|[_ ?]]; congruence|]. done.
Qed.

Lemma performTask_CoverInv w :
  CursorInv w → CoverInv w → CoverInv (performTask' w).
Proof.
  intros Hc Hi.
  apply (performTask_inv (λ w, CursorInv w ∧ CoverInv w)); [..|done].
  - intros w0 Hs [H1 H2].
    split; [by apply CursorInv_init|by apply CoverInv_init].
  - intros w0 Hs [H1 H2].
    split; [by apply CursorInv_prepare|by apply CoverInv_prepare].
  - intros w0 Hs [H1 H2].
    split; [by apply CursorInv_decision|by apply CoverInv_decision].
  - intros st w0 Hf Hs [H1 H2].
    split; [by apply CursorInv_catch|by apply CoverInv_catch].
Qed.

Lemma deliver_CoverInv ev w w' :
  deliver objectFinder_flush ev w = Some w' → CoverInv w → CoverInv w'.
Proof.
  intros Hd (C1 & C2 & C3).
  destruct (deliver_frame _ _ _ Hd) as (F1 & F2 & _ & _ & _ & F6 & F7 & F8).
  unfold CoverInv. rewrite F1, F2, F6, F7.
  split; [|split].
  - intros Hs i key e' Hl' Hst.
    destruct (CacheRel_lookup_r _ _ _ _ _ _ F8 Hl') as (e & Hl & _ & Hby).
    apply (C1 Hs i key e Hl). destruct Hby; congruence.
  - intros Hs i key e' Hl' Hty.
    destruct (CacheRel_lookup_r _ _ _ _ _ _ F8 Hl') as (e & Hl & He & _).
    apply (C2 Hs i key e Hl). rewrite He in Hty. done.
  - intros i key e' Hl' Hst.
    destruct (CacheRel_lookup_r _ _ _ _ _ _ F8 Hl') as (e & Hl & _ & Hby).
    apply (C3 i key e Hl). destruct Hby; congruence.
Qed.

Lemma Reachable_CoverInv w : Reachable' w → CoverInv w.
Proof.
  induction 1 as [w Hi|w a w' Hr IH Hx].
  - destruct Hi as ((_ & _ & F3 & _ & _ & _ & _ & F8) & _).
    rewrite Forall_forall in F8.
    unfold CoverInv. rewrite F3.
    split; [|split].
    + intros _ i key e Hl Hst.
      specialize (F8 _ (list_elem_of_lookup_2 _ _ _ Hl)). simpl in F8.
      congruence.
    + intros [?|[? _]]; congruence.
    + intros i key e Hl Hst.
      specialize (F8 _ (list_elem_of_lookup_2 _ _ _ Hl)). simpl in F8.
      congruence.
  - destruct a as [|ev]; simpl in Hx.
    + injection Hx as <-. apply performTask_CoverInv; [|done].
      by apply Reachable_CursorInv.
    + by eapply deliver_CoverInv.
Qed.

(** X20: every object is prepared before the decision is sent: once the
    task is in the decision phase, or done without an error, every entry
    of the commit cache whose type is known is an operation of a prepare
    request that has been sent. *)
Theorem every_entry_was_prepared w i key e :
  Reachable' w →
  state (task w) = DECISION
  ∨ (state (task w) = DONE ∧ status (task w) = STATUS_OK) →
  commitCache (task w) !! i = Some (key, e) →
  e_type e ≠ CacheEntry.INVALID →
  ∃ rpc, rpc ∈ sentPrepares (ramcloud w) ∧ i ∈ p_ops rpc.
Proof.
  intros Hr Hs Hl Hty.
  destruct (Reachable_CoverInv w Hr) as (_ & C2 & _).
  apply Exists_exists. eauto.
Qed.

(** X21: a task that is done without an error has sent the decision for
    every object: every entry of the commit cache is an operation of a
    decision request that has been sent. *)
Theorem done_ok_has_sent_every_decision w i :
  Reachable objectFinder_lookup objectFinder_flush
    PrepareRpc_MAX_OBJECTS_PER_RPC DecisionRpc_MAX_OBJECTS_PER_RPC wrap w →
  state (task w) = DONE → status (task w) = STATUS_OK →
  i < length (commitCache (task w)) →
  ∃ rpc, rpc ∈ sentDecisions (ramcloud w) ∧ i ∈ d_ops rpc.
Proof.
  intros Hr Hs Hst Hi.
  destruct (Reachable_CoverInv w Hr) as (_ & _ & C3).
  destruct (Reachable_CursorInv w Hr) as (_ & _ & _ & H4).
  destruct (lookup_lt_is_Some_2 _ _ Hi) as [[key e] Hl].
  apply Exists_exists. eapply C3; [exact Hl|]. eauto.
Qed.

(** ** The commit cache as a map *)

Lemma CacheKey_ltb_irrefl (k : CacheKey) : CacheKey_ltb k k = false.
Proof.
  unfold CacheKey_ltb. destruct k. simpl.
  rewrite orb_false_iff, andb_false_iff, !Z.ltb_ge. lia.
Qed.

Lemma CacheKey_ltb_asym (k1 k2 : CacheKey) :
  CacheKey_ltb k1 k2 = true → CacheKey_ltb k2 k1 = false.
Proof. apply CacheKey_le_total. Qed.

(** The key under which an entry that holds [key] is filed. *)
Lemma storesKey_cacheKey hash key (ke : CacheKey * CacheEntry) :
  (∀ buf, e_objectBuf ke.2 = Some buf →
          keyHash ke.1 = hash (tableId ke.1) (ob_key buf)) →
  storesKey key ke →
  ke.1 = mkCacheKey (getTableId key) (hash (getTableId key) (getStringKey key)).
Proof.
  intros Hh (buf & Hb & ->). simpl. rewrite <- (Hh buf Hb). by destruct ke.1.
Qed.

Lemma StronglySorted_lookup_lt {A} (R : A → A → Prop) (l : list A) i j x y :
  StronglySorted R l → l !! i = Some x → l !! j = Some y → i < j → R x y.
Proof.
  intros Hs. revert i j. induction Hs as [|z l Hs IH Hall]; intros i j Hi Hj Hlt;
    [done|].
  destruct j as [|j]; [lia|]. simpl in Hj. destruct i as [|i]; simpl in Hi.
  - simplify_eq. rewrite Forall_forall in Hall. apply Hall.
    by eapply list_elem_of_lookup_2.
  - apply (IH i j); [done..|lia].
Qed.

(** The entries in front of [lower_bound] are less than the key. *)
Lemma lower_bound_spec k (c : list (CacheKey * CacheEntry)) :
  lower_bound k c ≤ length c
  ∧ ∀ j ke, j < lower_bound k c → c !! j = Some ke → CacheKey_ltb ke.1 k = true.
Proof.
  induction c as [|[k' e'] c [IH1 IH2]]; simpl; [split; [done|intros; lia]|].
  destruct (CacheKey_ltb k' k) eqn:Hlt; [|split; [lia|intros; lia]].
  split; [lia|]. intros [|j] ke Hj Hl; simpl in *; [by simplify_eq|].
  apply (IH2 j); [lia|done].
Qed.

(** The entries in front of [upper_bound] are not greater than the key;
    in a cache in key order the others are. *)
Lemma upper_bound_spec k (c : list (CacheKey * CacheEntry)) :
  upper_bound k c ≤ length c
  ∧ (∀ j ke, j < upper_bound k c → c !! j = Some ke →
             CacheKey_ltb k ke.1 = false)
  ∧ (InKeyOrder c →
     ∀ j ke, upper_bound k c ≤ j → c !! j = Some ke →
             CacheKey_ltb k ke.1 = true).
Proof.
  induction c as [|[k' e'] c (IH1 & IH2 & IH3)]; simpl.
  { split; [done|]. split; [intros; lia|]. intros _ j ke _ Hl. done. }
  destruct (CacheKey_ltb k k') eqn:Hlt.
  - split; [lia|]. split; [intros; lia|].
    intros Hs j ke _ Hl. apply StronglySorted_inv in Hs as [_ Hall].
    destruct j as [|j]; simpl in Hl; [by simplify_eq|].
    rewrite Forall_forall in Hall.
    assert (CacheKey_le k' ke.1) as Hle.
    { apply Hall. apply list_elem_of_fmap. exists ke. split; [done|].
      by eapply list_elem_of_lookup_2. }
    unfold CacheKey_le, CacheKey_ltb in *. destruct k, k', ke.1. simpl in *.
    revert Hlt Hle.
    rewrite orb_true_iff, andb_true_iff, orb_false_iff, andb_false_iff,
      !Z.ltb_lt, !Z.ltb_ge, Z.eqb_eq, Z.eqb_neq.
    intros. apply orb_true_iff. rewrite andb_true_iff, !Z.ltb_lt, Z.eqb_eq. lia.
  - split; [lia|]. split.
    + intros [|j] ke Hj Hl; simpl in *; [by simplify_eq|].
      apply (IH2 j); [lia|done].
    + intros Hs [|j] ke Hj Hl; simpl in *; [lia|].
      apply StronglySorted_inv in Hs as [Hs _].
      apply (IH3 Hs j); [lia|done].
Qed.

(** The loop of [findCacheEntry]: it returns the first entry that holds
    the key unless an entry with a greater key comes first. *)
Lemma findCacheEntryLoop_spec key ck (c : list (CacheKey * CacheEntry)) it :
  match findCacheEntryLoop key ck c it with
  | Some i =>
      ∃ j, i = it + j
           ∧ (∃ ke, c !! j = Some ke ∧ storesKey key ke)
           ∧ ∀ j' ke', j' < j → c !! j' = Some ke' → ¬ storesKey key ke'
  | None =>
      ∀ j ke, c !! j = Some ke → storesKey key ke →
              ∃ j' ke', j' ≤ j ∧ c !! j' = Some ke'
                        ∧ CacheKey_ltb ck ke'.1 = true
  end.
Proof.
  revert it. induction c as [|[k' e'] c IH]; intros it; simpl; [done|].
  destruct (CacheKey_ltb ck k') eqn:Hlt.
  { intros j ke _ _. exists 0, (k', e'). split; [lia|]. by split. }
  assert (Hnext : ¬ storesKey key (k', e') →
            match findCacheEntryLoop key ck c (S it) with
            | Some i =>
                ∃ j, i = it + j
                     ∧ (∃ ke, ((k', e') :: c) !! j = Some ke ∧ storesKey key ke)
                     ∧ ∀ j' ke', j' < j → ((k', e') :: c) !! j' = Some ke' →
                                 ¬ storesKey key ke'
            | None =>
                ∀ j ke, ((k', e') :: c) !! j = Some ke → storesKey key ke →
                        ∃ j' ke', j' ≤ j ∧ ((k', e') :: c) !! j' = Some ke'
                                  ∧ CacheKey_ltb ck ke'.1 = true
            end).
  { intros Hno. specialize (IH (S it)).
    destruct (findCacheEntryLoop key ck c (S it)) as [i|].
    - destruct IH as (j & -> & Hj & Hfirst). exists (S j).
      split; [lia|]. split; [done|].
      intros [|j'] ke' Hlt' Hl; simpl in Hl; [by simplify_eq|].
      apply (Hfirst j'); [lia|done].
    - intros [|j] ke Hl Hst; simpl in Hl; [by simplify_eq|].
      destruct (IH j ke Hl Hst) as (j' & ke' & ? & ? & ?).
      exists (S j'), ke'. split; [lia|]. by split. }
  destruct (e_objectBuf e') as [buf|] eqn:Hb.
  - case_decide as Hk.
    + exists 0. split; [lia|]. split; [|intros; lia].
      exists (k', e'). split; [done|]. by exists buf.
    + apply Hnext. intros (buf' & Hb' & Hk'). simpl in *. congruence.
  - apply Hnext. intros (buf' & Hb' & _). simpl in *. congruence.
Qed.

Lemma firstStoring_unique key (c : list (CacheKey * CacheEntry)) i j :
  firstStoring key c i → firstStoring key c j → i = j.
Proof.
  intros [(ke & Hi & Hsi) Hfi] [(ke' & Hj & Hsj) Hfj].
  destruct (Nat.lt_trichotomy i j) as [Hlt|[?|Hlt]]; [|done|].
  - by destruct (Hfj i ke Hlt Hi).
  - by destruct (Hfi j ke' Hlt Hj).
Qed.

(** [findCacheEntry] on a cache in key order whose entries are filed
    under their hashes. *)
Lemma findCacheEntry_firstStoring hash key t :
  Hashed hash (commitCache t) →
  match findCacheEntry hash key t with
  | Some i => firstStoring key (commitCache t) i
  | None =>
      InKeyOrder (commitCache t) →
      ∀ j ke, commitCache t !! j = Some ke → ¬ storesKey key ke
  end.
Proof.
  intros Hh. unfold findCacheEntry.
  set (ck := mkCacheKey (getTableId key)
               (hash (getTableId key) (getStringKey key))).
  set (lb := lower_bound ck (commitCache t)).
  destruct (lower_bound_spec ck (commitCache t)) as [Hlb Hless]. fold lb in Hlb, Hless.
  unfold Hashed in Hh. rewrite Forall_forall in Hh.
  assert (Hfront : ∀ j ke, j < lb → commitCache t !! j = Some ke →
                           ¬ storesKey key ke).
  { intros j ke Hj Hl Hst.
    pose proof (storesKey_cacheKey hash key ke
                  (Hh ke (list_elem_of_lookup_2 _ _ _ Hl)) Hst) as Hk.
    specialize (Hless j ke Hj Hl). fold ck in Hk. rewrite Hk in Hless.
    by rewrite CacheKey_ltb_irrefl in Hless. }
  pose proof (findCacheEntryLoop_spec key ck (drop lb (commitCache t)) lb) as Hs.
  destruct (findCacheEntryLoop key ck (drop lb (commitCache t)) lb) as [i|].
  - destruct Hs as (j & -> & (ke & Hl & Hst) & Hfirst).
    rewrite lookup_drop in Hl. split; [by exists ke|].
    intros j' ke' Hlt Hl'.
    destruct (decide (j' < lb)) as [?|Hge]; [by eapply Hfront|].
    apply (Hfirst (j' - lb)); [lia|]. rewrite lookup_drop.
    by replace (lb + (j' - lb)) with j' by lia.
  - intros Hord j ke Hl Hst.
    destruct (decide (j < lb)) as [?|Hge]; [by eapply Hfront|].
    destruct (Hs (j - lb) ke) as (j' & ke' & Hle & Hl' & Hgt); [|done|].
    { rewrite lookup_drop. by replace (lb + (j - lb)) with j by lia. }
    rewrite lookup_drop in Hl'.
    pose proof (storesKey_cacheKey hash key ke
                  (Hh ke (list_elem_of_lookup_2 _ _ _ Hl)) Hst) as Hk.
    fold ck in Hk.
    (* the entry at lb + j' is not behind the entry at j in the order *)
    assert (CacheKey_le ke'.1 ke.1) as Hle'.
    { destruct (decide (lb + j' = j)) as [Heq|Hne].
      - rewrite Heq in Hl'. simplify_eq. apply CacheKey_ltb_irrefl.
      - unfold InKeyOrder in Hord.
        apply (StronglySorted_lookup_lt CacheKey_le _ (lb + j') j
                 ke'.1 ke.1 Hord).
        + by rewrite list_lookup_fmap, Hl'.
        + by rewrite list_lookup_fmap, Hl.
        + lia. }
    rewrite Hk in Hle'. unfold CacheKey_le in Hle'. congruence.
Qed.

(** X22: [findCacheEntry] returns an entry that holds the key asked for:
    the entry holds an object, in the table of the key and with its key
    bytes. *)
Theorem findCacheEntry_returns_an_entry_of_the_key hash key t i :
  findCacheEntry hash key t = Some i →
  ∃ k e buf, commitCache t !! i = Some (k, e)
             ∧ e_objectBuf e = Some buf
             ∧ tableId k = getTableId key
             ∧ ob_key buf = getStringKey key.
Proof.
  unfold findCacheEntry.
  set (ck := mkCacheKey (getTableId key)
               (hash (getTableId key) (getStringKey key))).
  set (lb := lower_bound ck (commitCache t)).
  pose proof (findCacheEntryLoop_spec key ck (drop lb (commitCache t)) lb) as Hs.
  intros Hf. rewrite Hf in Hs.
  destruct Hs as (j & -> & ([k e] & Hl & buf & Hb & ->) & _).
  rewrite lookup_drop in Hl. by exists k, e, buf.
Qed.

(** X23: in a cache in key order whose entries are filed under the hashes
    of their keys, [findCacheEntry] returns the first entry that holds
    the key, and [NULL] only if no entry holds it. *)
Theorem findCacheEntry_finds_the_first_entry hash key t :
  InKeyOrder (commitCache t) → Hashed hash (commitCache t) →
  match findCacheEntry hash key t with
  | Some i => firstStoring key (commitCache t) i
  | None => ∀ j ke, commitCache t !! j = Some ke → ¬ storesKey key ke
  end.
Proof.
  intros Hord Hh. pose proof (findCacheEntry_firstStoring hash key t Hh) as Hs.
  destruct (findCacheEntry hash key t); [exact Hs|exact (Hs Hord)].
Qed.

Lemma insertCacheEntry_lookup dflt hash table key buf t :
  let r := insertCacheEntry dflt hash table key buf t in
  r.1 ≤ length (commitCache t)
  ∧ commitCache r.2 !! r.1
    = Some (mkCacheKey table (hash table key),
            mkCacheEntry CacheEntry.INVALID (Some (mkObjectBuffer key buf))
              dflt 0 CacheEntry.PENDING)
  ∧ (∀ j, j < r.1 → commitCache r.2 !! j = commitCache t !! j)
  ∧ (∀ j, r.1 ≤ j → commitCache r.2 !! S j = commitCache t !! j).
Proof.
  simpl. set (ck := mkCacheKey table (hash table key)).
  destruct (upper_bound_spec ck (commitCache t)) as (Hle & _).
  set (p := upper_bound ck (commitCache t)) in *.
  assert (length (take p (commitCache t)) = p) as Hlen
    by (rewrite length_take; lia).
  split; [done|]. split; [|split].
  - rewrite lookup_app_r by lia. rewrite Hlen, Nat.sub_diag. done.
  - intros j Hj. rewrite lookup_app_l by lia. by rewrite lookup_take_lt.
  - intros j Hj. rewrite lookup_app_r by lia. rewrite Hlen.
    replace (S j - p) with (S (j - p)) by lia. simpl.
    rewrite lookup_drop. f_equal. lia.
Qed.

(** X24: [insertCacheEntry] adds one entry and changes nothing else: the
    new entry is filed under the table and the hash of the key, holds the
    key and the value, and is otherwise as the default constructor makes
    it; without it the cache is the cache before the call, and the other
    fields of the task are untouched. *)
Theorem insertCacheEntry_adds_one_entry dflt hash table key buf t :
  let r := insertCacheEntry dflt hash table key buf t in
  commitCache r.2 !! r.1
  = Some (mkCacheKey table (hash table key),
          mkCacheEntry CacheEntry.INVALID (Some (mkObjectBuffer key buf))
            dflt 0 CacheEntry.PENDING)
  ∧ delete r.1 (commitCache r.2) = commitCache t
  ∧ set_commitCache (commitCache t) r.2 = t.
Proof.
  destruct (insertCacheEntry_lookup dflt hash table key buf t) as (Hle & Hl & _).
  split; [exact Hl|]. simpl in *. split; [|by destruct t].
  set (p := upper_bound _ _) in *.
  assert (length (take p (commitCache t)) = p) as Hlen
    by (rewrite length_take; lia).
  rewrite <- Hlen at 1. rewrite delete_middle. apply take_drop.
Qed.

Lemma insertCacheEntry_Hashed dflt hash table key buf t :
  Hashed hash (commitCache t) →
  Hashed hash (commitCache (insertCacheEntry dflt hash table key buf t).2).
Proof.
  unfold Hashed. simpl. intros Hc.
  rewrite <- (take_drop (upper_bound (mkCacheKey table (hash table key))
                           (commitCache t)) (commitCache t)) in Hc.
  apply Forall_app in Hc as [Hc1 Hc2].
  apply Forall_app. split; [done|]. constructor; [|done].
  simpl. intros b ?. by simplify_eq.
Qed.

(** X25: staging keeps the cache as [findCacheEntry] and the commit need
    it: after [insertCacheEntry] the cache is still in key order, every
    entry is still filed under the hash of its key, and the task is still
    as the constructor left it, with every entry [PENDING]. *)
Theorem insertCacheEntry_keeps_the_cache_in_order dflt hash table key buf t :
  InKeyOrder (commitCache t) → Hashed hash (commitCache t) → Fresh t →
  let t' := (insertCacheEntry dflt hash table key buf t).2 in
  InKeyOrder (commitCache t') ∧ Hashed hash (commitCache t') ∧ Fresh t'.
Proof.
  intros Hord Hh Hf. split; [by apply insertCacheEntry_InKeyOrder|].
  split; [by apply insertCacheEntry_Hashed|by apply insertCacheEntry_Fresh].
Qed.

(** X26: what has been inserted is found, and the first insertion wins:
    after [insertCacheEntry] of a key, [findCacheEntry] of that key
    returns the entry it returned before the insertion if there was one,
    and the new entry otherwise. *)
Theorem insert_then_find dflt hash table key buf t :
  InKeyOrder (commitCache t) → Hashed hash (commitCache t) →
  let r := insertCacheEntry dflt hash table key buf t in
  findCacheEntry hash (mkKey table key) r.2
  = Some match findCacheEntry hash (mkKey table key) t with
         | Some i => i
         | None => r.1
         end.
Proof.
  intros Hord Hh r.
  destruct (insertCacheEntry_lookup dflt hash table key buf t)
    as (Hle & Hnew & Hfront & _). fold r in Hle, Hnew, Hfront.
  pose proof (insertCacheEntry_InKeyOrder dflt hash table key buf t Hord) as Hord'.
  pose proof (insertCacheEntry_Hashed dflt hash table key buf t Hh) as Hh'.
  fold r in Hord', Hh'.
  assert (storesKey (mkKey table key)
            (mkCacheKey table (hash table key),
             mkCacheEntry CacheEntry.INVALID (Some (mkObjectBuffer key buf))
               dflt 0 CacheEntry.PENDING)) as Hst.
  { by exists (mkObjectBuffer key buf). }
  assert (firstStoring (mkKey table key) (commitCache r.2)
            match findCacheEntry hash (mkKey table key) t with
            | Some i => i
            | None => r.1
            end) as Hfirst.
  { pose proof (findCacheEntry_firstStoring hash (mkKey table key) t Hh) as Hs.
    destruct (findCacheEntry hash (mkKey table key) t) as [i|].
    - destruct Hs as [(ke & Hl & Hke) Hbefore].
      assert (i < r.1) as Hi.
      { destruct (decide (i < r.1)) as [?|Hge]; [done|]. exfalso.
        destruct (upper_bound_spec (mkCacheKey table (hash table key))
                    (commitCache t)) as (_ & _ & Hup).
        specialize (Hup Hord i ke ltac:(simpl in *; lia) Hl).
        unfold Hashed in Hh. rewrite Forall_forall in Hh.
        rewrite (storesKey_cacheKey hash (mkKey table key) ke
                   (Hh ke (list_elem_of_lookup_2 _ _ _ Hl)) Hke) in Hup.
        simpl in Hup. by rewrite CacheKey_ltb_irrefl in Hup. }
      split.
      + exists ke. by rewrite Hfront.
      + intros j ke' Hj Hl'. rewrite Hfront in Hl' by lia. eauto.
    - specialize (Hs Hord). split.
      + eexists. split; [exact Hnew|exact Hst].
      + intros j ke' Hj Hl'. rewrite Hfront in Hl' by lia. eauto. }
  pose proof (findCacheEntry_firstStoring hash (mkKey table key) r.2 Hh') as Hs'.
  destruct (findCacheEntry hash (mkKey table key) r.2) as [i'|].
  - f_equal. by eapply firstStoring_unique.
  - exfalso. by apply (Hs' Hord' _ _ Hnew).
Qed.

(** ** Sessions and retries *)

(** X27: a transport error of a prepare request flushes the session of the
    request once: the locator of the session is flushed and the request
    forgets the session, so that a second failure of the same request
    flushes nothing. *)
Theorem prepare_transport_error_flushes_the_session_once w j rpc :
  prepareRpcs (task w) !! j = Some rpc →
  let w' := PrepareRpc_handleTransportError objectFinder_flush j w in
  flushedSessions (ramcloud w')
  = flushedSessions (ramcloud w)
    ++ match p_session rpc with
       | Some s => [getServiceLocator s]
       | None => []
       end
  ∧ (∃ rpc', prepareRpcs (task w') !! j = Some rpc' ∧ p_session rpc' = None)
  ∧ flushedSessions
      (ramcloud (PrepareRpc_handleTransportError objectFinder_flush j w'))
    = flushedSessions (ramcloud w').
Proof.
  intros Hj.
  assert (Hstep : ∀ w0 rpc0,
            prepareRpcs (task w0) !! j = Some rpc0 →
            let w1 := PrepareRpc_handleTransportError objectFinder_flush j w0 in
            flushedSessions (ramcloud w1)
            = flushedSessions (ramcloud w0)
              ++ match p_session rpc0 with
                 | Some s => [getServiceLocator s]
                 | None => []
                 end
            ∧ ∃ rpc', prepareRpcs (task w1) !! j = Some rpc'
                      ∧ p_session rpc' = None).
  { intros w0 rpc0 Hj0. unfold PrepareRpc_handleTransportError. rewrite Hj0.
    unfold PrepareRpc_retryRequest.
    match goal with |- context [retryLoop _ ?ops ?w1] =>
      destruct (retryRequest_task ops w1) as (_ & _ & _ & _ & Hf & _);
      destruct (retryLoop_pipelines ops w1) as [Hp _]
    end.
    cbv zeta. unfold on_task in *. simpl in *. rewrite Hf, Hp.
    destruct (p_session rpc0) as [s|] eqn:Hs; simpl.
    - split; [done|]. eexists. split.
      + apply list_lookup_insert_eq. by eapply lookup_lt_Some.
      + done.
    - split; [by rewrite app_nil_r|]. by exists rpc0. }
  cbv zeta. destruct (Hstep w rpc Hj) as (H1 & rpc' & Hj' & Hs').
  split; [exact H1|]. split; [by exists rpc'|].
  destruct (Hstep _ rpc' Hj') as (H2 & _). rewrite H2, Hs'.
  by rewrite app_nil_r.
Qed.

(** X28: a transport error of a decision request does what one of a
    prepare request does: the session is flushed once and forgotten, the
    entries of the request have the state [PENDING] afterwards and are
    otherwise unchanged, every other entry is unchanged in every field,
    the tables of the entries of the request are flushed from the object
    finder, and the cursor goes back to the head of the cache; the
    decision and the state of the task stay. *)
Theorem decision_transport_error_resets_its_participants w j rpc :
  decisionRpcs (task w) !! j = Some rpc →
  let ops := take (d_participantCount rpc) (d_ops rpc) in
  let w' := DecisionRpc_handleTransportError objectFinder_flush j w in
  (∀ k key e,
     commitCache (task w) !! k = Some (key, e) →
     ∃ e', commitCache (task w') !! k = Some (key, e')
           ∧ e_state e' = (if decide (k ∈ ops) then CacheEntry.PENDING
                           else e_state e)
           ∧ e_type e' = e_type e ∧ e_objectBuf e' = e_objectBuf e
           ∧ e_rejectRules e' = e_rejectRules e ∧ e_rpcId e' = e_rpcId e)
  ∧ objectFinder (ramcloud w')
    = foldl objectFinder_flush (objectFinder (ramcloud w))
        (retriedTables (commitCache (task w)) ops)
  ∧ nextCacheEntry (task w') = 0
  ∧ flushedSessions (ramcloud w')
    = flushedSessions (ramcloud w)
      ++ match d_session rpc with
         | Some s => [getServiceLocator s]
         | None => []
         end
  ∧ decisionRpcs (task w')
    = match d_session rpc with
      | Some _ => <[j := DecisionRpc_dropSession rpc]> (decisionRpcs (task w))
      | None => decisionRpcs (task w)
      end
  ∧ state (task w') = state (task w)
  ∧ decision (task w') = decision (task w)
  ∧ status (task w') = status (task w).
Proof.
  intros Hj ops w'.
  destruct (DecisionRpc_transport_error w j rpc Hj) as (_ & _ & H2 & H3).
  fold ops in H2. fold w' in H2, H3.
  split; [|split; [exact H2|split; [exact H3|]]];
    subst w'; unfold DecisionRpc_handleTransportError; rewrite Hj;
    unfold DecisionRpc_retryRequest; fold ops.
  { match goal with |- context [retryLoop _ ops ?w1] =>
      pose proof (retryLoop_entries ops w1) as He;
      assert (commitCache (task w1) = commitCache (task w)) as Hcache
        by (by destruct (d_session rpc))
    end.
    rewrite Hcache in He. intros k key e Hl. exact (He k key e Hl). }
  match goal with |- context [retryLoop _ ops ?w1] =>
    destruct (retryRequest_task ops w1) as (_ & _ & _ & _ & Hf & _);
    destruct (retryRequest_frame ops w1) as (F1 & F2 & F3 & _);
    destruct (retryLoop_pipelines ops w1) as [_ Hp]
  end.
  unfold on_task in *. simpl in *. rewrite Hf, Hp, F1, F2, F3.
  destruct (d_session rpc) as [s|]; simpl; [done|].
  by rewrite app_nil_r.
Qed.

(** X29: a response to a prepare request leads to a retry when and only
    when its status is [STATUS_UNKNOWN_TABLET]; after the retry the
    entries of the request have the state [PENDING] and are otherwise
    unchanged, every other entry is unchanged in every field, the tables
    of the entries of the request are flushed from the object finder and
    the cursor is at the head of the cache; the retry neither flushes a
    session nor touches a request. *)
Theorem PrepareRpc_checkStatus_retries_on_unknown_tablet rpc w :
  let ops := take (p_opCount rpc) (p_ops rpc) in
  let w' := PrepareRpc_checkStatus objectFinder_flush rpc w in
  (p_status rpc ≠ STATUS_UNKNOWN_TABLET → w' = w)
  ∧ (p_status rpc = STATUS_UNKNOWN_TABLET →
     (∀ k key e,
        commitCache (task w) !! k = Some (key, e) →
        ∃ e', commitCache (task w') !! k = Some (key, e')
              ∧ e_state e' = (if decide (k ∈ ops) then CacheEntry.PENDING
                              else e_state e)
              ∧ e_type e' = e_type e ∧ e_objectBuf e' = e_objectBuf e
              ∧ e_rejectRules e' = e_rejectRules e ∧ e_rpcId e' = e_rpcId e)
     ∧ objectFinder (ramcloud w')
       = foldl objectFinder_flush (objectFinder (ramcloud w))
           (retriedTables (commitCache (task w)) ops)
     ∧ nextCacheEntry (task w') = 0
     ∧ flushedSessions (ramcloud w') = flushedSessions (ramcloud w)
     ∧ prepareRpcs (task w') = prepareRpcs (task w)
     ∧ decision (task w') = decision (task w)
     ∧ state (task w') = state (task w)).
Proof.
  intros ops w'. subst w'. unfold PrepareRpc_checkStatus.
  split; [intros Hn; by rewrite decide_False|].
  intros Hu. rewrite decide_True by done.
  unfold PrepareRpc_retryRequest. fold ops.
  destruct (retryLoop_spec ops w) as (_ & Hc & Hfi & _).
  destruct (retryRequest_task ops w) as (_ & _ & _ & _ & Hf & Hn).
  destruct (retryRequest_frame ops w) as (F1 & _ & F3 & _ & F5 & _).
  split; [|by repeat split].
  intros k key e Hl. exact (retryLoop_entries ops w k key e Hl).
Qed.

(** X30: a response to a decision request leads to a retry when and only
    when its status is [STATUS_UNKNOWN_TABLET]; after the retry the
    entries of the request have the state [PENDING] and are otherwise
    unchanged, every other entry is unchanged in every field, the tables
    of the entries of the request are flushed from the object finder and
    the cursor is at the head of the cache; the retry neither flushes a
    session nor touches a request. *)
Theorem DecisionRpc_checkStatus_retries_on_unknown_tablet rpc w :
  let ops := take (d_participantCount rpc) (d_ops rpc) in
  let w' := DecisionRpc_checkStatus objectFinder_flush rpc w in
  (d_status rpc ≠ STATUS_UNKNOWN_TABLET → w' = w)
  ∧ (d_status rpc = STATUS_UNKNOWN_TABLET →
     (∀ k key e,
        commitCache (task w) !! k = Some (key, e) →
        ∃ e', commitCache (task w') !! k = Some (key, e')
              ∧ e_state e' = (if decide (k ∈ ops) then CacheEntry.PENDING
                              else e_state e)
              ∧ e_type e' = e_type e ∧ e_objectBuf e' = e_objectBuf e
              ∧ e_rejectRules e' = e_rejectRules e ∧ e_rpcId e' = e_rpcId e)
     ∧ objectFinder (ramcloud w')
       = foldl objectFinder_flush (objectFinder (ramcloud w))
           (retriedTables (commitCache (task w)) ops)
     ∧ nextCacheEntry (task w') = 0
     ∧ flushedSessions (ramcloud w') = flushedSessions (ramcloud w)
     ∧ decisionRpcs (task w') = decisionRpcs (task w)
     ∧ decision (task w') = decision (task w)
     ∧ state (task w') = state (task w)).
Proof.
  intros ops w'. subst w'. unfold DecisionRpc_checkStatus.
  split; [intros Hn; by rewrite decide_False|].
  intros Hu. rewrite decide_True by done.
  unfold DecisionRpc_retryRequest. fold ops.
  destruct (retryLoop_spec ops w) as (_ & Hc & Hfi & _).
  destruct (retryRequest_task ops w) as (_ & _ & _ & _ & Hf & Hn).
  destruct (retryRequest_frame ops w) as (F1 & _ & F3 & _ & _ & F6 & _).
  split; [|by repeat split].
  intros k key e Hl. exact (retryLoop_entries ops w k key e Hl).
Qed.

End Properties.


(** * The properties on the client with two masters *)

(** Equations between closed terms of the examples, by evaluation. *)
Ltac by_evaluation := vm_compute; reflexivity.

Lemma staged_Initial c :
  Forall (λ ke, e_state ke.2 = CacheEntry.PENDING) c →
  Initial (Demo.staged c).
Proof. intros Hc. by repeat split. Qed.

Lemma oneWrite_Initial : Initial Demo.oneWrite.
Proof. apply staged_Initial. by repeat constructor. Qed.

Lemma threeOps_Initial : Initial Demo.threeOps.
Proof. apply staged_Initial. by repeat constructor. Qed.

(** Every run of the examples ends in a reachable world. *)
Lemma after_Reachable acts w w' :
  Initial w → Demo.run acts w = Some w' → Demo.Reachable (Demo.after acts w).
Proof.
  intros Hi Hw'. unfold Demo.after. rewrite Hw'. simpl.
  eapply run_Reachable; [by apply Reachable_init|exact Hw'].
Qed.

(** C1, counterexample: the prepare request of [oneWrite] is in flight and
    its entry is [PREPARE]; the transport fails the request, and the entry
    is [PENDING] again, which is a move backwards. *)
Lemma retry_moves_entry_backwards :
  Demo.Reachable (Demo.after Demo.preparing Demo.oneWrite)
  ∧ Demo.exec (Deliver (PrepareFailed 0))
      (Demo.after Demo.preparing Demo.oneWrite)
    = Some (Demo.after (Demo.preparing ++ [Deliver (PrepareFailed 0)])
              Demo.oneWrite)
  ∧ (λ ke, e_state ke.2)
      <$> commitCache (task (Demo.after Demo.preparing Demo.oneWrite)) !! 0
    = Some CacheEntry.PREPARE
  ∧ (λ ke, e_state ke.2)
      <$> commitCache
            (task (Demo.after (Demo.preparing ++ [Deliver (PrepareFailed 0)])
                     Demo.oneWrite)) !! 0
    = Some CacheEntry.PENDING
  ∧ CacheEntry.rank CacheEntry.PENDING < CacheEntry.rank CacheEntry.PREPARE.
Proof.
  split; [|split; [|split; [|split]]].
  - eapply after_Reachable; [apply oneWrite_Initial|by_evaluation].
  - by_evaluation.
  - by_evaluation.
  - by_evaluation.
  - simpl. lia.
Qed.

Lemma entry_state_forward_except_retry_witness :
  Demo.Reachable (Demo.after Demo.preparing Demo.oneWrite)
  ∧ Demo.exec PerformTask (Demo.after Demo.preparing Demo.oneWrite)
    = Some (Demo.after (Demo.preparing ++ [PerformTask]) Demo.oneWrite)
  ∧ commitCache (task (Demo.after Demo.preparing Demo.oneWrite)) !! 0
    = Some (mkCacheKey 1 5,
            mkCacheEntry CacheEntry.WRITE (Some (mkObjectBuffer "a" "x")) ()
              40 CacheEntry.PREPARE)
  ∧ ∃ e',
      commitCache
        (task (Demo.after (Demo.preparing ++ [PerformTask]) Demo.oneWrite)) !! 0
      = Some (mkCacheKey 1 5, e')
      ∧ Forward
          (mkCacheEntry CacheEntry.WRITE (Some (mkObjectBuffer "a" "x")) ()
             40 CacheEntry.PREPARE) e'.
Proof.
  assert (Demo.Reachable (Demo.after Demo.preparing Demo.oneWrite)) as Hr.
  { eapply after_Reachable; [apply oneWrite_Initial|by_evaluation]. }
  assert (Demo.exec PerformTask (Demo.after Demo.preparing Demo.oneWrite)
          = Some (Demo.after (Demo.preparing ++ [PerformTask]) Demo.oneWrite))
    as Hstep by by_evaluation.
  assert (commitCache (task (Demo.after Demo.preparing Demo.oneWrite)) !! 0
          = Some (mkCacheKey 1 5,
                  mkCacheEntry CacheEntry.WRITE
                    (Some (mkObjectBuffer "a" "x")) () 40 CacheEntry.PREPARE))
    as Hl by by_evaluation.
  split; [exact Hr|]. split; [exact Hstep|]. split; [exact Hl|].
  exact (entry_state_forward_except_retry Demo.lookup Demo.flush
           Demo.MAX_OBJECTS_PER_RPC Demo.MAX_OBJECTS_PER_RPC Demo.wrap
           _ PerformTask _ 0 _ _ Hr Hstep Hl).
Defined.

(** C2, counterexample: the commit of [oneWrite] gets the vote [COMMIT]
    and then an error status for its decision request; the task is [DONE]
    with the decision [COMMIT] and a status that is not [STATUS_OK]. *)
Lemma done_with_error_has_decision :
  Demo.Reachable (Demo.after Demo.failingDecision Demo.oneWrite)
  ∧ state (task (Demo.after Demo.failingDecision Demo.oneWrite)) = DONE
  ∧ decision (task (Demo.after Demo.failingDecision Demo.oneWrite))
    = TxDecision.COMMIT
  ∧ status (task (Demo.after Demo.failingDecision Demo.oneWrite))
    = STATUS_OBJECT_DOESNT_EXIST
  ∧ ¬ (isDecided (decision (task (Demo.after Demo.failingDecision Demo.oneWrite)))
       ↔ status (task (Demo.after Demo.failingDecision Demo.oneWrite))
         = STATUS_OK).
Proof.
  assert (decision (task (Demo.after Demo.failingDecision Demo.oneWrite))
          = TxDecision.COMMIT) as Hd by by_evaluation.
  assert (status (task (Demo.after Demo.failingDecision Demo.oneWrite))
          = STATUS_OBJECT_DOESNT_EXIST) as Hs by by_evaluation.
  split; [|split; [|split; [|split]]].
  - eapply after_Reachable; [apply oneWrite_Initial|by_evaluation].
  - by_evaluation.
  - exact Hd.
  - exact Hs.
  - rewrite Hd, Hs. intros [H _].
    assert (STATUS_OBJECT_DOESNT_EXIST = STATUS_OK); [|done].
    apply H. by left.
Qed.

Lemma done_ok_is_decided_witness :
  Demo.Reachable (Demo.after Demo.committing Demo.oneWrite)
  ∧ state (task (Demo.after Demo.committing Demo.oneWrite)) = DONE
  ∧ status (task (Demo.after Demo.committing Demo.oneWrite)) = STATUS_OK
  ∧ isDecided (decision (task (Demo.after Demo.committing Demo.oneWrite))).
Proof.
  assert (Demo.Reachable (Demo.after Demo.committing Demo.oneWrite)) as Hr.
  { eapply after_Reachable; [apply oneWrite_Initial|by_evaluation]. }
  assert (state (task (Demo.after Demo.committing Demo.oneWrite)) = DONE)
    as Hd by by_evaluation.
  assert (status (task (Demo.after Demo.committing Demo.oneWrite)) = STATUS_OK)
    as Hs by by_evaluation.
  split; [exact Hr|]. split; [exact Hd|]. split; [exact Hs|].
  exact (done_ok_is_decided Demo.lookup Demo.flush Demo.MAX_OBJECTS_PER_RPC
           Demo.MAX_OBJECTS_PER_RPC Demo.wrap _ Hr Hd Hs).
Defined.

Lemma prepare_block_enters_decision_witness :
  state (task (Demo.after (Demo.voted TxPrepare.COMMIT) Demo.oneWrite)) = PREPARE
  ∧ ∃ w',
      prepareBlock Demo.lookup Demo.MAX_OBJECTS_PER_RPC Demo.wrap
        (Demo.after (Demo.voted TxPrepare.COMMIT) Demo.oneWrite)
      = Normal w'
      ∧ state (task w') = DECISION
      ∧ decision (task w') = TxDecision.COMMIT
      ∧ nextCacheEntry (task w') = 0.
Proof.
  assert (state (task (Demo.after (Demo.voted TxPrepare.COMMIT) Demo.oneWrite))
          = PREPARE) as Hp by by_evaluation.
  split; [exact Hp|].
  destruct (prepare_block_enters_decision Demo.lookup Demo.MAX_OBJECTS_PER_RPC
              Demo.MAX_OBJECTS_PER_RPC Demo.wrap
              (Demo.after (Demo.voted TxPrepare.COMMIT) Demo.oneWrite) Hp)
    as [_ H].
  assert (processPrepareRpcs Demo.wrap
            (task (Demo.after (Demo.voted TxPrepare.COMMIT) Demo.oneWrite))
          = Normal (payload (processPrepareRpcs Demo.wrap
                               (task (Demo.after (Demo.voted TxPrepare.COMMIT)
                                        Demo.oneWrite)))))
    as Hproc by by_evaluation.
  rewrite Hproc in H. destruct H as (w' & Hblock & Hiff & Hdec & _).
  exists w'. split; [exact Hblock|].
  assert (state (task w') = DECISION) as Hs.
  { apply Hiff. split; by_evaluation. }
  destruct (Hdec Hs) as (Hd & Hc & _).
  split; [exact Hs|]. split; [|exact Hc].
  rewrite Hd. by_evaluation.
Defined.


Lemma transport_error_resets_its_participants_witness :
  prepareRpcs (task Demo.bothPrepared) !! 0 = Some Demo.firstPrepare
  ∧ commitCache (task Demo.bothPrepared) !! 0
    = Some (mkCacheKey 1 5, Demo.writtenAs 40 CacheEntry.PREPARE)
  ∧ commitCache (task Demo.bothPrepared) !! 2
    = Some (mkCacheKey 1 7, Demo.writtenAs 42 CacheEntry.PREPARE)
  ∧ (∃ e', commitCache
             (task (PrepareRpc_handleTransportError Demo.flush 0
                      Demo.bothPrepared)) !! 0
           = Some (mkCacheKey 1 5, e')
           ∧ e_state e' = CacheEntry.PENDING ∧ e_rpcId e' = 40%Z)
  ∧ (∃ e', commitCache
             (task (PrepareRpc_handleTransportError Demo.flush 0
                      Demo.bothPrepared)) !! 2
           = Some (mkCacheKey 1 7, e')
           ∧ e_state e' = CacheEntry.PREPARE ∧ e_rpcId e' = 42%Z)
  ∧ nextCacheEntry
      (task (PrepareRpc_handleTransportError Demo.flush 0 Demo.bothPrepared))
    = 0
  ∧ p_ops
      <$> sentPrepares
            (ramcloud (Demo.performTask
                         (PrepareRpc_handleTransportError Demo.flush 0
                            Demo.bothPrepared)))
    = [[0; 1]; [2; 3]; [0; 1]].
Proof.
  assert (prepareRpcs (task Demo.bothPrepared) !! 0 = Some Demo.firstPrepare)
    as Hj by by_evaluation.
  assert (commitCache (task Demo.bothPrepared) !! 0
          = Some (mkCacheKey 1 5, Demo.writtenAs 40 CacheEntry.PREPARE))
    as Hl0 by by_evaluation.
  assert (commitCache (task Demo.bothPrepared) !! 2
          = Some (mkCacheKey 1 7, Demo.writtenAs 42 CacheEntry.PREPARE))
    as Hl2 by by_evaluation.
  destruct (transport_error_resets_its_participants Demo.flush
              Demo.bothPrepared 0 Demo.firstPrepare Hj)
    as (_ & Hc & _ & Hn & _).
  split; [exact Hj|]. split; [exact Hl0|]. split; [exact Hl2|].
  split; [|split; [|split; [exact Hn|by_evaluation]]].
  - destruct (Hc 0 _ _ Hl0) as (e' & Hl' & Hst & _ & _ & _ & Hid).
    exists e'. split; [exact Hl'|]. split; [|exact Hid].
    etransitivity; [exact Hst|by_evaluation].
  - destruct (Hc 2 _ _ Hl2) as (e' & Hl' & Hst & _ & _ & _ & Hid).
    exists e'. split; [exact Hl'|]. split; [|exact Hid].
    etransitivity; [exact Hst|by_evaluation].
Defined.

Lemma rpcFinished_once_on_DONE_witness :
  Demo.Reachable (Demo.after Demo.committing Demo.oneWrite)
  ∧ state (task (Demo.after Demo.committing Demo.oneWrite)) = DONE
  ∧ finishedIds (Demo.after Demo.committing Demo.oneWrite)
    = [txId (task (Demo.after Demo.committing Demo.oneWrite))].
Proof.
  assert (Demo.Reachable (Demo.after Demo.committing Demo.oneWrite)) as Hr.
  { eapply after_Reachable; [apply oneWrite_Initial|by_evaluation]. }
  assert (state (task (Demo.after Demo.committing Demo.oneWrite)) = DONE)
    as Hd by by_evaluation.
  split; [exact Hr|]. split; [exact Hd|].
  exact (proj1 (rpcFinished_once_on_DONE Demo.lookup Demo.flush
                  Demo.MAX_OBJECTS_PER_RPC Demo.MAX_OBJECTS_PER_RPC Demo.wrap
                  _ Hr) Hd).
Defined.

Lemma initTask_assigns_rpcIds_witness :
  Fresh (task Demo.threeOps)
  ∧ (Z.of_nat (length (commitCache (task Demo.threeOps))) ≤ 2 ^ 64)%Z
  ∧ txId (task (initTask Demo.threeOps))
    = tr_nextRpcId (rpcTracker (ramcloud Demo.threeOps))
  ∧ participantCount (task (initTask Demo.threeOps)) = 3
  ∧ participantList (task (initTask Demo.threeOps))
    = participantOf <$> commitCache (task (initTask Demo.threeOps))
  ∧ NoDup ((λ ke, e_rpcId ke.2) <$> commitCache (task (initTask Demo.threeOps))).
Proof.
  assert (Fresh (task Demo.threeOps)) as Hf by apply threeOps_Initial.
  assert (Z.of_nat (length (commitCache (task Demo.threeOps))) ≤ 2 ^ 64)%Z
    as Hn by (vm_compute; discriminate).
  destruct (initTask_assigns_rpcIds Demo.threeOps Hf Hn)
    as (Hid & _ & _ & Hpl & _ & Hpc & Hnd & _).
  split; [exact Hf|]. split; [exact Hn|]. split; [exact Hid|].
  split; [exact Hpc|]. split; [exact Hpl|exact Hnd].
Defined.

(** C9, at the failing input: both prepare requests of [threeOps] are
    complete when [processPrepareRpcs] is called; the call returns and the
    second of them is still in the pipeline, whichever way [it++] behaves
    on the past-the-end iterator (it is not incremented there in this
    run).  The same happens to the two decision requests in
    [processDecisionRpcs]. *)
Theorem process_rpcs_skips_ready_rpc :
  Demo.Reachable (Demo.after Demo.twoVotes Demo.threeOps)
  ∧ p_state <$> prepareRpcs (task (Demo.after Demo.twoVotes Demo.threeOps))
    = [FINISHED; FINISHED]
  ∧ (∀ wrap,
       ∃ t', processPrepareRpcs wrap (task (Demo.after Demo.twoVotes Demo.threeOps))
             = Normal t'
             ∧ (λ rpc, (p_ops rpc, RpcState_isReady (p_state rpc)))
                 <$> prepareRpcs t'
               = [([1; 2], true)])
  ∧ Demo.Reachable (Demo.after Demo.twoAcks Demo.threeOps)
  ∧ d_state <$> decisionRpcs (task (Demo.after Demo.twoAcks Demo.threeOps))
    = [FINISHED; FINISHED]
  ∧ (∀ wrap,
       ∃ t', processDecisionRpcs wrap (task (Demo.after Demo.twoAcks Demo.threeOps))
             = Normal t'
             ∧ (λ rpc, (d_ops rpc, RpcState_isReady (d_state rpc)))
                 <$> decisionRpcs t'
               = [([1; 2], true)]).
Proof.
  split; [eapply after_Reachable; [apply threeOps_Initial|by_evaluation]|].
  split; [by_evaluation|]. split.
  { intros [|]; eexists; split; by_evaluation. }
  split; [eapply after_Reachable; [apply threeOps_Initial|by_evaluation]|].
  split; [by_evaluation|].
  intros [|]; eexists; split; by_evaluation.
Qed.

Lemma empty_cache_commits_in_one_call_witness :
  Fresh (task (Demo.staged []))
  ∧ commitCache (task (Demo.staged [])) = []
  ∧ state (task (Demo.performTask (Demo.staged []))) = DONE
  ∧ status (task (Demo.performTask (Demo.staged []))) = STATUS_OK
  ∧ decision (task (Demo.performTask (Demo.staged []))) = TxDecision.COMMIT
  ∧ sentPrepares (ramcloud (Demo.performTask (Demo.staged []))) = []
  ∧ sentDecisions (ramcloud (Demo.performTask (Demo.staged []))) = []
  ∧ finishedIds (Demo.performTask (Demo.staged []))
    = [txId (task (Demo.performTask (Demo.staged [])))].
Proof.
  assert (Fresh (task (Demo.staged []))) as Hf by (by repeat split).
  destruct (empty_cache_commits_in_one_call Demo.lookup
              Demo.MAX_OBJECTS_PER_RPC Demo.MAX_OBJECTS_PER_RPC Demo.wrap
              (Demo.staged []) Hf eq_refl)
    as (H1 & H2 & H3 & _ & _ & H6 & H7 & H8).
  split; [exact Hf|]. split; [reflexivity|]. split; [exact H1|].
  split; [exact H2|]. split; [exact H3|]. split; [exact H6|].
  split; [exact H7|exact H8].
Defined.

(** ** The examples of the further properties *)

Lemma inFlight_Reachable :
  Demo.Reachable (Demo.after Demo.preparing Demo.oneWrite).
Proof. eapply after_Reachable; [apply oneWrite_Initial|by_evaluation]. Qed.

Lemma decisionInFlight_Reachable : Demo.Reachable Demo.decisionInFlight.
Proof. eapply after_Reachable; [apply oneWrite_Initial|by_evaluation]. Qed.

Lemma committed_Reachable : Demo.Reachable Demo.committed.
Proof. eapply after_Reachable; [apply oneWrite_Initial|by_evaluation]. Qed.

Lemma first_insertion_staged :
  InKeyOrder (commitCache (insertCacheEntry () Demo.hash 1 "a" "x"
                             (newTask (RejectRules:=unit))).2)
  ∧ Hashed Demo.hash
      (commitCache (insertCacheEntry () Demo.hash 1 "a" "x"
                      (newTask (RejectRules:=unit))).2).
Proof.
  split.
  - apply insertCacheEntry_InKeyOrder. constructor.
  - apply insertCacheEntry_Hashed. constructor.
Qed.

Lemma inserted_staged :
  InKeyOrder (commitCache Demo.inserted)
  ∧ Hashed Demo.hash (commitCache Demo.inserted).
Proof.
  destruct first_insertion_staged as [H1 H2]. split.
  - by apply insertCacheEntry_InKeyOrder.
  - by apply insertCacheEntry_Hashed.
Qed.

Lemma processPrepareRpcs_progress_witness :
  length (prepareRpcs
            (payload (processPrepareRpcs Demo.wrap
                        (task (Demo.answered TxPrepare.COMMIT)))))
  < length (prepareRpcs (task (Demo.answered TxPrepare.COMMIT))).
Proof.
  assert (PrepareRpc_complete FINISHED STATUS_OK TxPrepare.COMMIT
            Demo.sentPrepare
          ∈ prepareRpcs (task (Demo.answered TxPrepare.COMMIT))) as Hin.
  { apply (list_elem_of_lookup_2 _ 0). by_evaluation. }
  assert (processPrepareRpcs Demo.wrap (task (Demo.answered TxPrepare.COMMIT))
          = Normal (payload (processPrepareRpcs Demo.wrap
                               (task (Demo.answered TxPrepare.COMMIT)))))
    as Hp by by_evaluation.
  exact (processPrepareRpcs_progress Demo.wrap _ _ _ Hin eq_refl Hp).
Defined.

Lemma processDecisionRpcs_progress_witness :
  length (decisionRpcs
            (payload (processDecisionRpcs Demo.wrap (task Demo.acked))))
  < length (decisionRpcs (task Demo.acked)).
Proof.
  assert (DecisionRpc_complete FINISHED STATUS_OK Demo.sentDecision
          ∈ decisionRpcs (task Demo.acked)) as Hin.
  { apply (list_elem_of_lookup_2 _ 0). by_evaluation. }
  assert (processDecisionRpcs Demo.wrap (task Demo.acked)
          = Normal (payload (processDecisionRpcs Demo.wrap (task Demo.acked))))
    as Hp by by_evaluation.
  exact (processDecisionRpcs_progress Demo.wrap _ _ _ Hin eq_refl Hp).
Defined.

Lemma sendPrepareRpc_request_witness :
  p_participants Demo.sentPrepare
  = participantList (task (initBlock Demo.oneWrite))
  ∧ p_lease Demo.sentPrepare = lease (task (initBlock Demo.oneWrite)).
Proof.
  assert (prepareRpcs (task (sendPrepareRpc Demo.lookup Demo.MAX_OBJECTS_PER_RPC
                               (initBlock Demo.oneWrite)))
          = prepareRpcs (task (initBlock Demo.oneWrite)) ++ [Demo.sentPrepare])
    as Hsent by by_evaluation.
  destruct (sendPrepareRpc_request Demo.lookup Demo.MAX_OBJECTS_PER_RPC
              (initBlock Demo.oneWrite) Demo.sentPrepare Hsent)
    as (H1 & _ & H3 & _).
  split; [exact H1|exact H3].
Defined.

Lemma sendDecisionRpc_request_witness :
  d_decision Demo.sentDecision
  = decision (task (payload (prepareBlock Demo.lookup Demo.MAX_OBJECTS_PER_RPC
                               Demo.wrap (Demo.answered TxPrepare.COMMIT)))).
Proof.
  assert (decisionRpcs
            (task (sendDecisionRpc Demo.lookup Demo.MAX_OBJECTS_PER_RPC
                     (payload (prepareBlock Demo.lookup
                                 Demo.MAX_OBJECTS_PER_RPC Demo.wrap
                                 (Demo.answered TxPrepare.COMMIT)))))
          = decisionRpcs
              (task (payload (prepareBlock Demo.lookup
                                Demo.MAX_OBJECTS_PER_RPC Demo.wrap
                                (Demo.answered TxPrepare.COMMIT))))
            ++ [Demo.sentDecision])
    as Hsent by by_evaluation.
  destruct (sendDecisionRpc_request Demo.lookup Demo.MAX_OBJECTS_PER_RPC
              _ Demo.sentDecision Hsent) as (H1 & _).
  exact H1.
Defined.

Lemma pipelines_follow_the_state_witness :
  Demo.Reachable (Demo.after Demo.preparing Demo.oneWrite)
  ∧ state (task (Demo.after Demo.preparing Demo.oneWrite)) = PREPARE.
Proof.
  split; [exact inFlight_Reachable|].
  apply (pipelines_follow_the_state Demo.lookup Demo.flush
           Demo.MAX_OBJECTS_PER_RPC Demo.MAX_OBJECTS_PER_RPC Demo.wrap
           _ inFlight_Reachable).
  vm_compute. discriminate.
Defined.

Lemma status_is_ok_until_done_witness :
  Demo.Reachable (Demo.after Demo.preparing Demo.oneWrite)
  ∧ status (task (Demo.after Demo.preparing Demo.oneWrite))
    ≠ STATUS_UNKNOWN_TABLET.
Proof.
  split; [exact inFlight_Reachable|].
  exact (proj2 (status_is_ok_until_done Demo.lookup Demo.flush
                  Demo.MAX_OBJECTS_PER_RPC Demo.MAX_OBJECTS_PER_RPC Demo.wrap
                  _ inFlight_Reachable)).
Defined.

Lemma done_is_final_witness :
  Demo.Reachable Demo.committed
  ∧ state (task Demo.committed) = DONE
  ∧ Demo.performTask Demo.committed = Demo.committed.
Proof.
  assert (state (task Demo.committed) = DONE) as Hd by by_evaluation.
  assert (Demo.exec PerformTask Demo.committed
          = Some (Demo.performTask Demo.committed)) as Hx by by_evaluation.
  split; [exact committed_Reachable|]. split; [exact Hd|].
  exact (done_is_final Demo.lookup Demo.flush Demo.MAX_OBJECTS_PER_RPC
           Demo.MAX_OBJECTS_PER_RPC Demo.wrap _ PerformTask _
           committed_Reachable Hd Hx).
Defined.

Lemma task_state_never_goes_back_witness :
  Demo.exec PerformTask Demo.oneWrite
  = Some (Demo.after Demo.preparing Demo.oneWrite)
  ∧ taskRank (state (task Demo.oneWrite))
    ≤ taskRank (state (task (Demo.after Demo.preparing Demo.oneWrite))).
Proof.
  assert (Demo.exec PerformTask Demo.oneWrite
          = Some (Demo.after Demo.preparing Demo.oneWrite)) as Hx
    by by_evaluation.
  split; [exact Hx|].
  exact (proj1 (task_state_never_goes_back Demo.lookup Demo.flush
                  Demo.MAX_OBJECTS_PER_RPC Demo.MAX_OBJECTS_PER_RPC Demo.wrap
                  _ PerformTask _ Hx)).
Defined.

Lemma done_ok_has_decided_every_entry_witness :
  Demo.Reachable Demo.committed
  ∧ commitCache (task Demo.committed) !! 0
    = Some (mkCacheKey 1 5, Demo.written CacheEntry.DECIDE)
  ∧ e_state (Demo.written CacheEntry.DECIDE) = CacheEntry.DECIDE.
Proof.
  assert (state (task Demo.committed) = DONE) as Hd by by_evaluation.
  assert (status (task Demo.committed) = STATUS_OK) as Hs by by_evaluation.
  assert (commitCache (task Demo.committed) !! 0
          = Some (mkCacheKey 1 5, Demo.written CacheEntry.DECIDE)) as Hl
    by by_evaluation.
  split; [exact committed_Reachable|]. split; [exact Hl|].
  exact (done_ok_has_decided_every_entry Demo.lookup Demo.flush
           Demo.MAX_OBJECTS_PER_RPC Demo.MAX_OBJECTS_PER_RPC Demo.wrap
           _ 0 _ _ committed_Reachable Hd Hs Hl).
Defined.

Lemma cursor_separates_processed_entries_witness :
  Demo.Reachable (Demo.after Demo.preparing Demo.oneWrite)
  ∧ nextCacheEntry (task (Demo.after Demo.preparing Demo.oneWrite))
    ≤ length (commitCache (task (Demo.after Demo.preparing Demo.oneWrite))).
Proof.
  split; [exact inFlight_Reachable|].
  apply (cursor_separates_processed_entries Demo.lookup Demo.flush
           Demo.MAX_OBJECTS_PER_RPC Demo.MAX_OBJECTS_PER_RPC Demo.wrap
           _ inFlight_Reachable).
  vm_compute. discriminate.
Defined.

Lemma commit_cache_is_frozen_witness :
  Demo.exec PerformTask Demo.oneWrite
  = Some (Demo.after Demo.preparing Demo.oneWrite)
  ∧ CacheRel sameData (commitCache (task Demo.oneWrite))
      (commitCache (task (Demo.after Demo.preparing Demo.oneWrite))).
Proof.
  assert (Demo.exec PerformTask Demo.oneWrite
          = Some (Demo.after Demo.preparing Demo.oneWrite)) as Hx
    by by_evaluation.
  split; [exact Hx|].
  exact (proj1 (commit_cache_is_frozen Demo.lookup Demo.flush
                  Demo.MAX_OBJECTS_PER_RPC Demo.MAX_OBJECTS_PER_RPC Demo.wrap
                  _ PerformTask _ Hx)).
Defined.

Lemma sent_prepares_list_every_participant_witness :
  Demo.Reachable Demo.decisionInFlight
  ∧ Demo.sentPrepare ∈ sentPrepares (ramcloud Demo.decisionInFlight)
  ∧ p_participants Demo.sentPrepare
    = participantOf <$> commitCache (task Demo.decisionInFlight).
Proof.
  assert (Demo.sentPrepare ∈ sentPrepares (ramcloud Demo.decisionInFlight))
    as Hin.
  { apply (list_elem_of_lookup_2 _ 0). by_evaluation. }
  split; [exact decisionInFlight_Reachable|]. split; [exact Hin|].
  exact (proj1 (sent_prepares_list_every_participant Demo.lookup Demo.flush
                  Demo.MAX_OBJECTS_PER_RPC Demo.MAX_OBJECTS_PER_RPC Demo.wrap
                  _ _ decisionInFlight_Reachable Hin)).
Defined.

Lemma sent_decisions_carry_the_decision_witness :
  Demo.Reachable Demo.decisionInFlight
  ∧ Demo.sentDecision ∈ sentDecisions (ramcloud Demo.decisionInFlight)
  ∧ d_decision Demo.sentDecision = decision (task Demo.decisionInFlight).
Proof.
  assert (Demo.sentDecision ∈ sentDecisions (ramcloud Demo.decisionInFlight))
    as Hin.
  { apply (list_elem_of_lookup_2 _ 0). by_evaluation. }
  split; [exact decisionInFlight_Reachable|]. split; [exact Hin|].
  exact (proj1 (sent_decisions_carry_the_decision Demo.lookup Demo.flush
                  Demo.MAX_OBJECTS_PER_RPC Demo.MAX_OBJECTS_PER_RPC Demo.wrap
                  _ _ decisionInFlight_Reachable Hin)).
Defined.

Lemma abort_vote_aborts_the_transaction_witness :
  Demo.Reachable (Demo.after Demo.preparing Demo.oneWrite)
  ∧ state (task (Demo.after (Demo.voted TxPrepare.ABORT ++ Demo.aborting)
                   Demo.oneWrite)) = DONE
  ∧ status (task (Demo.after (Demo.voted TxPrepare.ABORT ++ Demo.aborting)
                    Demo.oneWrite)) = STATUS_OK
  ∧ decision (task (Demo.after (Demo.voted TxPrepare.ABORT ++ Demo.aborting)
                      Demo.oneWrite)) = TxDecision.ABORT.
Proof.
  assert (deliver Demo.flush (PrepareResponse 0 STATUS_OK TxPrepare.ABORT)
            (Demo.after Demo.preparing Demo.oneWrite)
          = Some (Demo.answered TxPrepare.ABORT)) as Hv by by_evaluation.
  assert (run Demo.lookup Demo.flush Demo.MAX_OBJECTS_PER_RPC
            Demo.MAX_OBJECTS_PER_RPC Demo.wrap Demo.aborting
            (Demo.answered TxPrepare.ABORT)
          = Some (Demo.after (Demo.voted TxPrepare.ABORT ++ Demo.aborting)
                    Demo.oneWrite)) as Hrun by by_evaluation.
  assert (state (task (Demo.after (Demo.voted TxPrepare.ABORT ++ Demo.aborting)
                         Demo.oneWrite)) = DONE) as Hd by by_evaluation.
  assert (status (task (Demo.after (Demo.voted TxPrepare.ABORT ++ Demo.aborting)
                          Demo.oneWrite)) = STATUS_OK) as Hs by by_evaluation.
  split; [exact inFlight_Reachable|]. split; [exact Hd|]. split; [exact Hs|].
  exact (abort_vote_aborts_the_transaction Demo.lookup Demo.flush
           Demo.MAX_OBJECTS_PER_RPC Demo.MAX_OBJECTS_PER_RPC Demo.wrap
           _ 0 _ Demo.aborting _ inFlight_Reachable Hv Hrun Hd Hs).
Defined.

Lemma every_entry_was_prepared_witness :
  Demo.Reachable Demo.decisionInFlight
  ∧ state (task Demo.decisionInFlight) = DECISION
  ∧ ∃ rpc, rpc ∈ sentPrepares (ramcloud Demo.decisionInFlight)
           ∧ 0 ∈ p_ops rpc.
Proof.
  assert (state (task Demo.decisionInFlight) = DECISION) as Hd by by_evaluation.
  assert (commitCache (task Demo.decisionInFlight) !! 0
          = Some (mkCacheKey 1 5, Demo.written CacheEntry.DECIDE)) as Hl
    by by_evaluation.
  assert (e_type (Demo.written CacheEntry.DECIDE) ≠ CacheEntry.INVALID) as Hty
    by (vm_compute; discriminate).
  split; [exact decisionInFlight_Reachable|]. split; [exact Hd|].
  exact (every_entry_was_prepared Demo.lookup Demo.flush
           Demo.MAX_OBJECTS_PER_RPC Demo.MAX_OBJECTS_PER_RPC Demo.wrap
           _ 0 _ _ decisionInFlight_Reachable (or_introl Hd) Hl Hty).
Defined.

Lemma done_ok_has_sent_every_decision_witness :
  Demo.Reachable Demo.committed
  ∧ state (task Demo.committed) = DONE
  ∧ status (task Demo.committed) = STATUS_OK
  ∧ ∃ rpc, rpc ∈ sentDecisions (ramcloud Demo.committed) ∧ 0 ∈ d_ops rpc.
Proof.
  assert (state (task Demo.committed) = DONE) as Hd by by_evaluation.
  assert (status (task Demo.committed) = STATUS_OK) as Hs by by_evaluation.
  assert (0 < length (commitCache (task Demo.committed))) as Hi
    by (vm_compute; constructor).
  split; [exact committed_Reachable|]. split; [exact Hd|]. split; [exact Hs|].
  exact (done_ok_has_sent_every_decision Demo.lookup Demo.flush
           Demo.MAX_OBJECTS_PER_RPC Demo.MAX_OBJECTS_PER_RPC Demo.wrap
           _ 0 committed_Reachable Hd Hs Hi).
Defined.

Lemma findCacheEntry_returns_an_entry_of_the_key_witness :
  findCacheEntry Demo.hash (mkKey 1 "b") Demo.inserted = Some 1
  ∧ ∃ k e buf, commitCache Demo.inserted !! 1 = Some (k, e)
               ∧ e_objectBuf e = Some buf
               ∧ tableId k = 1%Z ∧ ob_key buf = "b".
Proof.
  assert (findCacheEntry Demo.hash (mkKey 1 "b") Demo.inserted = Some 1)
    as Hf by by_evaluation.
  split; [exact Hf|].
  exact (findCacheEntry_returns_an_entry_of_the_key Demo.hash (mkKey 1 "b")
           Demo.inserted 1 Hf).
Defined.

Lemma findCacheEntry_finds_the_first_entry_witness :
  InKeyOrder (commitCache Demo.inserted)
  ∧ Hashed Demo.hash (commitCache Demo.inserted)
  ∧ firstStoring (mkKey 1 "b") (commitCache Demo.inserted) 1.
Proof.
  destruct inserted_staged as [Hord Hh].
  split; [exact Hord|]. split; [exact Hh|].
  pose proof (findCacheEntry_finds_the_first_entry Demo.hash (mkKey 1 "b")
                Demo.inserted Hord Hh) as Hfirst.
  assert (findCacheEntry Demo.hash (mkKey 1 "b") Demo.inserted = Some 1)
    as Hf by by_evaluation.
  rewrite Hf in Hfirst. exact Hfirst.
Defined.

Lemma insertCacheEntry_keeps_the_cache_in_order_witness :
  InKeyOrder (commitCache (newTask (RejectRules:=unit)))
  ∧ Hashed Demo.hash (commitCache (newTask (RejectRules:=unit)))
  ∧ Fresh (newTask (RejectRules:=unit))
  ∧ InKeyOrder (commitCache (insertCacheEntry () Demo.hash 1 "a" "x"
                               (newTask (RejectRules:=unit))).2).
Proof.
  assert (InKeyOrder (commitCache (newTask (RejectRules:=unit)))) as Hord
    by constructor.
  assert (Hashed Demo.hash (commitCache (newTask (RejectRules:=unit)))) as Hh
    by constructor.
  split; [exact Hord|]. split; [exact Hh|]. split; [exact newTask_Fresh|].
  exact (proj1 (insertCacheEntry_keeps_the_cache_in_order () Demo.hash 1 "a" "x"
                  newTask Hord Hh newTask_Fresh)).
Defined.

Lemma insert_then_find_witness :
  findCacheEntry Demo.hash (mkKey 1 "b") Demo.inserted = Some 1.
Proof.
  destruct first_insertion_staged as [Hord Hh].
  pose proof (insert_then_find () Demo.hash 1 "b" "y" _ Hord Hh) as Hfind.
  cbv zeta in Hfind. etransitivity; [exact Hfind|]. by_evaluation.
Defined.

Lemma prepare_transport_error_flushes_the_session_once_witness :
  prepareRpcs (task (Demo.after Demo.preparing Demo.oneWrite)) !! 0
  = Some Demo.sentPrepare
  ∧ flushedSessions
      (ramcloud (PrepareRpc_handleTransportError Demo.flush 0
                   (Demo.after Demo.preparing Demo.oneWrite)))
    = ["tcp:host=m1"].
Proof.
  assert (prepareRpcs (task (Demo.after Demo.preparing Demo.oneWrite)) !! 0
          = Some Demo.sentPrepare) as Hj by by_evaluation.
  split; [exact Hj|].
  etransitivity;
    [exact (proj1 (prepare_transport_error_flushes_the_session_once Demo.flush
                     _ 0 _ Hj))|].
  by_evaluation.
Defined.

Lemma decision_transport_error_resets_its_participants_witness :
  decisionRpcs (task Demo.bothDecided) !! 0 = Some Demo.firstDecision
  ∧ commitCache (task Demo.bothDecided) !! 0
    = Some (mkCacheKey 1 5, Demo.writtenAs 40 CacheEntry.DECIDE)
  ∧ commitCache (task Demo.bothDecided) !! 2
    = Some (mkCacheKey 1 7, Demo.writtenAs 42 CacheEntry.DECIDE)
  ∧ (∃ e', commitCache
             (task (DecisionRpc_handleTransportError Demo.flush 0
                      Demo.bothDecided)) !! 0
           = Some (mkCacheKey 1 5, e')
           ∧ e_state e' = CacheEntry.PENDING ∧ e_rpcId e' = 40%Z)
  ∧ (∃ e', commitCache
             (task (DecisionRpc_handleTransportError Demo.flush 0
                      Demo.bothDecided)) !! 2
           = Some (mkCacheKey 1 7, e')
           ∧ e_state e' = CacheEntry.DECIDE ∧ e_rpcId e' = 42%Z)
  ∧ nextCacheEntry
      (task (DecisionRpc_handleTransportError Demo.flush 0 Demo.bothDecided))
    = 0.
Proof.
  assert (decisionRpcs (task Demo.bothDecided) !! 0 = Some Demo.firstDecision)
    as Hj by by_evaluation.
  assert (commitCache (task Demo.bothDecided) !! 0
          = Some (mkCacheKey 1 5, Demo.writtenAs 40 CacheEntry.DECIDE))
    as Hl0 by by_evaluation.
  assert (commitCache (task Demo.bothDecided) !! 2
          = Some (mkCacheKey 1 7, Demo.writtenAs 42 CacheEntry.DECIDE))
    as Hl2 by by_evaluation.
  destruct (decision_transport_error_resets_its_participants Demo.flush
              Demo.bothDecided 0 Demo.firstDecision Hj)
    as (Hc & _ & Hn & _).
  split; [exact Hj|]. split; [exact Hl0|]. split; [exact Hl2|].
  split; [|split; [|exact Hn]].
  - destruct (Hc 0 _ _ Hl0) as (e' & Hl' & Hst & _ & _ & _ & Hid).
    exists e'. split; [exact Hl'|]. split; [|exact Hid].
    etransitivity; [exact Hst|by_evaluation].
  - destruct (Hc 2 _ _ Hl2) as (e' & Hl' & Hst & _ & _ & _ & Hid).
    exists e'. split; [exact Hl'|]. split; [|exact Hid].
    etransitivity; [exact Hst|by_evaluation].
Defined.

Lemma PrepareRpc_checkStatus_retries_on_unknown_tablet_witness :
  commitCache (task Demo.bothPrepared) !! 0
  = Some (mkCacheKey 1 5, Demo.writtenAs 40 CacheEntry.PREPARE)
  ∧ commitCache (task Demo.bothPrepared) !! 2
    = Some (mkCacheKey 1 7, Demo.writtenAs 42 CacheEntry.PREPARE)
  ∧ (∃ e', commitCache
             (task (PrepareRpc_checkStatus Demo.flush
                      (PrepareRpc_complete FINISHED STATUS_UNKNOWN_TABLET
                         TxPrepare.COMMIT Demo.firstPrepare)
                      Demo.bothPrepared)) !! 0
           = Some (mkCacheKey 1 5, e')
           ∧ e_state e' = CacheEntry.PENDING ∧ e_rpcId e' = 40%Z)
  ∧ (∃ e', commitCache
             (task (PrepareRpc_checkStatus Demo.flush
                      (PrepareRpc_complete FINISHED STATUS_UNKNOWN_TABLET
                         TxPrepare.COMMIT Demo.firstPrepare)
                      Demo.bothPrepared)) !! 2
           = Some (mkCacheKey 1 7, e')
           ∧ e_state e' = CacheEntry.PREPARE ∧ e_rpcId e' = 42%Z)
  ∧ PrepareRpc_checkStatus Demo.flush
      (PrepareRpc_complete FINISHED STATUS_OK TxPrepare.COMMIT
         Demo.firstPrepare)
      Demo.bothPrepared
    = Demo.bothPrepared.
Proof.
  assert (commitCache (task Demo.bothPrepared) !! 0
          = Some (mkCacheKey 1 5, Demo.writtenAs 40 CacheEntry.PREPARE))
    as Hl0 by by_evaluation.
  assert (commitCache (task Demo.bothPrepared) !! 2
          = Some (mkCacheKey 1 7, Demo.writtenAs 42 CacheEntry.PREPARE))
    as Hl2 by by_evaluation.
  destruct (PrepareRpc_checkStatus_retries_on_unknown_tablet Demo.flush
              (PrepareRpc_complete FINISHED STATUS_UNKNOWN_TABLET
                 TxPrepare.COMMIT Demo.firstPrepare)
              Demo.bothPrepared) as [_ Hretry].
  destruct (Hretry eq_refl) as (Hc & _).
  destruct (PrepareRpc_checkStatus_retries_on_unknown_tablet Demo.flush
              (PrepareRpc_complete FINISHED STATUS_OK TxPrepare.COMMIT
                 Demo.firstPrepare)
              Demo.bothPrepared) as [Hsame _].
  split; [exact Hl0|]. split; [exact Hl2|].
  split; [|split].
  - destruct (Hc 0 _ _ Hl0) as (e' & Hl' & Hst & _ & _ & _ & Hid).
    exists e'. split; [exact Hl'|]. split; [|exact Hid].
    etransitivity; [exact Hst|by_evaluation].
  - destruct (Hc 2 _ _ Hl2) as (e' & Hl' & Hst & _ & _ & _ & Hid).
    exists e'. split; [exact Hl'|]. split; [|exact Hid].
    etransitivity; [exact Hst|by_evaluation].
  - apply Hsame. intros Hc'. discriminate Hc'.
Defined.

Lemma DecisionRpc_checkStatus_retries_on_unknown_tablet_witness :
  commitCache (task Demo.bothDecided) !! 0
  = Some (mkCacheKey 1 5, Demo.writtenAs 40 CacheEntry.DECIDE)
  ∧ commitCache (task Demo.bothDecided) !! 2
    = Some (mkCacheKey 1 7, Demo.writtenAs 42 CacheEntry.DECIDE)
  ∧ (∃ e', commitCache
             (task (DecisionRpc_checkStatus Demo.flush
                      (DecisionRpc_complete FINISHED STATUS_UNKNOWN_TABLET
                         Demo.firstDecision)
                      Demo.bothDecided)) !! 0
           = Some (mkCacheKey 1 5, e')
           ∧ e_state e' = CacheEntry.PENDING ∧ e_rpcId e' = 40%Z)
  ∧ (∃ e', commitCache
             (task (DecisionRpc_checkStatus Demo.flush
                      (DecisionRpc_complete FINISHED STATUS_UNKNOWN_TABLET
                         Demo.firstDecision)
                      Demo.bothDecided)) !! 2
           = Some (mkCacheKey 1 7, e')
           ∧ e_state e' = CacheEntry.DECIDE ∧ e_rpcId e' = 42%Z)
  ∧ DecisionRpc_checkStatus Demo.flush
      (DecisionRpc_complete FINISHED STATUS_OK Demo.firstDecision)
      Demo.bothDecided
    = Demo.bothDecided.
Proof.
  assert (commitCache (task Demo.bothDecided) !! 0
          = Some (mkCacheKey 1 5, Demo.writtenAs 40 CacheEntry.DECIDE))
    as Hl0 by by_evaluation.
  assert (commitCache (task Demo.bothDecided) !! 2
          = Some (mkCacheKey 1 7, Demo.writtenAs 42 CacheEntry.DECIDE))
    as Hl2 by by_evaluation.
  destruct (DecisionRpc_checkStatus_retries_on_unknown_tablet Demo.flush
              (DecisionRpc_complete FINISHED STATUS_UNKNOWN_TABLET
                 Demo.firstDecision)
              Demo.bothDecided) as [_ Hretry].
  destruct (Hretry eq_refl) as (Hc & _).
  destruct (DecisionRpc_checkStatus_retries_on_unknown_tablet Demo.flush
              (DecisionRpc_complete FINISHED STATUS_OK Demo.firstDecision)
              Demo.bothDecided) as [Hsame _].
  split; [exact Hl0|]. split; [exact Hl2|].
  split; [|split].
  - destruct (Hc 0 _ _ Hl0) as (e' & Hl' & Hst & _ & _ & _ & Hid).
    exists e'. split; [exact Hl'|]. split; [|exact Hid].
    etransitivity; [exact Hst|by_evaluation].
  - destruct (Hc 2 _ _ Hl2) as (e' & Hl' & Hst & _ & _ & _ & Hid).
    exists e'. split; [exact Hl'|]. split; [|exact Hid].
    etransitivity; [exact Hst|by_evaluation].
  - apply Hsame. intros Hc'. discriminate Hc'.
Defined.
